(** * A Raft-replicated key-value store: the KV state machine and the
      log, compaction and replication helpers of the Raft server.

    The Go sources are embedded shallowly: every Go function becomes a Rocq
    function of the same name over explicit state.  A Go [int64] is a [Z]
    whose arithmetic is wrapped by [wrap64]; a Go map is a [gmap]; a nil
    pointer or nil channel is [None]; a function that can panic returns an
    [option] whose [None] is the panic; [log.Fatalf] is an outcome of the
    [exec] type. *)

From Stdlib Require Import ZArith Lia.
From stdpp Require Import base option list gmap strings fin_maps.

Local Open Scope Z_scope.

(** ** The Go run time *)

Module Go.

(** How a call that may end the process ends: it returns, the process exits
    through [log.Fatalf] (the state reached is kept), it panics (nil
    dereference, index or slice bound out of range), or the loop budget of
    the model ran out. *)
Inductive exec (A : Type) : Type :=
| Returned (a : A)
| Exited (a : A)
| Panicked
| OutOfFuel.
Arguments Returned {A} a.
Arguments Exited {A} a.
Arguments Panicked {A}.
Arguments OutOfFuel {A}.

Definition min_int64 : Z := - 2 ^ 63.
Definition max_int64 : Z := 2 ^ 63 - 1.

(** The values an [int64] variable holds. *)
Definition int64 (z : Z) : Prop := min_int64 <= z <= max_int64.

Definition int64b (z : Z) : bool := (min_int64 <=? z) && (z <=? max_int64).

(** Two's-complement wrap-around of [int64] arithmetic. *)
Definition wrap64 (z : Z) : Z := (z + 2 ^ 63) mod 2 ^ 64 - 2 ^ 63.

(** [s[i]] for an [int64] index: panics out of range. *)
Definition elem {A : Type} (s : list A) (i : Z) : option A :=
  if (0 <=? i) && (i <? Z.of_nat (length s)) then s !! Z.to_nat i else None.

(** [s[i:]] for an [int64] bound: panics unless [0 <= i <= len(s)]. *)
Definition slice_from {A : Type} (s : list A) (i : Z) : option (list A) :=
  if (0 <=? i) && (i <=? Z.of_nat (length s)) then Some (drop (Z.to_nat i) s)
  else None.

(** A channel is known by its identity; a nil channel is [None]. *)
Definition chan : Type := nat.

(** [time.Millisecond], in the nanoseconds of [time.Duration]. *)
Definition Millisecond : Z := 1000000.

(** [s[:j]] for an [int64] bound [j] with [0 <= j <= len(s)].  Go also
    accepts a bound up to the capacity of the slice, which then reaches into
    the backing array behind the slice; slices carry no capacity here, and
    [None] stands for that case as well as for the panic of a bound out of
    range.  The properties below use it within the length only. *)
Definition slice_to {A : Type} (s : list A) (j : Z) : option (list A) :=
  if (0 <=? j) && (j <=? Z.of_nat (length s)) then Some (take (Z.to_nat j) s)
  else None.

End Go.

Import Go.

(** ** Protocol buffer messages (pb/kv.proto) *)

Module pb.

(** [enum Op]: the generated Go type is [type Op int32] with one named
    constant per operation.  A proto3 enum is open: a decoded command may
    carry any [int32] as its operation, named or not. *)
Definition Op : Type := Z.

Definition Op_GET : Op := 0.
Definition Op_SET : Op := 1.
Definition Op_CLEAR : Op := 2.
Definition Op_CAS : Op := 3.
Definition Op_CONFIG_CHG : Op := 4.

Record Key : Type := mkKey { Key_key : string }.
Record Value : Type := mkValue { Value_value : string }.
Record KeyValue : Type := mkKeyValue { KeyValue_key : string; KeyValue_value : string }.
Record Servers : Type := mkServers { currList : string; newList : string }.

(** Message fields are pointers in the generated Go code: [None] is nil. *)
Record CASArg : Type := mkCASArg { CASArg_kv : option KeyValue; CASArg_value : option Value }.

(** The [oneof arg] of a command. *)
Inductive isCommand_Arg : Type :=
| Command_Get (get : option Key)
| Command_Set (set : option KeyValue)
| Command_Clear
| Command_Cas (cas : option CASArg)
| Command_Servers (servers : option Servers).

Record Command : Type := mkCommand { Operation : Op; Arg : option isCommand_Arg }.

Definition GetGet (c : Command) : option Key :=
  match Arg c with Some (Command_Get k) => k | _ => None end.
Definition GetSet (c : Command) : option KeyValue :=
  match Arg c with Some (Command_Set kv) => kv | _ => None end.
Definition GetCas (c : Command) : option CASArg :=
  match Arg c with Some (Command_Cas a) => a | _ => None end.

(** [Result{}] is [Result_blank]: its [oneof result] is unset. *)
Inductive Result : Type :=
| Result_blank
| Result_Redirect (server : string)
| Result_Kv (kv : KeyValue)
| Result_S
| Result_Failure (msg : string).

Record Entry : Type := mkEntry { Term : Z; Index : Z; Cmd : option Command }.

Record AppendEntriesArgs : Type := mkAppendEntriesArgs {
  AE_Term : Z;
  AE_LeaderID : string;
  AE_PrevLogIndex : Z;
  AE_PrevLogTerm : Z;
  AE_LeaderCommit : Z;
  AE_Entries : list Entry
}.

End pb.

Import pb.

(** ** The key-value state machine *)

Module kv.

(** The data sent over a channel to the state machine. *)
Record InputChannelType : Type := mkInput {
  command : Command;
  response : option chan
}.

(** The store; the input channel [C] of the Go struct takes no part in
    applying a command and is left out. *)
Record KVStore : Type := mkKVStore { store : gmap string string }.

(** [m[k]] on a Go map: the zero value for an absent key. *)
Definition map_get (m : gmap string string) (k : string) : string :=
  default EmptyString (m !! k).

Definition GetInternal (s : KVStore) (k : string) : KVStore * Result :=
  let v := map_get (store s) k in
  (s, Result_Kv (mkKeyValue k v)).

Definition SetInternal (s : KVStore) (k v : string) : KVStore * Result :=
  (mkKVStore (<[k := v]> (store s)), Result_Kv (mkKeyValue k v)).

Definition ClearInternal (s : KVStore) : KVStore * Result :=
  (mkKVStore ∅, Result_S).

Definition CasInternal (s : KVStore) (k v vn : string) : KVStore * Result :=
  let vc := map_get (store s) k in
  if decide (vc = v) then
    (mkKVStore (<[k := vn]> (store s)), Result_Kv (mkKeyValue k vn))
  else
    (s, Result_Kv (mkKeyValue k vc)).

(** What the non-blocking [select] did with the result. *)
Inductive Dispatch : Type :=
| Sent (c : chan) (result : Result)
| NotSent (result : Result).

Section Apply.

(** [receiving c]: a receiver is blocked on channel [c], so that a send on
    it proceeds at once. *)
Variable receiving : chan -> bool.

(** [select { case ch <- result: ... default: ... }]: a nil channel is never
    ready. *)
Definition select_send (ch : option chan) (result : Result) : Dispatch :=
  match ch with
  | Some c => if receiving c then Sent c result else NotSent result
  | None => NotSent result
  end.

(** The [switch] of [HandleCommand], which compares the operation with the
    constant of each case in turn and takes [default] when none is equal:
    the new store, the result and the [unrecognizedOp] flag; [None] when a
    payload getter returned nil and the field access panicked. *)
Definition dispatch_op (s : KVStore) (c : Command) : option (KVStore * Result * bool) :=
  if Operation c =? Op_GET then
    arg ← GetGet c;
    Some (GetInternal s (Key_key arg), false)
  else if Operation c =? Op_SET then
    arg ← GetSet c;
    Some (SetInternal s (KeyValue_key arg) (KeyValue_value arg), false)
  else if Operation c =? Op_CLEAR then Some (ClearInternal s, false)
  else if Operation c =? Op_CAS then
    arg ← GetCas c;
    akv ← CASArg_kv arg;
    av ← CASArg_value arg;
    Some (CasInternal s (KeyValue_key akv) (KeyValue_value akv) (Value_value av), false)
  else Some ((s, Result_blank), true).

Definition HandleCommand (s : KVStore) (op : InputChannelType)
  : exec (KVStore * Dispatch) :=
  match dispatch_op s (command op) with
  | None => Panicked
  | Some (s', result, unrecognizedOp) =>
      let d := select_send (response op) result in
      if unrecognizedOp then Exited (s', d) else Returned (s', d)
  end.

End Apply.

(** The pairs a gob stream of a [map[string]string] carries. *)
Definition Snapshot : Type := list (string * string).

(** [gob.NewEncoder(w).Encode(s.store)]: the length of the map followed by
    its key-value pairs. *)
Definition gob_Encode (m : gmap string string) : Snapshot := map_to_list m.

(** [gob.NewDecoder(r).Decode(&m)] for a map [m] that is not nil: the
    decoder allocates a map only when the destination is nil, and stores
    every decoded pair into the destination with [SetMapIndex]. *)
Definition gob_Decode (blob : Snapshot) (m : gmap string string) : gmap string string :=
  foldr (fun p acc => <[p.1 := p.2]> acc) m blob.

Definition ApplySnapshot (s : KVStore) (snapshot : Snapshot) : KVStore :=
  mkKVStore (gob_Decode snapshot (store s)).

(** *** The client front end

    Each RPC handler builds a command, sends it with a fresh reply channel
    [c] over the input channel of the store and waits for the result on
    [c].  The functions below give what is sent; the request message that
    the RPC layer hands to a handler is never nil. *)

Definition Get (key : Key) (c : chan) : InputChannelType :=
  mkInput (mkCommand Op_GET (Some (Command_Get (Some key)))) (Some c).

Definition Set' (kv : KeyValue) (c : chan) : InputChannelType :=
  mkInput (mkCommand Op_SET (Some (Command_Set (Some kv)))) (Some c).

Definition Clear (c : chan) : InputChannelType :=
  mkInput (mkCommand Op_CLEAR (Some Command_Clear)) (Some c).

Definition CAS (arg : CASArg) (c : chan) : InputChannelType :=
  mkInput (mkCommand Op_CAS (Some (Command_Cas (Some arg)))) (Some c).

Definition ChangeConfiguration (servers : Servers) (c : chan) : InputChannelType :=
  mkInput (mkCommand Op_CONFIG_CHG (Some (Command_Servers (Some servers)))) (Some c).

(** The result a dispatch carries, sent or not. *)
Definition result_of (d : Dispatch) : Result :=
  match d with Sent _ res => res | NotSent res => res end.

(** The state machine as a function of the commands: the store reached by
    applying the commands in order, when each of them is applied without a
    panic or an exit. *)
Fixpoint replay (s : KVStore) (cmds : list Command) : option KVStore :=
  match cmds with
  | [] => Some s
  | c :: cmds' =>
      match dispatch_op s c with
      | Some (s', _, false) => replay s' cmds'
      | _ => None
      end
  end.

End kv.

Import kv.

(** ** The Raft server (server/raft.go) *)

Module raft.

Definition follower : Z := 1.
Definition candidate : Z := 2.
Definition leader : Z := 3.

Definition ELECTION_TIMEOUT_LOWER_BOUND : Z := 1000.
Definition ELECTION_TIMEOUT_UPPER_BOUND : Z := 4000.
Definition HEARTBEAT_TIMEOUT : Z := 500.
Definition LOG_COMPACTION_LIMIT : Z := 30.

(** What [persist] encodes: [currentTerm], [votedFor] and [log]. *)
Record RaftStateBlob : Type := mkRaftStateBlob {
  blob_currentTerm : Z;
  blob_votedFor : string;
  blob_log : list Entry
}.

(** Modelled from the spec: the Persister, whose source is not part of the
    files at hand.  It holds two named slots, [raft_state] and [snapshot];
    a save overwrites its slot and a read observes the most recently
    completed write (nil before any). *)
Record Persister : Type := mkPersister {
  raft_state : option RaftStateBlob;
  snapshot : option Snapshot
}.

Definition SaveRaftState (ps : Persister) (data : RaftStateBlob) : Persister :=
  mkPersister (Some data) (snapshot ps).

Definition SaveSnapshot (ps : Persister) (data : Snapshot) : Persister :=
  mkPersister (raft_state ps) (Some data).

Definition ReadSnapshot (ps : Persister) : option Snapshot := snapshot ps.

(** Modelled from the spec: the timer helpers [restartTimer] and
    [stopTimer], whose source is not part of the files at hand.  A timer is
    either stopped ([None]) or armed to fire after a duration; restarting
    arms it with the given duration, stopping disarms it. *)
Definition Timer : Type := option Z.

Definition restartTimer (t : Timer) (d : Z) : Timer := Some d.

Definition stopTimer (t : Timer) : Timer := None.

Record InstallSnapshotArgs : Type := mkInstallSnapshotArgs {
  IS_Term : Z;
  IS_LeaderID : string;
  IS_LastLogEntry : option Entry;
  IS_Data : option Snapshot
}.

(** The server record.  The field [leader] of the Go struct is [leaderName]
    here, since [leader] is also the role constant; the channels, the lock
    and the random source take no part in the functions below. *)
Record Raft : Type := mkRaft {
  me : string;
  leaderName : string;
  persister : Persister;
  state : Z;
  quorumSize : Z;
  currentTerm : Z;
  votedFor : string;
  lastVoteTerm : Z;
  log : list Entry;
  commitIndex : Z;
  lastApplied : Z;
  nextIndex : gmap string Z;
  matchIndex : gmap string Z;
  clientsResponse : gmap Z chan;
  electionTimer : Timer;
  heartBeatTimer : Timer;
  peers : list string;
  lastSnapshotLogEntry : option Entry
}.

Definition set_leaderName (r : Raft) (x : string) : Raft :=
  mkRaft (me r) x (persister r) (state r) (quorumSize r) (currentTerm r) (votedFor r)
    (lastVoteTerm r) (log r) (commitIndex r) (lastApplied r) (nextIndex r) (matchIndex r)
    (clientsResponse r) (electionTimer r) (heartBeatTimer r) (peers r) (lastSnapshotLogEntry r).

Definition set_persister (r : Raft) (x : Persister) : Raft :=
  mkRaft (me r) (leaderName r) x (state r) (quorumSize r) (currentTerm r) (votedFor r)
    (lastVoteTerm r) (log r) (commitIndex r) (lastApplied r) (nextIndex r) (matchIndex r)
    (clientsResponse r) (electionTimer r) (heartBeatTimer r) (peers r) (lastSnapshotLogEntry r).

Definition set_state (r : Raft) (x : Z) : Raft :=
  mkRaft (me r) (leaderName r) (persister r) x (quorumSize r) (currentTerm r) (votedFor r)
    (lastVoteTerm r) (log r) (commitIndex r) (lastApplied r) (nextIndex r) (matchIndex r)
    (clientsResponse r) (electionTimer r) (heartBeatTimer r) (peers r) (lastSnapshotLogEntry r).

Definition set_log (r : Raft) (x : list Entry) : Raft :=
  mkRaft (me r) (leaderName r) (persister r) (state r) (quorumSize r) (currentTerm r) (votedFor r)
    (lastVoteTerm r) x (commitIndex r) (lastApplied r) (nextIndex r) (matchIndex r)
    (clientsResponse r) (electionTimer r) (heartBeatTimer r) (peers r) (lastSnapshotLogEntry r).

Definition set_lastApplied (r : Raft) (x : Z) : Raft :=
  mkRaft (me r) (leaderName r) (persister r) (state r) (quorumSize r) (currentTerm r) (votedFor r)
    (lastVoteTerm r) (log r) (commitIndex r) x (nextIndex r) (matchIndex r)
    (clientsResponse r) (electionTimer r) (heartBeatTimer r) (peers r) (lastSnapshotLogEntry r).

Definition set_nextIndex (r : Raft) (x : gmap string Z) : Raft :=
  mkRaft (me r) (leaderName r) (persister r) (state r) (quorumSize r) (currentTerm r) (votedFor r)
    (lastVoteTerm r) (log r) (commitIndex r) (lastApplied r) x (matchIndex r)
    (clientsResponse r) (electionTimer r) (heartBeatTimer r) (peers r) (lastSnapshotLogEntry r).

Definition set_matchIndex (r : Raft) (x : gmap string Z) : Raft :=
  mkRaft (me r) (leaderName r) (persister r) (state r) (quorumSize r) (currentTerm r) (votedFor r)
    (lastVoteTerm r) (log r) (commitIndex r) (lastApplied r) (nextIndex r) x
    (clientsResponse r) (electionTimer r) (heartBeatTimer r) (peers r) (lastSnapshotLogEntry r).

Definition set_clientsResponse (r : Raft) (x : gmap Z chan) : Raft :=
  mkRaft (me r) (leaderName r) (persister r) (state r) (quorumSize r) (currentTerm r) (votedFor r)
    (lastVoteTerm r) (log r) (commitIndex r) (lastApplied r) (nextIndex r) (matchIndex r)
    x (electionTimer r) (heartBeatTimer r) (peers r) (lastSnapshotLogEntry r).

Definition set_electionTimer (r : Raft) (x : Timer) : Raft :=
  mkRaft (me r) (leaderName r) (persister r) (state r) (quorumSize r) (currentTerm r) (votedFor r)
    (lastVoteTerm r) (log r) (commitIndex r) (lastApplied r) (nextIndex r) (matchIndex r)
    (clientsResponse r) x (heartBeatTimer r) (peers r) (lastSnapshotLogEntry r).

Definition set_heartBeatTimer (r : Raft) (x : Timer) : Raft :=
  mkRaft (me r) (leaderName r) (persister r) (state r) (quorumSize r) (currentTerm r) (votedFor r)
    (lastVoteTerm r) (log r) (commitIndex r) (lastApplied r) (nextIndex r) (matchIndex r)
    (clientsResponse r) (electionTimer r) x (peers r) (lastSnapshotLogEntry r).

Definition set_lastSnapshotLogEntry (r : Raft) (x : option Entry) : Raft :=
  mkRaft (me r) (leaderName r) (persister r) (state r) (quorumSize r) (currentTerm r) (votedFor r)
    (lastVoteTerm r) (log r) (commitIndex r) (lastApplied r) (nextIndex r) (matchIndex r)
    (clientsResponse r) (electionTimer r) (heartBeatTimer r) (peers r) x.

(** [persist]: the gob encoding of the three persistent fields is saved in
    the [raft_state] slot. *)
Definition persist (r : Raft) : Raft :=
  let data := mkRaftStateBlob (currentTerm r) (votedFor r) (log r) in
  set_persister r (SaveRaftState (persister r) data).

Definition getFirstLogIndex (r : Raft) : option Z :=
  e ← Go.elem (log r) 0; Some (Index e).

Definition getLastLogIndex (r : Raft) : option Z :=
  e ← Go.elem (log r) (Z.of_nat (length (log r)) - 1); Some (Index e).

Definition getLastLogTerm (r : Raft) : option Z :=
  e ← Go.elem (log r) (Z.of_nat (length (log r)) - 1); Some (Term e).

Definition getLogLen (r : Raft) : Z := Z.of_nat (length (log r)).

Definition addLogEntry (r : Raft) (entry : Entry) : Raft :=
  set_log r (log r ++ [entry]).

(** The pair [(entry, ok)]; the entry is nil ([None]) when [ok] is false. *)
Definition getLogEntry (r : Raft) (index : Z) : option (option Entry * bool) :=
  if getLogLen r =? 0 then Some (None, false)
  else
    e0 ← Go.elem (log r) 0;
    let firstIndex := Index e0 in
    last ← getLastLogIndex r;
    if (last <? index) || (index <? firstIndex) then Some (None, false)
    else
      e ← Go.elem (log r) (wrap64 (index - firstIndex));
      Some (Some e, true).

Definition getEntryFrom (r : Raft) (index : Z) : option (list Entry) :=
  e0 ← Go.elem (log r) 0;
  let firstIndex := Index e0 in
  let sliceIndex := wrap64 (index - firstIndex) in
  Go.slice_from (log r) sliceIndex.

(** [Compaction]: the first log index is read for the log line before the
    guard is evaluated. *)
Definition Compaction (r : Raft) (index : Z) : option Raft :=
  first ← getFirstLogIndex r;
  let guard :=
    match lastSnapshotLogEntry r with
    | None => true
    | Some sn => (Index sn <? index) && (first <? index)
    end in
  if guard then
    '(entry, _) ← getLogEntry r index;
    let r1 := set_lastSnapshotLogEntry r entry in
    l ← getEntryFrom r1 index;
    let r2 := set_log r1 l in
    Some (persist r2)
  else Some r.

Definition leaderStatePrep (r : Raft) : option Raft :=
  let r := set_state r leader in
  let r := set_leaderName r (me r) in
  let r := set_heartBeatTimer r (restartTimer (heartBeatTimer r) (HEARTBEAT_TIMEOUT * Millisecond)) in
  let r := set_electionTimer r (stopTimer (electionTimer r)) in
  let r := set_nextIndex r ∅ in
  let r := set_matchIndex r ∅ in
  let r := set_clientsResponse r ∅ in
  last ← getLastLogIndex r;
  let index := wrap64 (last + 1) in
  Some (foldl (fun r peer =>
                 let r := set_nextIndex r (<[peer := index]> (nextIndex r)) in
                 set_matchIndex r (<[peer := 0]> (matchIndex r)))
              r (peers r)).

(** One call of [s.HandleCommand(op)] by the apply pump: the entry applied,
    the operation handed over and what became of the reply. *)
Record Applied : Type := mkApplied {
  applied_entry : Entry;
  applied_op : InputChannelType;
  applied_dispatch : Dispatch
}.

Section ApplyPump.

Variable receiving : chan -> bool.

(** The [for r.commitIndex > r.lastApplied] loop of [ProcessLogs]; [fuel]
    bounds the number of iterations and [done] collects the calls made to
    the state machine, oldest first.  Dereferencing the nil entry that
    [getLogEntry] returns with [ok = false], or a nil [Cmd], panics. *)
Fixpoint ProcessLogs_loop (fuel : nat) (r : Raft) (s : KVStore) (done : list Applied)
  : exec (Raft * KVStore * list Applied) :=
  if lastApplied r <? commitIndex r then
    match fuel with
    | O => OutOfFuel
    | S fuel' =>
        let r := set_lastApplied r (wrap64 (lastApplied r + 1)) in
        match getLogEntry r (lastApplied r) with
        | Some (Some entry, _) =>
            let responseChan :=
              if state r =? leader then clientsResponse r !! Index entry else None in
            match Cmd entry with
            | Some cmd =>
                let op := mkInput cmd responseChan in
                match HandleCommand receiving s op with
                | Returned (s', d) =>
                    let r := set_clientsResponse r (delete (Index entry) (clientsResponse r)) in
                    ProcessLogs_loop fuel' r s' (done ++ [mkApplied entry op d])
                | Exited (s', d) => Exited (r, s', done ++ [mkApplied entry op d])
                | Panicked => Panicked
                | OutOfFuel => OutOfFuel
                end
            | None => Panicked
            end
        | _ => Panicked
        end
    end
  else Returned (r, s, done).

Definition ProcessLogs (fuel : nat) (r : Raft) (s : KVStore)
  : exec (Raft * KVStore * list Applied) :=
  match ProcessLogs_loop fuel r s [] with
  | Returned (r, s, done) =>
      if negb (LOG_COMPACTION_LIMIT =? -1) && (LOG_COMPACTION_LIMIT <=? Z.of_nat (length (log r))) then
        let data := gob_Encode (store s) in
        let r := set_persister r (SaveSnapshot (persister r) data) in
        match Compaction r (lastApplied r) with
        | Some r => Returned (r, s, done)
        | None => Panicked
        end
      else Returned (r, s, done)
  | other => other
  end.

End ApplyPump.

(** The request a worker goroutine carries to peer [p]. *)
Inductive Outbound : Type :=
| CallInstallSnapshot (p : string) (args : InstallSnapshotArgs)
| CallAppendEntries (p : string) (args : AppendEntriesArgs).

(** [m[p]] on the per-peer maps: zero for an absent peer. *)
Definition peer_get (m : gmap string Z) (p : string) : Z := default 0 (m !! p).

(** [sendApeendEntriesTo] up to the start of the worker goroutine.  The log
    line of the snapshot branch reads [r.lastSnapshotLogEntry.Index], which
    panics on a nil snapshot pointer. *)
Definition sendApeendEntriesTo (r : Raft) (p : string) : option Outbound :=
  last ← getLastLogIndex r;
  let isHeartBeat := negb (peer_get (nextIndex r) p <=? last) in
  let prevLogIndex := wrap64 (peer_get (nextIndex r) p - 1) in
  prev ← (if negb (prevLogIndex =? 0) then
            '(entry, ok) ← getLogEntry r prevLogIndex;
            if (ok : bool) then e ← entry; Some (Some (Term e)) else Some None
          else Some (Some 0));
  match prev with
  | None =>
      let installSnapshotArgs :=
        mkInstallSnapshotArgs (currentTerm r) (me r) (lastSnapshotLogEntry r)
          (ReadSnapshot (persister r)) in
      _ ← lastSnapshotLogEntry r;
      Some (CallInstallSnapshot p installSnapshotArgs)
  | Some prevLogTerm =>
      if isHeartBeat then
        Some (CallAppendEntries p
                (mkAppendEntriesArgs (currentTerm r) (me r) prevLogIndex prevLogTerm
                   (commitIndex r) []))
      else
        _ ← getLogEntry r (wrap64 (prevLogIndex + 1));
        entries ← getEntryFrom r (wrap64 (prevLogIndex + 1));
        Some (CallAppendEntries p
                (mkAppendEntriesArgs (currentTerm r) (me r) prevLogIndex prevLogTerm
                   (commitIndex r) entries))
  end.

(** The tags of the [AppendResponse] that the worker goroutine posts once the
    call has come back: [matchIndex] is computed from the request, while
    [requestTerm] reads [r.currentTerm] at that later moment, from the
    server as it is then ([r_then]). *)
Record AppendResponseTags : Type := mkAppendResponseTags {
  resp_peer : string;
  resp_matchIndex : Z;
  resp_requestTerm : Z
}.

Definition appendResponse (r_then : Raft) (p : string) (args : AppendEntriesArgs)
  : AppendResponseTags :=
  mkAppendResponseTags p
    (wrap64 (AE_PrevLogIndex args + Z.of_nat (length (AE_Entries args))))
    (currentTerm r_then).

(** [randomDuration], as a function of the number [n] that
    [r.Intn(DurationMax-DurationMin)] returned. *)
Definition DurationMax : Z := 4000.
Definition DurationMin : Z := 1000.

Definition randomDuration (n : Z) : Z :=
  wrap64 (wrap64 (n + DurationMin) * Millisecond).

(** [math/rand]: [Intn(bound)] returns a number of the half-open interval
    [0, bound). *)
Definition Intn_returns (bound n : Z) : Prop := 0 <= n < bound.

(** *** Invariants of the log (the data model of the server) *)

(** The indices of [l] run [i], [i+1], [i+2], ... *)
Fixpoint contiguous_from (i : Z) (l : list Entry) : bool :=
  match l with
  | [] => true
  | e :: l' => (Index e =? i) && contiguous_from (i + 1) l'
  end.

(** A well-formed log: not empty, indices a contiguous run; its indices are
    [int64] values and its length is a Go [int]. *)
Definition wf_log (l : list Entry) : bool :=
  match l with
  | [] => false
  | e0 :: _ =>
      contiguous_from (Index e0) l
      && int64b (Index e0)
      && int64b (Index e0 + Z.of_nat (length l) - 1)
      && (Z.of_nat (length l) <=? max_int64)
  end.

(** The entries of [l] whose index is at least [i]: the log suffix
    [log[i .. lastLogIndex]]. *)
Definition log_suffix (i : Z) (l : list Entry) : list Entry :=
  filter (fun e => i <= Index e) l.

(** A command the state machine knows how to apply: one of Get, Set, Clear
    and CompareAndSet, carrying the payload of its kind. *)
Definition applicable (c : Command) : bool :=
  if Operation c =? Op_GET then bool_decide (is_Some (GetGet c))
  else if Operation c =? Op_SET then bool_decide (is_Some (GetSet c))
  else if Operation c =? Op_CLEAR then true
  else if Operation c =? Op_CAS then
    match GetCas c with
    | Some arg => bool_decide (is_Some (CASArg_kv arg)) && bool_decide (is_Some (CASArg_value arg))
    | None => false
    end
  else false.

(** The reply sink the apply pump passes for an entry: the sink stored under
    the index of the entry when the server is Leader (nil when none is
    stored), nil otherwise. *)
Definition sink_for (r : Raft) (e : Entry) : option chan :=
  if state r =? leader then clientsResponse r !! Index e else None.

(** A call to the state machine made by a pump that started from the server
    [r]: the entry is an entry of the log with an index among those
    committed and not yet applied, the operation carries its command and
    the reply sink of the entry. *)
Definition applied_from (r : Raft) (a : Applied) : Prop :=
  applied_entry a ∈ log r
  /\ lastApplied r < Index (applied_entry a) <= commitIndex r
  /\ Cmd (applied_entry a) = Some (command (applied_op a))
  /\ response (applied_op a) = sink_for r (applied_entry a).

(** *** More of the server *)

Definition set_currentTerm (r : Raft) (x : Z) : Raft :=
  mkRaft (me r) (leaderName r) (persister r) (state r) (quorumSize r) x (votedFor r)
    (lastVoteTerm r) (log r) (commitIndex r) (lastApplied r) (nextIndex r) (matchIndex r)
    (clientsResponse r) (electionTimer r) (heartBeatTimer r) (peers r) (lastSnapshotLogEntry r).

Definition set_votedFor (r : Raft) (x : string) : Raft :=
  mkRaft (me r) (leaderName r) (persister r) (state r) (quorumSize r) (currentTerm r) x
    (lastVoteTerm r) (log r) (commitIndex r) (lastApplied r) (nextIndex r) (matchIndex r)
    (clientsResponse r) (electionTimer r) (heartBeatTimer r) (peers r) (lastSnapshotLogEntry r).

(** [fallbackToFollower], with [n] the number that [Intn] returned inside
    [randomDuration]. *)
Definition fallbackToFollower (r : Raft) (n : Z) : Raft :=
  let r := set_state r follower in
  let r := set_electionTimer r (restartTimer (electionTimer r) (randomDuration n)) in
  set_heartBeatTimer r (stopTimer (heartBeatTimer r)).

Definition deleteEntryFrom (r : Raft) (index : Z) : option Raft :=
  e0 ← Go.elem (log r) 0;
  let firstIndex := Index e0 in
  last ← getLastLogIndex r;
  if last <? index then Some r
  else
    let sliceIndex := wrap64 (index - firstIndex) in
    l ← Go.slice_to (log r) sliceIndex;
    Some (set_log r l).

Record RequestVoteArgs : Type := mkRequestVoteArgs {
  RV_Term : Z;
  RV_CandidateID : string;
  RV_LastLogIndex : Z;
  RV_LasLogTerm : Z
}.

(** [sendVoteRequests] up to the start of the worker goroutines: the new
    state of the server, and the [lastLogIndex] and [lastLogTerm] that the
    goroutines capture. *)
Definition sendVoteRequests (r : Raft) : option (Raft * Z * Z) :=
  let r := set_state r candidate in
  let r := set_currentTerm r (wrap64 (currentTerm r + 1)) in
  let r := set_votedFor r (me r) in
  let r := set_leaderName r EmptyString in
  lastLogIndex ← getLastLogIndex r;
  lastLogTerm ← (if negb (lastLogIndex =? 0) then getLastLogTerm r else Some 0);
  let r := persist r in
  Some (r, lastLogIndex, lastLogTerm).

(** The request a worker goroutine of [sendVoteRequests] builds: the term
    and the candidate are read from the server when the goroutine runs
    ([r_then]). *)
Definition voteRequest (r_then : Raft) (lastLogIndex lastLogTerm : Z) : RequestVoteArgs :=
  mkRequestVoteArgs (currentTerm r_then) (me r_then) lastLogIndex lastLogTerm.

(** [sendApeendEntries]: one call of [sendApeendEntriesTo] per peer of
    [peerClients], given by its keys in the order of the iteration. *)
Definition sendApeendEntries (r : Raft) (peerClients : list string) : option (list Outbound) :=
  mapM (sendApeendEntriesTo r) peerClients.

(** The commands of the entries committed and not yet applied, in log
    order. *)
Definition committed_commands (r : Raft) : list Command :=
  omap Cmd (filter (fun e => lastApplied r < Index e <= commitIndex r) (log r)).

(** A call to the state machine that was given no reply sink and whose
    result was dropped. *)
Definition no_reply (a : Applied) : Prop :=
  response (applied_op a) = None
  /\ applied_dispatch a = NotSent (result_of (applied_dispatch a)).

(** The [raft_state] slot holds the persistent fields as they are. *)
Definition persisted_in_sync (r : Raft) : Prop :=
  raft_state (persister r)
  = Some (mkRaftStateBlob (currentTerm r) (votedFor r) (log r)).

End raft.

Import raft.

(** ** Sample states *)

Module Samples.

Local Open Scope string_scope.

Definition cmd_set (k v : string) : Command :=
  mkCommand Op_SET (Some (Command_Set (Some (mkKeyValue k v)))).

Definition cmd_config_chg (cur new : string) : Command :=
  mkCommand Op_CONFIG_CHG (Some (Command_Servers (Some (mkServers cur new)))).

(** A server of a three-node cluster in term 1 with the given role, log,
    commit index, last applied index and snapshot pointer; nothing
    persisted, no leader state, timers stopped. *)
Definition server (role : Z) (l : list Entry) (commit applied : Z) (snap : option Entry) : Raft :=
  mkRaft "n0" "" (mkPersister None None) role 2 1 "" 0 l commit applied
    ∅ ∅ ∅ None None ["n1"; "n2"] snap.

(** The log at boot: the sentinel (0, 0, nil). *)
Definition boot_log : list Entry := [mkEntry 0 0 None].

Definition boot : Raft := server follower boot_log 0 0 None.

(** Three Set commands after the boot sentinel. *)
Definition three_sets : list Entry :=
  [mkEntry 0 0 None; mkEntry 1 1 (Some (cmd_set "a" "1"));
   mkEntry 1 2 (Some (cmd_set "b" "2")); mkEntry 1 3 (Some (cmd_set "c" "3"))].

(** The log above once compacted up to index 1. *)
Definition compacted_at_1 : Raft :=
  server follower (drop 1 three_sets) 3 3 (Some (mkEntry 1 1 (Some (cmd_set "a" "1")))).

(** A leader over the log compacted at 1: the peer n1 is still to be sent
    the log from index 1 on, the peer n2 is up to date. *)
Definition leader_compacted_at_1 : Raft :=
  set_nextIndex (set_state compacted_at_1 leader) (<[ "n1" := 1 ]> (<[ "n2" := 4 ]> ∅)).

(** The same leader once its log is compacted at 2. *)
Definition leader_compacted_at_2 : Raft :=
  set_lastSnapshotLogEntry (set_log leader_compacted_at_1 (drop 2 three_sets))
    (Some (mkEntry 1 2 (Some (cmd_set "b" "2")))).

(** A leader whose log holds a committed ChangeConfiguration command at
    index 1 and a committed Set at index 2, neither applied yet; clients
    wait for the replies on the channels 7 and 8. *)
Definition config_change_log : list Entry :=
  [mkEntry 0 0 None; mkEntry 1 1 (Some (cmd_config_chg "n0,n1,n2" "n0,n1"));
   mkEntry 1 2 (Some (cmd_set "a" "1"))].

Definition leader_with_config_change : Raft :=
  set_clientsResponse (server leader config_change_log 2 0 None)
    (<[ 1 := 7%nat ]> (<[ 2 := 8%nat ]> ∅)).

(** A leader with the three Set commands committed and none applied. *)
Definition leader_with_three_sets : Raft :=
  set_clientsResponse (server leader three_sets 3 0 None)
    (<[ 1 := 7%nat ]> (<[ 3 := 9%nat ]> ∅)).

(** A candidate with the three Set commands in its log, none committed:
    the server that wins an election. *)
Definition candidate_with_three_sets : Raft := server candidate three_sets 0 0 None.

(** A follower whose log starts with the sentinel of a snapshot at index 5
    while its last applied index is 4. *)
Definition behind_the_sentinel : Raft :=
  server follower [mkEntry 2 5 None; mkEntry 2 6 (Some (cmd_set "a" "1"))] 6 4
    (Some (mkEntry 2 5 None)).

(** A leader whose log holds the boot sentinel and thirty committed Set
    commands at the indices 1 to 30, none applied yet. *)
Definition long_log : list Entry :=
  mkEntry 0 0 None :: map (fun i => mkEntry 1 i (Some (cmd_set "k" "v"))) (seqZ 1 30).

Definition leader_with_long_log : Raft := server leader long_log 30 0 None.

(** That leader when the peer n1 has been out of reach since the election,
    so that its nextIndex is still 1, while the peer n2 has acknowledged
    the thirty entries. *)
Definition leader_with_peer_out_of_reach : Raft :=
  set_nextIndex leader_with_long_log (<[ "n1" := 1 ]> (<[ "n2" := 31 ]> ∅)).

(** The same leader once the pump has applied the thirty entries and
    compacted the log at index 30. *)
Definition leader_compacted_at_30 : Raft :=
  let e := mkEntry 1 30 (Some (cmd_set "k" "v")) in
  set_persister
    (set_nextIndex (server leader [e] 30 30 (Some e)) (<[ "n1" := 1 ]> (<[ "n2" := 31 ]> ∅)))
    (mkPersister (Some (mkRaftStateBlob 1 "" [e])) (Some (gob_Encode {[ "k" := "v" ]}))).

End Samples.

(** * Properties *)

(** ** Arithmetic of [int64] *)

Lemma wrap64_id (z : Z) : int64 z -> wrap64 z = z.
Proof.
  unfold int64, wrap64, min_int64, max_int64. intros H.
  rewrite Z.mod_small; lia.
Qed.

Lemma int64b_spec (z : Z) : int64b z = true <-> int64 z.
Proof.
  unfold int64b, int64. rewrite andb_true_iff, !Z.leb_le. tauto.
Qed.

(** ** The key-value state machine *)

Local Open Scope string_scope.

(** C1: a committed ChangeConfiguration command is not among the cases of
    the switch of HandleCommand.  Whatever the store, the payload and the
    reply sink, the command takes the default branch: the store is left as
    it was, a blank result is offered to the sink by the non-blocking send,
    and then the process exits through the fatal unknown-command branch
    instead of returning. *)
Theorem HandleCommand_ChangeConfiguration_exits
    (receiving : chan -> bool) (s : KVStore) (arg : option isCommand_Arg) (sink : option chan) :
  HandleCommand receiving s (mkInput (mkCommand Op_CONFIG_CHG arg) sink)
  = Exited (s, select_send receiving sink Result_blank).
Proof. reflexivity. Qed.

(** The cases of a switch on the operation [op], in the order of the
    source: Get, Set, Clear, CompareAndSet, and [default]. *)
Ltac switch_on op :=
  destruct (Z.eqb_spec op Op_GET) as [->|?];
  [|destruct (Z.eqb_spec op Op_SET) as [->|?];
    [|destruct (Z.eqb_spec op Op_CLEAR) as [->|?];
      [|destruct (Z.eqb_spec op Op_CAS) as [->|?]]]].

(** The other four kinds return when they carry their payload. *)
Lemma HandleCommand_applicable_returns
    (receiving : chan -> bool) (s : KVStore) (c : Command) (sink : option chan) :
  applicable c = true ->
  exists s' d, HandleCommand receiving s (mkInput c sink) = Returned (s', d).
Proof.
  destruct c as [op arg]. unfold applicable, HandleCommand, dispatch_op.
  cbn [Operation command response].
  switch_on op; cbn [Operation]; intros H; try discriminate.
  - apply bool_decide_eq_true in H. destruct H as [k Hk]. rewrite Hk. simpl. eauto.
  - apply bool_decide_eq_true in H. destruct H as [k Hk]. rewrite Hk. simpl. eauto.
  - eauto.
  - destruct (GetCas _) as [a|]; [|discriminate]. simpl.
    apply andb_true_iff in H. destruct H as [H1 H2].
    apply bool_decide_eq_true in H1. apply bool_decide_eq_true in H2.
    destruct H1 as [x Hx]. destruct H2 as [y Hy]. rewrite Hx, Hy. simpl.
    unfold CasInternal. destruct (decide _); eauto.
Qed.

(** A leader applies a committed ChangeConfiguration command while the
    client waits on channel 7: the blank result is sent, the store is as
    before, and the process has exited. *)
Example HandleCommand_ChangeConfiguration_sample :
  HandleCommand (fun _ => true) (mkKVStore {[ "a" := "1" ]})
    (mkInput (Samples.cmd_config_chg "n0,n1,n2" "n0,n1") (Some 7%nat))
  = Exited (mkKVStore {[ "a" := "1" ]}, Sent 7%nat Result_blank).
Proof. reflexivity. Qed.

(** A command whose operation number is 7, which the enum does not name,
    takes the default branch as well. *)
Example HandleCommand_unnamed_operation_sample :
  HandleCommand (fun _ => true) (mkKVStore {[ "a" := "1" ]})
    (mkInput (mkCommand 7 None) (Some 7%nat))
  = Exited (mkKVStore {[ "a" := "1" ]}, Sent 7%nat Result_blank).
Proof. reflexivity. Qed.

(** *** CompareAndSet *)

(** C3 (as amended): with [vc] the current value of [k] (the empty string
    when [k] is absent), CompareAndSet((k, v), vn) assigns [vn] to [k] and
    replies (k, vn) when [vc = v]; otherwise it leaves the store unchanged and
    replies (k, vc).  The returned value equals [vn] exactly when the
    assignment took effect or the current value already was [vn]; in both
    cases [k] holds [vn] afterwards. *)
Theorem CasInternal_spec (s : KVStore) (k v vn : string) :
  let vc := map_get (store s) k in
  (vc = v ->
     CasInternal s k v vn = (mkKVStore (<[k := vn]> (store s)), Result_Kv (mkKeyValue k vn)))
  /\ (vc <> v -> CasInternal s k v vn = (s, Result_Kv (mkKeyValue k vc)))
  /\ ((CasInternal s k v vn).2 = Result_Kv (mkKeyValue k vn) <-> (vc = v \/ vc = vn))
  /\ ((CasInternal s k v vn).2 = Result_Kv (mkKeyValue k vn) ->
        map_get (store (CasInternal s k v vn).1) k = vn).
Proof.
  intros vc. unfold CasInternal. fold vc.
  destruct (decide (vc = v)) as [E|N]; simpl.
  - repeat split; try tauto; try congruence.
    intros _. unfold map_get. by rewrite lookup_insert_eq.
  - repeat split; try tauto; try congruence.
    + intros H. right. congruence.
    + intros [H|H]; congruence.
    + intros H. injection H as H. exact H.
Qed.

(** C3, counterexample: with x holding B, CompareAndSet((x, A), B) replies
    (x, B), the new value, although the comparison failed and nothing was
    assigned. *)
Lemma CasInternal_new_value_without_assignment :
  let s := mkKVStore {[ "x" := "B" ]} in
  ~ ((CasInternal s "x" "A" "B").2 = Result_Kv (mkKeyValue "x" "B")
     <-> map_get (store s) "x" = "A")
  /\ (CasInternal s "x" "A" "B").1 = s.
Proof.
  simpl. split.
  - intros [H _]. assert (E : map_get (store (mkKVStore {[ "x" := "B" ]})) "x" = "A").
    { apply H. reflexivity. }
    vm_compute in E. discriminate.
  - reflexivity.
Qed.

(** The scenario of the specification: Set(x, A); CAS((x, A), B) replies
    (x, B); CAS((x, A), C) replies (x, B) and changes nothing. *)
Example cas_success_then_conflict :
  let s0 := mkKVStore ∅ in
  let s1 := (SetInternal s0 "x" "A").1 in
  let r2 := CasInternal s1 "x" "A" "B" in
  let r3 := CasInternal r2.1 "x" "A" "C" in
  r2.2 = Result_Kv (mkKeyValue "x" "B")
  /\ r3.2 = Result_Kv (mkKeyValue "x" "B")
  /\ r3.1 = r2.1.
Proof. vm_compute. repeat split. Qed.

(** *** Snapshots *)

Lemma gob_Decode_list_to_map (blob : Snapshot) (m : gmap string string) :
  gob_Decode blob m = list_to_map blob ∪ m.
Proof.
  induction blob as [|[k v] blob IH]; simpl.
  - by rewrite (left_id_L ∅ (∪)).
  - unfold gob_Decode in *. simpl. rewrite IH. by rewrite insert_union_l.
Qed.

(** Restoring merges the snapshot into the store: the bindings of the
    snapshot win, the other keys of the store stay. *)
Lemma ApplySnapshot_union (s : KVStore) (M : gmap string string) :
  store (ApplySnapshot s (gob_Encode M)) = M ∪ store s.
Proof.
  unfold ApplySnapshot, gob_Encode. simpl.
  by rewrite gob_Decode_list_to_map, list_to_map_to_list.
Qed.

Lemma ApplySnapshot_fresh (M : gmap string string) :
  store (ApplySnapshot (mkKVStore ∅) (gob_Encode M)) = M.
Proof. rewrite ApplySnapshot_union. simpl. by rewrite (right_id_L ∅ (∪)). Qed.

Lemma ApplySnapshot_own (s : KVStore) :
  ApplySnapshot s (gob_Encode (store s)) = s.
Proof.
  destruct s as [m]. f_equal.
  pose proof (ApplySnapshot_union (mkKVStore m) m) as H. simpl in H.
  unfold ApplySnapshot. simpl. f_equal. rewrite H. apply map_eq. intros i.
  rewrite lookup_union. by destruct (m !! i).
Qed.

(** C2: restoring the snapshot of the mapping {b ↦ 2} into a store that
    holds {a ↦ 1} leaves the key a in place: the store is then
    {a ↦ 1, b ↦ 2}, which is not the mapping of the snapshot. *)
Theorem ApplySnapshot_keeps_prior_keys :
  let s := mkKVStore {[ "a" := "1" ]} in
  let M : gmap string string := {[ "b" := "2" ]} in
  store (ApplySnapshot s (gob_Encode M)) = <[ "b" := "2" ]> {[ "a" := "1" ]}
  /\ store (ApplySnapshot s (gob_Encode M)) !! "a" = Some "1"
  /\ store (ApplySnapshot s (gob_Encode M)) <> M.
Proof.
  intros s M. rewrite ApplySnapshot_union. subst s M. simpl.
  assert (E : ({[ "b" := "2" ]} : gmap string string) ∪ {[ "a" := "1" ]}
              = <[ "b" := "2" ]> {[ "a" := "1" ]}).
  { by rewrite <- insert_union_singleton_l. }
  rewrite E. repeat split.
  intros H. assert (H' := f_equal (fun m : gmap string string => m !! "a") H).
  simpl in H'. vm_compute in H'. discriminate.
Qed.

(** ** The election timeout *)

Local Open Scope Z_scope.

Lemma randomDuration_ms (n : Z) :
  0 <= n < 3000 -> randomDuration n = (n + 1000) * Millisecond.
Proof.
  intros Hn. unfold randomDuration, DurationMin, Millisecond.
  rewrite (wrap64_id (n + 1000)) by (unfold int64, min_int64, max_int64; lia).
  apply wrap64_id. unfold int64, min_int64, max_int64. lia.
Qed.

(** C9 (as amended): with [n] the number returned by
    [Intn(DurationMax - DurationMin)], every duration returned by
    randomDuration is a whole number of milliseconds in the half-open
    interval [1000 ms, 4000 ms), and every whole number of milliseconds in
    that interval is returned for some draw. *)
Theorem randomDuration_half_open :
  (forall n, Intn_returns (DurationMax - DurationMin) n ->
     exists ms, 1000 <= ms < 4000 /\ randomDuration n = ms * Millisecond)
  /\ (forall ms, 1000 <= ms < 4000 ->
        exists n, Intn_returns (DurationMax - DurationMin) n
                  /\ randomDuration n = ms * Millisecond).
Proof.
  split.
  - intros n Hn. exists (n + 1000). split; [unfold Intn_returns, DurationMax, DurationMin in Hn; lia|].
    apply randomDuration_ms. exact Hn.
  - unfold Intn_returns, randomDuration, DurationMax, DurationMin, Millisecond.
    intros ms Hms. exists (ms - 1000). split; [lia|].
    replace (ms - 1000 + 1000) with ms by lia.
    rewrite (wrap64_id ms) by (unfold int64, min_int64, max_int64; lia).
    apply wrap64_id. unfold int64, min_int64, max_int64. lia.
Qed.

(** C9, counterexample: no draw makes randomDuration return 4000 ms. *)
Lemma randomDuration_never_4000ms :
  ~ exists n, Intn_returns (DurationMax - DurationMin) n
              /\ randomDuration n = 4000 * Millisecond.
Proof.
  intros [n [Hn E]].
  rewrite (randomDuration_ms n Hn) in E. unfold Intn_returns, DurationMax, DurationMin in Hn.
  unfold Millisecond in E. lia.
Qed.

(** ** The log *)

Lemma elem_Some {A : Type} (l : list A) (z : Z) (a : A) :
  Go.elem l z = Some a <-> (0 <= z < Z.of_nat (length l) /\ l !! Z.to_nat z = Some a).
Proof.
  unfold Go.elem.
  destruct (0 <=? z) eqn:E1; destruct (z <? Z.of_nat (length l)) eqn:E2; simpl;
    try apply Z.leb_le in E1; try apply Z.ltb_lt in E2;
    try apply Z.leb_gt in E1; try apply Z.ltb_ge in E2;
    split; try (intros [? ?]; lia); try discriminate; try tauto.
Qed.

Lemma elem_first {A : Type} (l : list A) : Go.elem l 0 = head l.
Proof. destruct l; reflexivity. Qed.

Lemma elem_last {A : Type} (l : list A) :
  Go.elem l (Z.of_nat (length l) - 1) = last l.
Proof.
  rewrite last_lookup. unfold Go.elem.
  destruct l as [|a l]; [reflexivity|].
  cbn [length].
  replace (Z.of_nat (S (length l)) - 1) with (Z.of_nat (length l)) by lia.
  rewrite Nat2Z.id.
  replace (0 <=? Z.of_nat (length l)) with true by (symmetry; apply Z.leb_le; lia).
  replace (Z.of_nat (length l) <? Z.of_nat (S (length l))) with true
    by (symmetry; apply Z.ltb_lt; lia).
  reflexivity.
Qed.

Lemma getFirstLogIndex_head (r : Raft) :
  getFirstLogIndex r = Index <$> head (log r).
Proof. unfold getFirstLogIndex. rewrite elem_first. by destruct (head (log r)). Qed.

Lemma getLastLogIndex_last (r : Raft) :
  getLastLogIndex r = Index <$> last (log r).
Proof. unfold getLastLogIndex. rewrite elem_last. by destruct (last (log r)). Qed.

Lemma contiguous_lookup (l : list Entry) (i : Z) (k : nat) (e : Entry) :
  contiguous_from i l = true -> l !! k = Some e -> Index e = i + Z.of_nat k.
Proof.
  revert i k. induction l as [|a l IH]; intros i k Hc Hk; [done|].
  simpl in Hc. apply andb_true_iff in Hc. destruct Hc as [Ha Hl].
  apply Z.eqb_eq in Ha. destruct k as [|k]; simpl in Hk.
  - injection Hk as <-. lia.
  - rewrite (IH _ _ Hl Hk). lia.
Qed.

Lemma contiguous_drop (l : list Entry) (i : Z) (k : nat) :
  contiguous_from i l = true -> contiguous_from (i + Z.of_nat k) (drop k l) = true.
Proof.
  revert i k. induction l as [|a l IH]; intros i k Hc.
  - by rewrite drop_nil.
  - destruct k as [|k].
    + rewrite drop_0. by replace (i + Z.of_nat 0) with i by lia.
    + simpl in Hc. apply andb_true_iff in Hc. destruct Hc as [_ Hl].
      cbn [drop]. replace (i + Z.of_nat (S k)) with ((i + 1) + Z.of_nat k) by lia.
      by apply IH.
Qed.

(** What well-formedness gives: the first entry, the run of the indices and
    the bounds that keep index arithmetic from wrapping. *)
Lemma wf_log_inv (l : list Entry) :
  wf_log l = true ->
  exists e0 l', l = e0 :: l'
    /\ contiguous_from (Index e0) l = true
    /\ int64 (Index e0)
    /\ int64 (Index e0 + Z.of_nat (length l) - 1)
    /\ Z.of_nat (length l) <= max_int64.
Proof.
  destruct l as [|e0 l']; [discriminate|]. unfold wf_log.
  rewrite !andb_true_iff, !int64b_spec, Z.leb_le. intros [[[H1 H2] H3] H4].
  exists e0, l'. auto.
Qed.

Lemma wf_log_last (l : list Entry) (e0 : Entry) :
  wf_log l = true -> head l = Some e0 ->
  exists el, last l = Some el /\ Index el = Index e0 + Z.of_nat (length l) - 1.
Proof.
  intros Hwf Hh. destruct (wf_log_inv l Hwf) as (e0' & l' & -> & Hc & _).
  simpl in Hh. injection Hh as ->.
  destruct (last (e0 :: l')) as [el|] eqn:El.
  - exists el. split; [done|]. rewrite last_lookup in El.
    rewrite (contiguous_lookup _ _ _ _ Hc El). cbn [length Nat.pred]. lia.
  - by apply last_None in El.
Qed.

(** [getLogEntry] on a well-formed log. *)
Lemma getLogEntry_wf (r : Raft) (e0 : Entry) (i : Z) :
  wf_log (log r) = true -> head (log r) = Some e0 ->
  (Index e0 <= i <= Index e0 + Z.of_nat (length (log r)) - 1 ->
     exists e, log r !! Z.to_nat (i - Index e0) = Some e /\ Index e = i
               /\ getLogEntry r i = Some (Some e, true))
  /\ (i < Index e0 \/ Index e0 + Z.of_nat (length (log r)) - 1 < i ->
        getLogEntry r i = Some (None, false)).
Proof.
  intros Hwf Hh.
  destruct (wf_log_last _ _ Hwf Hh) as (el & Hl & Hel).
  destruct (wf_log_inv _ Hwf) as (e0' & l' & El & Hc & H1 & H2 & H3).
  assert (e0' = e0) as -> by (rewrite El in Hh; simpl in Hh; congruence).
  unfold getLogEntry, getLogLen. rewrite getLastLogIndex_last, Hl, elem_first, Hh. simpl.
  assert (Hlen : 0 < Z.of_nat (length (log r))) by (rewrite El; cbn [length]; lia).
  destruct (Z.eqb_spec (Z.of_nat (length (log r))) 0) as [E|_]; [lia|].
  split.
  - intros Hi.
    destruct (Z.ltb_spec (Index el) i) as [?|_]; [lia|].
    destruct (Z.ltb_spec i (Index e0)) as [?|_]; [lia|]. simpl.
    rewrite wrap64_id by (unfold int64, min_int64, max_int64 in *; lia).
    destruct (lookup_lt_is_Some_2 (log r) (Z.to_nat (i - Index e0))) as [e He]; [lia|].
    exists e. split; [done|]. split.
    + rewrite (contiguous_lookup _ _ _ _ Hc He). lia.
    + replace (Go.elem (log r) (i - Index e0)) with (Some e); [done|].
      symmetry. apply elem_Some. split; [lia|done].
  - intros Hi.
    destruct (Z.ltb_spec (Index el) i) as [?|?]; [done|].
    destruct (Z.ltb_spec i (Index e0)) as [?|?]; [done|]. lia.
Qed.

Example getLogEntry_samples :
  getLogEntry Samples.compacted_at_1 0 = Some (None, false)
  /\ getLogEntry Samples.compacted_at_1 2
     = Some (Some (mkEntry 1 2 (Some (Samples.cmd_set "b" "2"))), true)
  /\ getLogEntry Samples.compacted_at_1 4 = Some (None, false)
  /\ getLogEntry (set_log Samples.boot []) 0 = Some (None, false).
Proof. split_and!; reflexivity. Qed.

(** C10: getLogEntry is total at the log-access interface.  On every log
    and index it returns without a panic the pair (nil, false) when the log
    is empty, when the index is below the index of the first entry and when
    it is above the index of the last entry; on a non-empty log with
    contiguous indices it returns (e, true) for every index between the
    first and the last, where [e] is the entry of the log whose Index field
    is that index. *)
Theorem getLogEntry_total (r : Raft) (i : Z) :
  (log r = [] -> getLogEntry r i = Some (None, false))
  /\ (forall e0 el, head (log r) = Some e0 -> last (log r) = Some el ->
        i < Index e0 \/ Index el < i -> getLogEntry r i = Some (None, false))
  /\ (forall e0 el, wf_log (log r) = true ->
        head (log r) = Some e0 -> last (log r) = Some el ->
        Index e0 <= i <= Index el ->
        exists e, getLogEntry r i = Some (Some e, true) /\ Index e = i /\ e ∈ log r).
Proof.
  split; [|split].
  - intros E. unfold getLogEntry, getLogLen. by rewrite E.
  - intros e0 el Hh Hl Hi. unfold getLogEntry, getLogLen.
    rewrite getLastLogIndex_last, Hl, elem_first, Hh. simpl.
    destruct (Z.of_nat (length (log r)) =? 0); [done|].
    destruct (Z.ltb_spec (Index el) i) as [?|?]; [done|].
    destruct (Z.ltb_spec i (Index e0)) as [?|?]; [done|]. lia.
  - intros e0 el Hwf Hh Hl Hi.
    destruct (wf_log_last _ _ Hwf Hh) as (el' & Hl' & Hel).
    assert (el' = el) as -> by congruence.
    destruct (proj1 (getLogEntry_wf r e0 i Hwf Hh)) as (e & He & Hidx & Hget); [lia|].
    exists e. repeat split; try done. by eapply list_elem_of_lookup_2.
Qed.

Lemma getEntryFrom_wf (r : Raft) (e0 : Entry) (i : Z) :
  wf_log (log r) = true -> head (log r) = Some e0 ->
  Index e0 <= i <= Index e0 + Z.of_nat (length (log r)) ->
  getEntryFrom r i = Some (drop (Z.to_nat (i - Index e0)) (log r)).
Proof.
  intros Hwf Hh Hi.
  destruct (wf_log_inv _ Hwf) as (e0' & l' & El & Hc & H1 & H2 & H3).
  assert (e0' = e0) as -> by (rewrite El in Hh; simpl in Hh; congruence).
  unfold getEntryFrom. rewrite elem_first, Hh. simpl.
  rewrite wrap64_id by (unfold int64, min_int64, max_int64 in *; lia).
  unfold Go.slice_from.
  destruct (Z.leb_spec 0 (i - Index e0)) as [_|?]; [|lia].
  destruct (Z.leb_spec (i - Index e0) (Z.of_nat (length (log r)))) as [_|?]; [|lia].
  reflexivity.
Qed.

Lemma contiguous_ge (l : list Entry) (f : Z) (e : Entry) :
  contiguous_from f l = true -> e ∈ l -> f <= Index e.
Proof.
  intros Hc He. apply list_elem_of_lookup in He as [k Hk].
  rewrite (contiguous_lookup _ _ _ _ Hc Hk). lia.
Qed.

Lemma log_suffix_all (l : list Entry) (i : Z) :
  (forall e, e ∈ l -> i <= Index e) -> log_suffix i l = l.
Proof.
  unfold log_suffix. induction l as [|a l IH]; intros H; [done|].
  rewrite filter_cons_True by (apply H; left).
  f_equal. apply IH. intros e He. apply H. by right.
Qed.

(** On a contiguous log, slicing at the position of index [i] keeps exactly
    the entries whose index is at least [i]. *)
Lemma drop_log_suffix (l : list Entry) (f i : Z) :
  contiguous_from f l = true -> f <= i ->
  drop (Z.to_nat (i - f)) l = log_suffix i l.
Proof.
  revert f. induction l as [|a l IH]; intros f Hc Hi.
  - by rewrite drop_nil.
  - pose proof Hc as Hc'. simpl in Hc. apply andb_true_iff in Hc. destruct Hc as [Ha Hl].
    apply Z.eqb_eq in Ha.
    destruct (decide (i = f)) as [->|Hne].
    + replace (f - f) with 0 by lia. rewrite drop_0. symmetry.
      apply log_suffix_all. intros e He.
      by apply (contiguous_ge _ _ _ Hc').
    + unfold log_suffix. rewrite filter_cons_False by lia.
      replace (Z.to_nat (i - f)) with (S (Z.to_nat (i - (f + 1)))) by lia.
      cbn [drop]. apply IH; [done|lia].
Qed.

Lemma wf_log_drop (l : list Entry) (e0 : Entry) (k : nat) :
  wf_log l = true -> head l = Some e0 -> (k < length l)%nat ->
  wf_log (drop k l) = true
  /\ exists e, l !! k = Some e /\ head (drop k l) = Some e /\ Index e = Index e0 + Z.of_nat k.
Proof.
  intros Hwf Hh Hk.
  destruct (wf_log_inv _ Hwf) as (e0' & l' & El & Hc & H1 & H2 & H3).
  assert (e0' = e0) as -> by (rewrite El in Hh; simpl in Hh; congruence).
  destruct (lookup_lt_is_Some_2 l k Hk) as [e He].
  pose proof (contiguous_lookup _ _ _ _ Hc He) as Hidx.
  assert (Hd : drop k l = e :: drop (S k) l) by (by apply drop_S).
  split.
  - pose proof (contiguous_drop _ _ k Hc) as Hcd.
    pose proof (length_drop l k) as Hlen.
    rewrite Hd in *. unfold wf_log.
    rewrite Hidx, Hcd. cbn [andb].
    rewrite !andb_true_iff, !int64b_spec, Z.leb_le.
    unfold int64, min_int64, max_int64 in *. lia.
  - exists e. rewrite Hd. auto.
Qed.

(** ** Compaction *)

(** The state after a compaction whose guard lets it through. *)
Lemma Compaction_through (r : Raft) (i : Z) (e0 : Entry) :
  wf_log (log r) = true -> head (log r) = Some e0 ->
  Index e0 <= i <= Index e0 + Z.of_nat (length (log r)) - 1 ->
  match lastSnapshotLogEntry r with
  | None => True
  | Some sn => Index sn < i /\ Index e0 < i
  end ->
  exists e,
    log r !! Z.to_nat (i - Index e0) = Some e /\ Index e = i
    /\ Compaction r i
       = Some (persist (set_log (set_lastSnapshotLogEntry r (Some e))
                                (drop (Z.to_nat (i - Index e0)) (log r)))).
Proof.
  intros Hwf Hh Hi Hg.
  destruct (proj1 (getLogEntry_wf r e0 i Hwf Hh) Hi) as (e & He & Hidx & Hget).
  exists e. split; [done|]. split; [done|].
  unfold Compaction. rewrite getFirstLogIndex_head, Hh. simpl.
  assert (Hguard : match lastSnapshotLogEntry r with
                   | Some sn => (Index sn <? i) && (Index e0 <? i)
                   | None => true
                   end = true).
  { destruct (lastSnapshotLogEntry r) as [sn|]; [|done].
    destruct Hg as [G1 G2]. apply andb_true_iff. split; by apply Z.ltb_lt. }
  rewrite Hguard, Hget. simpl.
  rewrite (getEntryFrom_wf (set_lastSnapshotLogEntry r (Some e)) e0 i) by (simpl; done || lia).
  reflexivity.
Qed.

(** C5 (as amended): on a server with a well-formed log that holds the entry
    [e] at index [S], with [S] greater than the index of the snapshot pointer
    (if there is one) and than the first log index, Compaction(S) returns;
    afterwards the first entry of the log is [e] itself, with its term, the
    index [S] and its command as they were (the command is not cleared), the
    log is the suffix of the old log from [S] on, so no entry with an
    earlier index is retained, the snapshot pointer is that first entry, and
    the new log has been persisted. *)
Theorem Compaction_first_entry (r : Raft) (S : Z) (e0 e : Entry) :
  wf_log (log r) = true ->
  head (log r) = Some e0 ->
  e ∈ log r -> Index e = S ->
  Index e0 < S ->
  (forall sn, lastSnapshotLogEntry r = Some sn -> Index sn < S) ->
  exists r',
    Compaction r S = Some r'
    /\ head (log r') = Some e
    /\ log r' = log_suffix S (log r)
    /\ (forall e', e' ∈ log r' -> S <= Index e')
    /\ lastSnapshotLogEntry r' = Some e
    /\ raft_state (persister r')
       = Some (mkRaftStateBlob (currentTerm r) (votedFor r) (log r'))
    /\ wf_log (log r') = true.
Proof.
  intros Hwf Hh He HS Hfirst Hsnap.
  destruct (wf_log_inv _ Hwf) as (e0' & l' & El & Hc & H1 & H2 & H3).
  assert (e0' = e0) as -> by (rewrite El in Hh; simpl in Hh; congruence).
  apply list_elem_of_lookup in He as [k Hk].
  pose proof (contiguous_lookup _ _ _ _ Hc Hk) as Hidx.
  pose proof (lookup_lt_Some _ _ _ Hk) as Hlt.
  destruct (Compaction_through r S e0 Hwf Hh) as (e' & He' & _ & Hcomp).
  { lia. }
  { destruct (lastSnapshotLogEntry r) as [sn|] eqn:Esn; [|done]. split; [by apply Hsnap|done]. }
  assert (Hk' : Z.to_nat (S - Index e0) = k) by lia.
  rewrite Hk' in *. assert (e' = e) as -> by congruence.
  destruct (wf_log_drop _ _ k Hwf Hh Hlt) as (Hwfd & e'' & He'' & Hhd & _).
  assert (e'' = e) as -> by congruence.
  eexists. split; [exact Hcomp|]. simpl.
  assert (Hsuf : drop k (log r) = log_suffix S (log r)).
  { rewrite <- Hk'. apply drop_log_suffix; [done|lia]. }
  repeat split; try done.
  intros x Hx. rewrite Hsuf in Hx. unfold log_suffix in Hx.
  by apply list_elem_of_filter in Hx as [? _].
Qed.

(** C5, a run: on the log (1,1,Set a) (1,2,Set b) (1,3,Set c) with the
    snapshot pointer at index 1, Compaction(2) succeeds. *)
Lemma Compaction_first_entry_witness :
  exists r',
    Compaction Samples.compacted_at_1 2 = Some r'
    /\ head (log r') = Some (mkEntry 1 2 (Some (Samples.cmd_set "b" "2")))
    /\ log r' = log_suffix 2 (log Samples.compacted_at_1)
    /\ (forall e', e' ∈ log r' -> 2 <= Index e')
    /\ lastSnapshotLogEntry r' = Some (mkEntry 1 2 (Some (Samples.cmd_set "b" "2")))
    /\ raft_state (persister r')
       = Some (mkRaftStateBlob (currentTerm Samples.compacted_at_1)
                 (votedFor Samples.compacted_at_1) (log r'))
    /\ wf_log (log r') = true.
Proof.
  apply (Compaction_first_entry Samples.compacted_at_1 2
           (mkEntry 1 1 (Some (Samples.cmd_set "a" "1")))
           (mkEntry 1 2 (Some (Samples.cmd_set "b" "2")))).
  - reflexivity.
  - reflexivity.
  - simpl. right. left.
  - reflexivity.
  - simpl. lia.
  - simpl. intros sn H. injection H as <-. simpl. lia.
Defined.

(** C5, counterexample: after that compaction the first entry of the log is
    at index 2 and still carries its Set command; its command is not nil. *)
Lemma Compaction_sentinel_keeps_command :
  exists r' e,
    Compaction Samples.compacted_at_1 2 = Some r'
    /\ head (log r') = Some e
    /\ Index e = 2
    /\ Cmd e = Some (Samples.cmd_set "b" "2")
    /\ Cmd e <> None.
Proof.
  eexists. exists (mkEntry 1 2 (Some (Samples.cmd_set "b" "2"))).
  split; [reflexivity|]. repeat split. discriminate.
Qed.

(** C6 (as amended): on a server with a well-formed log, for indices
    [j <= i] where [i] is at most the last log index, and at least the first
    log index when no snapshot has been taken yet, Compaction(i) returns and
    Compaction(j) after it is a no-op: it returns the very state Compaction(i)
    left, with the same log, snapshot pointer and persisted state. *)
Theorem Compaction_idempotent (r : Raft) (i j : Z) (e0 : Entry) :
  wf_log (log r) = true ->
  head (log r) = Some e0 ->
  j <= i ->
  i <= Index e0 + Z.of_nat (length (log r)) - 1 ->
  (Index e0 <= i \/ is_Some (lastSnapshotLogEntry r)) ->
  exists r1, Compaction r i = Some r1 /\ Compaction r1 j = Some r1.
Proof.
  intros Hwf Hh Hji Hlast Hfirst.
  assert (Hnoop : forall sn, lastSnapshotLogEntry r = Some sn ->
            (Index sn <? i) && (Index e0 <? i) = false ->
            exists r1, Compaction r i = Some r1 /\ Compaction r1 j = Some r1).
  { intros sn Esn Hg. exists r.
    assert (Hj : (Index sn <? j) && (Index e0 <? j) = false).
    { apply andb_false_iff in Hg. apply andb_false_iff.
      destruct Hg as [G|G]; apply Z.ltb_ge in G; [left|right]; apply Z.ltb_ge; lia. }
    unfold Compaction. rewrite getFirstLogIndex_head, Hh. simpl.
    rewrite Esn, Hg, Hj. done. }
  assert (Hthrough : Index e0 <= i ->
            match lastSnapshotLogEntry r with
            | None => True
            | Some sn => Index sn < i /\ Index e0 < i
            end ->
            exists r1, Compaction r i = Some r1 /\ Compaction r1 j = Some r1).
  { intros Hi Hg.
    destruct (Compaction_through r i e0 Hwf Hh) as (e & He & Hidx & Hcomp); [lia|done|].
    eexists. split; [exact Hcomp|].
    destruct (wf_log_drop _ _ (Z.to_nat (i - Index e0)) Hwf Hh) as (_ & e' & He' & Hhd & _); [lia|].
    assert (e' = e) as -> by congruence.
    unfold Compaction at 1. rewrite getFirstLogIndex_head. simpl. rewrite Hhd. simpl.
    destruct (Z.ltb_spec (Index e) j) as [?|_]; [lia|]. done. }
  destruct (lastSnapshotLogEntry r) as [sn|] eqn:Esn.
  - destruct ((Index sn <? i) && (Index e0 <? i)) eqn:Hg.
    + apply andb_true_iff in Hg. destruct Hg as [G1 G2].
      apply Z.ltb_lt in G1. apply Z.ltb_lt in G2. apply Hthrough; [lia|done].
    + by apply (Hnoop sn).
  - destruct Hfirst as [Hi|[x Hx]]; [|discriminate]. by apply Hthrough.
Qed.

(** C6, a run: compacting the sample log at 2 and then at 1. *)
Lemma Compaction_idempotent_witness :
  exists r1, Compaction Samples.compacted_at_1 2 = Some r1 /\ Compaction r1 1 = Some r1.
Proof.
  apply (Compaction_idempotent Samples.compacted_at_1 2 1
           (mkEntry 1 1 (Some (Samples.cmd_set "a" "1")))).
  - reflexivity.
  - reflexivity.
  - lia.
  - simpl. lia.
  - left. simpl. lia.
Defined.

(** C6, counterexample: on the boot log, whose last index is 0,
    Compaction(1) returns with an empty log and no snapshot pointer, and
    Compaction(0) after it panics on reading the first log index, so the
    second call does not leave the state as it was. *)
Lemma Compaction_past_the_log_then_panic :
  exists r1,
    Compaction Samples.boot 1 = Some r1
    /\ log r1 = []
    /\ lastSnapshotLogEntry r1 = None
    /\ Compaction r1 0 = None
    /\ Compaction r1 0 <> Some r1.
Proof.
  eexists. split; [reflexivity|]. repeat split. discriminate.
Qed.

(** ** Becoming leader *)

(** The loop over the peers of [leaderStatePrep]. *)
Lemma leaderStatePrep_loop (ps : list string) (index : Z) (r : Raft) :
  let r' := foldl (fun r peer =>
                     let r := set_nextIndex r (<[peer := index]> (nextIndex r)) in
                     set_matchIndex r (<[peer := 0]> (matchIndex r))) r ps in
  (forall p, p ∈ ps -> nextIndex r' !! p = Some index /\ matchIndex r' !! p = Some 0)
  /\ (forall p, p ∉ ps ->
        nextIndex r' !! p = nextIndex r !! p /\ matchIndex r' !! p = matchIndex r !! p)
  /\ clientsResponse r' = clientsResponse r
  /\ electionTimer r' = electionTimer r
  /\ heartBeatTimer r' = heartBeatTimer r
  /\ state r' = state r
  /\ leaderName r' = leaderName r.
Proof.
  revert r. induction ps as [|q ps IH]; intros r; simpl.
  - split; [intros p Hp; by apply elem_of_nil in Hp|done].
  - specialize (IH (set_matchIndex (set_nextIndex r (<[q := index]> (nextIndex r)))
                      (<[q := 0]> (matchIndex r)))).
    simpl in IH. destruct IH as (Hin & Hout & H1 & H2 & H3 & H4 & H5).
    split; [|split; [|done]].
    + intros p H.
      destruct (decide (p ∈ ps)) as [Hp|Hp]; [by apply Hin|].
      apply elem_of_cons in H as [->|?]; [|done].
      destruct (Hout q Hp) as [-> ->]. simpl. by rewrite !lookup_insert_eq.
    + intros p H. apply not_elem_of_cons in H as [Hne Hp].
      destruct (Hout p Hp) as [-> ->]. simpl. by rewrite !lookup_insert_ne.
Qed.

(** C8: on becoming Leader, with [el] the last entry of the log,
    leaderStatePrep sets, for every peer [p], nextIndex[p] to the index of
    [el] plus one (in int64 arithmetic) and matchIndex[p] to 0, and both
    tables hold nothing else; so matchIndex[p] < nextIndex[p] for every
    peer whenever the last log index is one of the data model (not
    negative, and not the largest int64).  The table of pending client
    replies is reset, the election timer is stopped and the heartbeat timer
    is started with 500 ms; the role is Leader and the known leader is the
    server itself. *)
Theorem leaderStatePrep_spec (r : Raft) (el : Entry) :
  last (log r) = Some el ->
  exists r',
    leaderStatePrep r = Some r'
    /\ (forall p, p ∈ peers r ->
          nextIndex r' !! p = Some (wrap64 (Index el + 1)) /\ matchIndex r' !! p = Some 0)
    /\ (forall p, p ∉ peers r -> nextIndex r' !! p = None /\ matchIndex r' !! p = None)
    /\ (0 <= Index el < max_int64 ->
        forall p, p ∈ peers r ->
          peer_get (nextIndex r') p = Index el + 1
          /\ peer_get (matchIndex r') p = 0
          /\ peer_get (matchIndex r') p < peer_get (nextIndex r') p)
    /\ clientsResponse r' = ∅
    /\ electionTimer r' = None
    /\ heartBeatTimer r' = Some (500 * Millisecond)
    /\ state r' = leader
    /\ leaderName r' = me r.
Proof.
  intros Hlast. unfold leaderStatePrep.
  match goal with
  | |- context [getLastLogIndex ?x] =>
      replace (getLastLogIndex x) with (Some (Index el))
        by (rewrite getLastLogIndex_last; cbn [log set_clientsResponse set_matchIndex
              set_nextIndex set_electionTimer set_heartBeatTimer set_leaderName set_state];
            by rewrite Hlast)
  end.
  simpl.
  match goal with
  | |- context [foldl ?f ?r0 ?ps] =>
      pose proof (leaderStatePrep_loop ps (wrap64 (Index el + 1)) r0) as H
  end.
  simpl in H. destruct H as (Hin & Hout & H1 & H2 & H3 & H4 & H5).
  eexists. split; [reflexivity|].
  split; [exact Hin|].
  split; [intros p Hp; destruct (Hout p Hp) as [-> ->]; by rewrite !lookup_empty|].
  split.
  - intros Hrange p Hp. destruct (Hin p Hp) as [Hn Hm].
    unfold peer_get. rewrite Hn, Hm. simpl.
    rewrite wrap64_id by (unfold int64, min_int64, max_int64 in *; lia). lia.
  - repeat split; done.
Qed.

(** C8, a run: a candidate with peers n1 and n2 whose log ends at index 3
    becomes leader; nextIndex is 4 and matchIndex is 0 for both peers, and
    a server that is not a peer has no entry in the tables. *)
Lemma leaderStatePrep_spec_witness :
  exists r',
    leaderStatePrep Samples.candidate_with_three_sets = Some r'
    /\ nextIndex r' !! "n1" = Some 4 /\ matchIndex r' !! "n1" = Some 0
    /\ nextIndex r' !! "n2" = Some 4 /\ matchIndex r' !! "n2" = Some 0
    /\ nextIndex r' !! "n0" = None
    /\ peer_get (matchIndex r') "n1" < peer_get (nextIndex r') "n1"
    /\ clientsResponse r' = ∅
    /\ heartBeatTimer r' = Some 500000000
    /\ state r' = leader.
Proof.
  destruct (leaderStatePrep_spec Samples.candidate_with_three_sets
              (mkEntry 1 3 (Some (Samples.cmd_set "c" "3"))) eq_refl)
    as (r' & Hrun & Hin & Hout & Hinv & Hcr & _ & Hhb & Hst & _).
  assert (P1 : "n1" ∈ peers Samples.candidate_with_three_sets) by (simpl; left).
  assert (P2 : "n2" ∈ peers Samples.candidate_with_three_sets) by (simpl; right; left).
  assert (P0 : "n0" ∉ peers Samples.candidate_with_three_sets).
  { simpl. rewrite !not_elem_of_cons. split_and!; [discriminate..|apply not_elem_of_nil]. }
  assert (Hr : 0 <= Index (mkEntry 1 3 (Some (Samples.cmd_set "c" "3"))) < max_int64)
    by (unfold max_int64; simpl; lia).
  exists r'. split; [exact Hrun|].
  destruct (Hin _ P1) as [N1 M1]. destruct (Hin _ P2) as [N2 M2].
  destruct (Hout _ P0) as [N0 _]. destruct (Hinv Hr _ P1) as (_ & _ & Hlt).
  split_and!; try done.
Defined.

(** ** Replication to a peer *)

Lemma getLogEntry_wf_returns (r : Raft) (e0 : Entry) (i : Z) :
  wf_log (log r) = true -> head (log r) = Some e0 ->
  exists res, getLogEntry r i = Some res.
Proof.
  intros Hwf Hh. destruct (getLogEntry_wf r e0 i Hwf Hh) as [Hin Hout].
  destruct (decide (Index e0 <= i <= Index e0 + Z.of_nat (length (log r)) - 1)) as [Hi|Hi].
  - destruct (Hin Hi) as (e & _ & _ & ->). eauto.
  - rewrite Hout by lia. eauto.
Qed.

Lemma log_suffix_nil (l : list Entry) (i : Z) :
  (forall e, e ∈ l -> Index e < i) -> log_suffix i l = [].
Proof.
  unfold log_suffix. induction l as [|a l IH]; intros H; [done|].
  rewrite filter_cons_False by (specialize (H a ltac:(left)); lia).
  apply IH. intros e He. apply H. by right.
Qed.

Lemma contiguous_le_last (l : list Entry) (f : Z) (e : Entry) :
  contiguous_from f l = true -> e ∈ l -> Index e <= f + Z.of_nat (length l) - 1.
Proof.
  intros Hc He. apply list_elem_of_lookup in He as [k Hk].
  rewrite (contiguous_lookup _ _ _ _ Hc Hk).
  apply lookup_lt_Some in Hk. lia.
Qed.

(** With prevLogIndex 0 the snapshot check is skipped; on a log that starts
    above index 1, slicing it from index 1 is then out of range. *)
Lemma sendApeendEntriesTo_slice_below_first (r : Raft) (p : string) (e0 : Entry) :
  wf_log (log r) = true ->
  head (log r) = Some e0 ->
  peer_get (nextIndex r) p = 1 ->
  1 < Index e0 ->
  sendApeendEntriesTo r p = None.
Proof.
  intros Hwf Hh Hn Hf.
  destruct (wf_log_last _ _ Hwf Hh) as (el & Hl & Hel).
  destruct (wf_log_inv _ Hwf) as (e0' & l' & El & Hc & H1 & H2 & H3).
  assert (e0' = e0) as -> by (rewrite El in Hh; simpl in Hh; congruence).
  unfold sendApeendEntriesTo. rewrite getLastLogIndex_last, Hl, Hn. simpl.
  change (wrap64 (1 - 1)) with 0. simpl. change (wrap64 (0 + 1)) with 1.
  destruct (Z.leb_spec 1 (Index el)) as [_|?]; [|lia]. simpl.
  destruct (getLogEntry_wf_returns r e0 1 Hwf Hh) as [res ->]. simpl.
  unfold getEntryFrom. rewrite elem_first, Hh. simpl.
  rewrite wrap64_id by (unfold int64, min_int64, max_int64 in *; lia).
  unfold Go.slice_from. destruct (Z.leb_spec 0 (1 - Index e0)) as [?|_]; [lia|].
  reflexivity.
Qed.

(** X25: replication to peer [p] on a leader with a well-formed log, case by
    case, with [next = nextIndex[p]], [prev = next - 1], [first] and [last]
    the first and last log index.
    - When [prev] is not 0 and the log has no entry at [prev] (compacted
      away, or beyond the end), the leader sends InstallSnapshot with its
      term, its name, the snapshot pointer and the current snapshot blob if
      it has a snapshot pointer, and panics on the nil pointer if it has
      none.
    - When [prev] is 0 or the log has the entry at [prev], and [next] is not
      below the first log index unless it is beyond the last, the leader
      sends AppendEntries with prevLogIndex [prev], prevLogTerm 0 when
      [prev] is 0 and the term of the entry at [prev] otherwise, its
      commitIndex, and as entries exactly the log suffix from [next] on
      (empty when [next > last], a heartbeat); the matchIndex computed for
      the response is [prev] + number of entries sent.
    - In the case that is left, [prev] is 0 and the log starts above index
      1, the call panics on the slice bound. *)
Theorem sendApeendEntriesTo_spec (r : Raft) (p : string) (e0 : Entry) :
  wf_log (log r) = true ->
  head (log r) = Some e0 ->
  int64 (peer_get (nextIndex r) p) ->
  int64 (peer_get (nextIndex r) p - 1) ->
  let next := peer_get (nextIndex r) p in
  let prev := next - 1 in
  let first := Index e0 in
  let last := Index e0 + Z.of_nat (length (log r)) - 1 in
  (prev <> 0 -> prev < first \/ last < prev ->
   match lastSnapshotLogEntry r with
   | Some sn =>
       sendApeendEntriesTo r p
       = Some (CallInstallSnapshot p
                 (mkInstallSnapshotArgs (currentTerm r) (me r) (Some sn)
                    (ReadSnapshot (persister r))))
   | None => sendApeendEntriesTo r p = None
   end)
  /\ (prev = 0 \/ first <= prev <= last -> last < next \/ first <= next ->
      exists args,
        sendApeendEntriesTo r p = Some (CallAppendEntries p args)
        /\ AE_Term args = currentTerm r
        /\ AE_LeaderID args = me r
        /\ AE_PrevLogIndex args = prev
        /\ (prev = 0 -> AE_PrevLogTerm args = 0)
        /\ (prev <> 0 ->
            exists e, e ∈ log r /\ Index e = prev /\ AE_PrevLogTerm args = Term e)
        /\ AE_LeaderCommit args = commitIndex r
        /\ AE_Entries args = log_suffix next (log r)
        /\ (last < next -> AE_Entries args = [])
        /\ forall r_then,
             resp_matchIndex (appendResponse r_then p args)
             = prev + Z.of_nat (length (AE_Entries args)))
  /\ (prev = 0 -> 1 < first -> sendApeendEntriesTo r p = None).
Proof.
  intros Hwf Hh Hnext Hprev next prev first last.
  destruct (wf_log_last _ _ Hwf Hh) as (el & Hl & Hel).
  destruct (wf_log_inv _ Hwf) as (e0' & l' & El & Hc & H1 & H2 & H3).
  assert (e0' = e0) as -> by (rewrite El in Hh; simpl in Hh; congruence).
  destruct (getLogEntry_wf r e0 prev Hwf Hh) as [Hin Hout].
  assert (Hwp : wrap64 (peer_get (nextIndex r) p - 1) = prev) by (by apply wrap64_id).
  assert (Hwn : wrap64 (prev + 1) = next).
  { replace (prev + 1) with next by (unfold prev; lia). by apply wrap64_id. }
  split; [|split].
  - intros Hnz Hout'. unfold sendApeendEntriesTo.
    rewrite getLastLogIndex_last, Hl. simpl. rewrite Hwp.
    destruct (Z.eqb_spec prev 0) as [?|_]; [done|]. simpl.
    rewrite (Hout Hout'). simpl. by destruct (lastSnapshotLogEntry r).
  - intros Hp Hn.
    assert (Hterm : exists t,
              (if negb (prev =? 0)
               then '(entry, ok) ← getLogEntry r prev;
                    if (ok : bool) then e ← entry; Some (Some (Term e)) else Some None
               else Some (Some 0)) = Some (Some t)
              /\ (prev = 0 -> t = 0)
              /\ (prev <> 0 -> exists e, e ∈ log r /\ Index e = prev /\ t = Term e)).
    { destruct (Z.eqb_spec prev 0) as [E0|N0]; simpl.
      - exists 0. split; [done|]. split; [done|]. intros ?; done.
      - destruct Hp as [?|Hp]; [done|].
        destruct (Hin Hp) as (e & He & Hidx & ->). simpl.
        exists (Term e). split; [done|]. split; [intros ?; done|].
        intros _. exists e. split; [by eapply list_elem_of_lookup_2|done]. }
    destruct Hterm as (t & Ht & Ht0 & Htn).
    unfold sendApeendEntriesTo.
    rewrite getLastLogIndex_last, Hl. simpl. rewrite Hwp, Ht. simpl. fold next.
    assert (Htags : forall entries,
              Z.of_nat (length entries) = (if decide (last < next) then 0 else last - prev) ->
              forall r_then,
                resp_matchIndex (appendResponse r_then p
                   (mkAppendEntriesArgs (currentTerm r) (me r) prev t (commitIndex r) entries))
                = prev + Z.of_nat (length entries)).
    { intros entries Hlen r_then. unfold appendResponse. simpl.
      apply wrap64_id. rewrite Hlen. unfold int64, min_int64, max_int64 in *.
      destruct (decide (last < next)); unfold last, prev, next in *; lia. }
    destruct (Z.leb_spec next (Index el)) as [Hle|Hgt]; simpl.
    + (* entries to send *)
      assert (Hfn : first <= next) by (destruct Hn as [?|?]; [unfold last in *; lia|done]).
      rewrite Hwn.
      destruct (getLogEntry_wf_returns r e0 next Hwf Hh) as [res ->]. simpl.
      rewrite (getEntryFrom_wf r e0 next Hwf Hh) by (unfold first in *; lia). simpl.
      eexists. split; [reflexivity|]. simpl.
      assert (Hsuf : drop (Z.to_nat (next - Index e0)) (log r) = log_suffix next (log r))
        by (by apply drop_log_suffix).
      split_and!; try done.
      * intros ?. unfold last in *. lia.
      * apply Htags. rewrite length_drop.
        destruct (decide (last < next)); unfold last, prev, first in *; lia.
    + (* heartbeat *)
      assert (Hnil : log_suffix next (log r) = []).
      { apply log_suffix_nil. intros e He.
        pose proof (contiguous_le_last _ _ _ Hc He). lia. }
      eexists. split; [reflexivity|]. simpl.
      split_and!; try done.
      intros r_then. refine (Htags [] _ r_then).
      simpl. destruct (decide (last < next)); unfold last in *; lia.
  - intros Hp0 Hf. apply (sendApeendEntriesTo_slice_below_first r p e0 Hwf Hh); [|done].
    unfold prev, next in Hp0. lia.
Qed.

(** X25, runs on the leader over the log (1,1) (1,2) (1,3): the peer n2,
    whose nextIndex is 4, is sent a heartbeat with prevLogIndex 3; the peer
    n1, whose nextIndex is 1, is sent the three entries with prevLogIndex 0
    and prevLogTerm 0, and the matchIndex of the response is 3. *)
Lemma sendApeendEntriesTo_spec_witness :
  (exists args,
     sendApeendEntriesTo Samples.leader_compacted_at_1 "n2" = Some (CallAppendEntries "n2" args)
     /\ AE_PrevLogIndex args = 3
     /\ AE_LeaderCommit args = 3
     /\ AE_Entries args = [])
  /\ (exists args,
        sendApeendEntriesTo Samples.leader_compacted_at_1 "n1" = Some (CallAppendEntries "n1" args)
        /\ AE_PrevLogIndex args = 0
        /\ AE_PrevLogTerm args = 0
        /\ AE_Entries args = log Samples.leader_compacted_at_1
        /\ resp_matchIndex (appendResponse Samples.leader_compacted_at_1 "n1" args) = 3).
Proof.
  assert (Hn2 : peer_get (nextIndex Samples.leader_compacted_at_1) "n2" = 4) by reflexivity.
  assert (Hn1 : peer_get (nextIndex Samples.leader_compacted_at_1) "n1" = 1) by reflexivity.
  split.
  - destruct (sendApeendEntriesTo_spec Samples.leader_compacted_at_1 "n2"
                (mkEntry 1 1 (Some (Samples.cmd_set "a" "1")))) as (_ & Happend & _).
    + reflexivity.
    + reflexivity.
    + rewrite Hn2. unfold int64, min_int64, max_int64. lia.
    + rewrite Hn2. unfold int64, min_int64, max_int64. lia.
    + destruct Happend as (args & Hsend & _ & _ & Hprev & _ & _ & Hcommit & _ & Hnil & _).
      * right. rewrite Hn2. simpl. lia.
      * left. rewrite Hn2. simpl. lia.
      * exists args. split; [exact Hsend|]. split; [rewrite Hprev, Hn2; reflexivity|].
        split; [exact Hcommit|]. apply Hnil. rewrite Hn2. simpl. lia.
  - destruct (sendApeendEntriesTo_spec Samples.leader_compacted_at_1 "n1"
                (mkEntry 1 1 (Some (Samples.cmd_set "a" "1")))) as (_ & Happend & _).
    + reflexivity.
    + reflexivity.
    + rewrite Hn1. unfold int64, min_int64, max_int64. lia.
    + rewrite Hn1. unfold int64, min_int64, max_int64. lia.
    + destruct Happend as (args & Hsend & _ & _ & Hprev & Hterm & _ & _ & Hent & _ & Htag).
      * left. rewrite Hn1. reflexivity.
      * right. rewrite Hn1. simpl. lia.
      * exists args. split; [exact Hsend|]. split; [rewrite Hprev, Hn1; reflexivity|].
        split; [apply Hterm; rewrite Hn1; reflexivity|].
        split; [rewrite Hent, Hn1; reflexivity|].
        rewrite Htag, Hent, Hn1. reflexivity.
Defined.

(** With prevLogIndex 0 the leader sends AppendEntries also when the entry
    at index 0 is no longer in its log: the leader over the log (1,1) (1,2)
    (1,3) has nextIndex 1 for the peer n1 and sends it AppendEntries with
    prevLogIndex 0, prevLogTerm 0 and its whole log, not InstallSnapshot. *)
Lemma sendApeendEntriesTo_prev_0_compacted :
  let r := Samples.leader_compacted_at_1 in
  peer_get (nextIndex r) "n1" - 1 = 0
  /\ getFirstLogIndex r = Some 1
  /\ getLogEntry r 0 = Some (None, false)
  /\ sendApeendEntriesTo r "n1"
     = Some (CallAppendEntries "n1" (mkAppendEntriesArgs 1 "n0" 0 0 3 (log r)))
  /\ forall args, sendApeendEntriesTo r "n1" <> Some (CallInstallSnapshot "n1" args).
Proof.
  assert (E : sendApeendEntriesTo Samples.leader_compacted_at_1 "n1"
              = Some (CallAppendEntries "n1"
                        (mkAppendEntriesArgs 1 "n0" 0 0 3 (log Samples.leader_compacted_at_1))))
    by (vm_compute; reflexivity).
  simpl. split_and!; try reflexivity; try exact E.
  intros args. rewrite E. discriminate.
Qed.

(** C7: a leader whose log has been compacted to start above index 1, and
    which holds the snapshot pointer, prepares replication to a peer [p]
    whose nextIndex is 1.  prevLogIndex is 0 and the entry at index 0 is no
    longer in the log, the case in which the peer is to be sent the
    snapshot.  Since prevLogIndex is 0 the check that sends InstallSnapshot
    is skipped; the second check, before the entries are collected, finds
    that the log has no entry at index 1 and does nothing about it; and
    collecting the entries from index 1 on slices the log below its first
    entry.  The call panics: the peer is sent neither InstallSnapshot nor
    AppendEntries. *)
Theorem sendApeendEntriesTo_panics_below_first (r : Raft) (p : string) (e0 sn : Entry) :
  wf_log (log r) = true ->
  head (log r) = Some e0 ->
  lastSnapshotLogEntry r = Some sn ->
  peer_get (nextIndex r) p = 1 ->
  1 < Index e0 ->
  let prevLogIndex := peer_get (nextIndex r) p - 1 in
  prevLogIndex = 0
  /\ getLogEntry r prevLogIndex = Some (None, false)
  /\ getLogEntry r (prevLogIndex + 1) = Some (None, false)
  /\ getEntryFrom r (prevLogIndex + 1) = None
  /\ sendApeendEntriesTo r p = None
  /\ sendApeendEntriesTo r p
     <> Some (CallInstallSnapshot p
               (mkInstallSnapshotArgs (currentTerm r) (me r) (Some sn)
                  (ReadSnapshot (persister r)))).
Proof.
  intros Hwf Hh Hsn Hn Hf prevLogIndex.
  assert (Hp : prevLogIndex = 0) by (unfold prevLogIndex; lia).
  pose proof (sendApeendEntriesTo_slice_below_first r p e0 Hwf Hh Hn Hf) as Hpanic.
  destruct (wf_log_inv _ Hwf) as (e0' & l' & El & Hc & H1 & H2 & H3).
  assert (e0' = e0) as -> by (rewrite El in Hh; simpl in Hh; congruence).
  rewrite Hp, Hpanic.
  split; [done|].
  split; [apply (getLogEntry_wf r e0 0 Hwf Hh); lia|].
  split; [apply (getLogEntry_wf r e0 (0 + 1) Hwf Hh); lia|].
  split; [|done].
  unfold getEntryFrom. rewrite elem_first, Hh. simpl.
  rewrite wrap64_id by (unfold int64, min_int64, max_int64 in *; lia).
  unfold Go.slice_from. destruct (Z.leb_spec 0 (0 + 1 - Index e0)) as [?|_]; [lia|].
  reflexivity.
Qed.

(** C7, a run: the leader whose log was compacted at index 30 and whose
    peer n1 still has nextIndex 1 panics on replicating to n1. *)
Lemma sendApeendEntriesTo_panics_below_first_witness :
  getFirstLogIndex Samples.leader_compacted_at_30 = Some 30
  /\ lastSnapshotLogEntry Samples.leader_compacted_at_30
     = Some (mkEntry 1 30 (Some (Samples.cmd_set "k" "v")))
  /\ peer_get (nextIndex Samples.leader_compacted_at_30) "n1" = 1
  /\ getLogEntry Samples.leader_compacted_at_30 0 = Some (None, false)
  /\ sendApeendEntriesTo Samples.leader_compacted_at_30 "n1" = None.
Proof.
  destruct (sendApeendEntriesTo_panics_below_first Samples.leader_compacted_at_30 "n1"
              (mkEntry 1 30 (Some (Samples.cmd_set "k" "v")))
              (mkEntry 1 30 (Some (Samples.cmd_set "k" "v"))))
    as (_ & Hget & _ & _ & Hpanic & _).
  - reflexivity.
  - reflexivity.
  - reflexivity.
  - reflexivity.
  - simpl. lia.
  - split_and!; [reflexivity|reflexivity|reflexivity|exact Hget|exact Hpanic].
Defined.

(** How a leader gets there: elected on the boot log, it has nextIndex 1 for
    both peers; thirty Set commands are appended and committed with the
    help of the peer n2 while the peer n1 is out of reach, so that
    nextIndex[n1] is still 1 and replication to n1 sends it the thirty
    entries.  The pump applies the thirty entries and, the log having
    reached the compaction limit, compacts it at index 30.  The next
    replication round sends n2 a heartbeat and panics on n1; so does the
    same round on the smaller log (1,2) (1,3). *)
Lemma sendApeendEntriesTo_panics_after_compaction :
  (exists args,
     sendApeendEntriesTo Samples.leader_with_peer_out_of_reach "n1"
     = Some (CallAppendEntries "n1" args)
     /\ AE_PrevLogIndex args = 0 /\ length (AE_Entries args) = 30%nat)
  /\ (exists done,
        ProcessLogs (fun _ => true) 30 Samples.leader_with_peer_out_of_reach (mkKVStore ∅)
        = Returned (Samples.leader_compacted_at_30, mkKVStore {[ "k" := "v" ]}, done))
  /\ sendApeendEntriesTo Samples.leader_compacted_at_30 "n2"
     = Some (CallAppendEntries "n2" (mkAppendEntriesArgs 1 "n0" 30 1 30 []))
  /\ sendApeendEntriesTo Samples.leader_compacted_at_30 "n1" = None
  /\ sendApeendEntriesTo Samples.leader_compacted_at_2 "n1" = None.
Proof.
  split_and!.
  - eexists. split; [vm_compute; reflexivity|]. split; reflexivity.
  - eexists. vm_compute. reflexivity.
  - vm_compute. reflexivity.
  - vm_compute. reflexivity.
  - vm_compute. reflexivity.
Qed.

(** The tag [requestTerm] of a response is read from [r.currentTerm] by the
    worker goroutine when it posts the response, not when the request is
    built: a heartbeat of term 1 whose response is posted after the server
    has moved on to term 2 is tagged with term 2. *)
Lemma appendResponse_requestTerm_read_late :
  exists args,
    sendApeendEntriesTo Samples.leader_compacted_at_1 "n2" = Some (CallAppendEntries "n2" args)
    /\ AE_Term args = 1
    /\ resp_requestTerm
         (appendResponse (set_currentTerm Samples.leader_compacted_at_1 2) "n2" args) = 2.
Proof. eexists. split; [vm_compute; reflexivity|]. split; reflexivity. Qed.

(** ** The apply pump *)

Section ApplyPumpProofs.

Variable receiving : chan -> bool.

(** One turn of the loop that applies the entry [e]. *)
Lemma ProcessLogs_loop_step (fuel : nat) (r : Raft) (s s' : KVStore)
    (done : list Applied) (e : Entry) (c : Command) (d : Dispatch) :
  lastApplied r < commitIndex r ->
  getLogEntry (set_lastApplied r (wrap64 (lastApplied r + 1))) (wrap64 (lastApplied r + 1))
  = Some (Some e, true) ->
  Cmd e = Some c ->
  HandleCommand receiving s (mkInput c (sink_for r e)) = Returned (s', d) ->
  ProcessLogs_loop receiving (S fuel) r s done
  = ProcessLogs_loop receiving fuel
      (set_clientsResponse (set_lastApplied r (wrap64 (lastApplied r + 1)))
         (delete (Index e) (clientsResponse r)))
      s' (done ++ [mkApplied e (mkInput c (sink_for r e)) d])%list.
Proof.
  intros Hlt Hget Hcmd Hh. cbn [ProcessLogs_loop].
  destruct (Z.ltb_spec (lastApplied r) (commitIndex r)) as [_|?]; [|lia].
  cbn [lastApplied set_lastApplied]. rewrite Hget, Hcmd.
  unfold sink_for in Hh. cbn [state clientsResponse set_lastApplied]. rewrite Hh.
  reflexivity.
Qed.

Lemma ProcessLogs_loop_spec (n : nat) :
  forall (fuel : nat) (r : Raft) (s : KVStore) (done : list Applied) (e0 : Entry),
    wf_log (log r) = true ->
    head (log r) = Some e0 ->
    Index e0 <= lastApplied r + 1 ->
    lastApplied r <= commitIndex r ->
    commitIndex r <= Index e0 + Z.of_nat (length (log r)) - 1 ->
    (forall e, e ∈ log r -> lastApplied r < Index e <= commitIndex r ->
               exists c, Cmd e = Some c /\ applicable c = true) ->
    n = Z.to_nat (commitIndex r - lastApplied r) ->
    (n <= fuel)%nat ->
    exists r' s' new,
      ProcessLogs_loop receiving fuel r s done = Returned (r', s', (done ++ new)%list)
      /\ r' = set_clientsResponse (set_lastApplied r (commitIndex r)) (clientsResponse r')
      /\ map (fun a => Index (applied_entry a)) new
         = seqZ (lastApplied r + 1) (commitIndex r - lastApplied r)
      /\ Forall (applied_from r) new
      /\ (forall i, clientsResponse r' !! i
                    = if decide (lastApplied r < i <= commitIndex r) then None
                      else clientsResponse r !! i).
Proof.
  induction n as [|n IH]; intros fuel r s done e0 Hwf Hh Hfirst Hle Hlast Hcmds Hn Hfuel.
  - assert (E : lastApplied r = commitIndex r) by lia.
    exists r, s, []. rewrite app_nil_r.
    split.
    { destruct fuel; cbn [ProcessLogs_loop];
        destruct (Z.ltb_spec (lastApplied r) (commitIndex r)); (lia || done). }
    split; [rewrite <- E; by destruct r|].
    split; [by rewrite E, Z.sub_diag|].
    split; [constructor|].
    intros i. destruct (decide _); [lia|done].
  - assert (Hlt : lastApplied r < commitIndex r) by lia.
    destruct fuel as [|fuel]; [lia|].
    destruct (wf_log_inv _ Hwf) as (e0' & l' & El & Hc & H1 & H2 & H3).
    assert (e0' = e0) as -> by (rewrite El in Hh; simpl in Hh; congruence).
    assert (Hw : wrap64 (lastApplied r + 1) = lastApplied r + 1).
    { apply wrap64_id. unfold int64, min_int64, max_int64 in *. lia. }
    destruct (proj1 (getLogEntry_wf (set_lastApplied r (lastApplied r + 1)) e0
                       (lastApplied r + 1) Hwf Hh)) as (e & He & Hidx & Hget).
    { cbn [log set_lastApplied]. lia. }
    cbn [log set_lastApplied] in He.
    assert (Hin : e ∈ log r) by (by eapply list_elem_of_lookup_2).
    destruct (Hcmds e Hin) as (c & Hcmd & Happ); [lia|].
    destruct (HandleCommand_applicable_returns receiving s c (sink_for r e) Happ)
      as (s1 & d & Hhandle).
    rewrite (ProcessLogs_loop_step fuel r s s1 done e c d Hlt) by (rewrite ?Hw; done).
    rewrite Hw, Hidx.
    set (r2 := set_clientsResponse (set_lastApplied r (lastApplied r + 1))
                 (delete (lastApplied r + 1) (clientsResponse r))).
    destruct (IH fuel r2 s1 (done ++ [mkApplied e (mkInput c (sink_for r e)) d])%list e0)
      as (r' & s' & new & Hrun & Hframe & Hidxs & Hall & Hcr).
    all: try (subst r2; cbn [log lastApplied commitIndex set_clientsResponse set_lastApplied];
              first [done | lia]).
    { subst r2. cbn [log lastApplied commitIndex set_clientsResponse set_lastApplied].
      intros x Hx Hr. apply Hcmds; [done|lia]. }
    exists r', s', (mkApplied e (mkInput c (sink_for r e)) d :: new).
    split; [rewrite Hrun; f_equal; f_equal; by rewrite <- app_assoc|].
    split; [rewrite Hframe at 1; subst r2; by destruct r|].
    split.
    { cbn [map applied_entry]. rewrite Hidxs.
      subst r2. cbn [lastApplied commitIndex set_clientsResponse set_lastApplied].
      rewrite Hidx.
      rewrite (seqZ_cons (lastApplied r + 1) (commitIndex r - lastApplied r)) by lia.
      f_equal. f_equal; lia. }
    split.
    { constructor.
      - split; [done|]. cbn [applied_entry applied_op command response].
        split; [lia|]. split; done.
      - eapply Forall_impl; [exact Hall|].
        intros a (Ha1 & Ha2 & Ha3 & Ha4). subst r2.
        cbn [log lastApplied commitIndex set_clientsResponse set_lastApplied] in *.
        split; [exact Ha1|]. split; [lia|]. split; [exact Ha3|].
        rewrite Ha4. unfold sink_for.
        cbn [state clientsResponse set_clientsResponse set_lastApplied].
        destruct (state r =? leader); [|done].
        apply lookup_delete_ne. lia. }
    intros i. rewrite Hcr. subst r2.
    cbn [log lastApplied commitIndex clientsResponse set_clientsResponse set_lastApplied].
    destruct (decide (lastApplied r + 1 < i <= commitIndex r));
      destruct (decide (lastApplied r < i <= commitIndex r)); try done; try lia.
    + destruct (decide (i = lastApplied r + 1)) as [->|Hne].
      * apply lookup_delete_eq.
      * lia.
    + apply lookup_delete_ne. lia.
Qed.

End ApplyPumpProofs.

(** Compaction touches the log, the snapshot pointer and the persister
    only. *)
Lemma Compaction_frame (r r' : Raft) (i : Z) :
  Compaction r i = Some r' ->
  lastApplied r' = lastApplied r
  /\ commitIndex r' = commitIndex r
  /\ clientsResponse r' = clientsResponse r
  /\ state r' = state r.
Proof.
  unfold Compaction.
  destruct (getFirstLogIndex r) as [first|]; [|discriminate]. simpl.
  destruct (match lastSnapshotLogEntry r with
            | Some sn => (Index sn <? i) && (first <? i)
            | None => true
            end).
  - destruct (getLogEntry r i) as [[entry ok]|]; [|discriminate]. simpl.
    destruct (getEntryFrom _ i) as [l|]; [|discriminate]. simpl.
    intros [= <-]. done.
  - intros [= <-]. done.
Qed.

Lemma Compaction_returns (r : Raft) (i : Z) (e0 : Entry) :
  wf_log (log r) = true -> head (log r) = Some e0 ->
  Index e0 <= i <= Index e0 + Z.of_nat (length (log r)) - 1 ->
  exists r', Compaction r i = Some r'.
Proof.
  intros Hwf Hh Hi.
  destruct (lastSnapshotLogEntry r) as [sn|] eqn:Esn.
  - destruct ((Index sn <? i) && (Index e0 <? i)) eqn:Hg.
    + apply andb_true_iff in Hg. destruct Hg as [G1 G2].
      apply Z.ltb_lt in G1. apply Z.ltb_lt in G2.
      destruct (Compaction_through r i e0 Hwf Hh Hi) as (e & _ & _ & ->); [by rewrite Esn|].
      eauto.
    + exists r. unfold Compaction. rewrite getFirstLogIndex_head, Hh. simpl.
      by rewrite Esn, Hg.
  - destruct (Compaction_through r i e0 Hwf Hh Hi) as (e & _ & _ & ->); [by rewrite Esn|].
    eauto.
Qed.

(** C4: a leader with lastApplied = 0 and commitIndex = 2 = last log
    index, whose entry 1 is a committed ChangeConfiguration command and
    whose entry 2 is a Set.  The pump hands entry 1 to the state machine,
    whose switch has no case for ChangeConfiguration: it offers a blank
    result to the sink stored under index 1 and ends the process.  The
    entries 1 and 2 were to be applied and lastApplied to reach 2; instead
    the process is gone with lastApplied = 1, entry 2 is never applied, the
    sink of entry 1 is still stored, and ProcessLogs returns for no loop
    budget. *)
Lemma ProcessLogs_exits_on_ChangeConfiguration :
  let r := Samples.leader_with_config_change in
  wf_log (log r) = true
  /\ lastApplied r <= commitIndex r
  /\ getLastLogIndex r = Some (commitIndex r)
  /\ ProcessLogs (fun _ => true) 2 r (mkKVStore ∅)
     = Exited (set_lastApplied r 1, mkKVStore ∅,
               [mkApplied (mkEntry 1 1 (Some (Samples.cmd_config_chg "n0,n1,n2" "n0,n1")))
                  (mkInput (Samples.cmd_config_chg "n0,n1,n2" "n0,n1") (Some 7%nat))
                  (Sent 7%nat Result_blank)])
  /\ forall fuel r' s' done,
       ProcessLogs (fun _ => true) fuel r (mkKVStore ∅) <> Returned (r', s', done).
Proof.
  split_and!.
  - reflexivity.
  - simpl. lia.
  - reflexivity.
  - vm_compute. reflexivity.
  - intros fuel r' s' done. destruct fuel as [|fuel].
    + vm_compute. discriminate.
    + assert (E : ProcessLogs (fun _ => true) (S fuel) Samples.leader_with_config_change
                    (mkKVStore ∅)
                  = Exited (set_lastApplied Samples.leader_with_config_change 1, mkKVStore ∅,
                       [mkApplied (mkEntry 1 1 (Some (Samples.cmd_config_chg "n0,n1,n2" "n0,n1")))
                          (mkInput (Samples.cmd_config_chg "n0,n1,n2" "n0,n1") (Some 7%nat))
                          (Sent 7%nat Result_blank)])).
      { unfold ProcessLogs. cbn [ProcessLogs_loop]. vm_compute. reflexivity. }
      rewrite E. discriminate.
Qed.

(** Where the range of indices to apply reaches an entry without a command
    (here the sentinel of a snapshot, at index 5, on a server whose
    lastApplied is 4), the pump panics on dereferencing the nil command. *)
Lemma ProcessLogs_panics_on_nil_command :
  ProcessLogs (fun _ => true) 2 Samples.behind_the_sentinel (mkKVStore ∅) = Panicked.
Proof. vm_compute. reflexivity. Qed.

(** * Further properties of the state machine *)

Local Open Scope string_scope.

Lemma HandleCommand_dispatch (receiving : chan -> bool) (s : KVStore) (op : InputChannelType) :
  HandleCommand receiving s op
  = match dispatch_op s (command op) with
    | None => Panicked
    | Some (s', result, true) => Exited (s', select_send receiving (response op) result)
    | Some (s', result, false) => Returned (s', select_send receiving (response op) result)
    end.
Proof.
  unfold HandleCommand. destruct (dispatch_op s (command op)) as [[[s' res] []]|]; reflexivity.
Qed.

Lemma dispatch_op_applicable (s : KVStore) (c : Command) :
  applicable c = true <-> exists s' res, dispatch_op s c = Some (s', res, false).
Proof.
  destruct c as [op arg]. unfold applicable, dispatch_op. cbn [Operation].
  switch_on op.
  - rewrite bool_decide_eq_true. split.
    + intros [k Hk]. rewrite Hk. simpl. eauto.
    + intros (s' & res & H). destruct (GetGet _); [eauto|discriminate].
  - rewrite bool_decide_eq_true. split.
    + intros [k Hk]. rewrite Hk. simpl. eauto.
    + intros (s' & res & H). destruct (GetSet _); [eauto|discriminate].
  - split; [eauto|done].
  - destruct (GetCas _) as [a|]; simpl.
    + rewrite andb_true_iff, !bool_decide_eq_true. split.
      * intros [[x Hx] [y Hy]]. rewrite Hx, Hy. simpl.
        unfold CasInternal. destruct (decide _); eauto.
      * intros (s' & res & H).
        destruct (CASArg_kv a); [|discriminate].
        destruct (CASArg_value a); [|discriminate]. eauto.
    + split; [discriminate|]. intros (s' & res & H). discriminate.
  - split; [discriminate|]. intros (s' & res & H). discriminate.
Qed.

(** The [default] branch is taken by the operations that are none of the
    four cases of the switch: ChangeConfiguration, and every number that
    the enum does not name. *)
Lemma dispatch_op_unrecognized (s s' : KVStore) (c : Command) (res : Result) :
  dispatch_op s c = Some (s', res, true)
  <-> (Operation c ∉ [Op_GET; Op_SET; Op_CLEAR; Op_CAS]) /\ s' = s /\ res = Result_blank.
Proof.
  destruct c as [op arg]. unfold dispatch_op. cbn [Operation].
  rewrite !not_elem_of_cons.
  switch_on op.
  1-4: split; [|intros [(? & ? & ? & ? & _) _]; congruence].
  - destruct (GetGet _); simpl; [unfold GetInternal|]; discriminate.
  - destruct (GetSet _); simpl; [unfold SetInternal|]; discriminate.
  - unfold ClearInternal. discriminate.
  - destruct (GetCas _) as [[[?|] [?|]]|]; simpl; discriminate.
  - split.
    + intros [= <- <-]. split; [|done]. split_and!; try done. apply not_elem_of_nil.
    + intros (_ & -> & ->). done.
Qed.

(** X1: how HandleCommand ends is decided by the command alone.  It returns
    exactly for a Get, Set, Clear or CompareAndSet command that carries the
    payload of its kind; it ends the process exactly for a command whose
    operation is none of these four, which is the case of
    ChangeConfiguration and of every operation number that the enum does
    not name; and it panics exactly for a Get, Set or CompareAndSet command
    whose payload is missing or of another kind. *)
Theorem HandleCommand_outcome
    (receiving : chan -> bool) (s : KVStore) (c : Command) (sink : option chan) :
  (applicable c = true
   <-> exists s' d, HandleCommand receiving s (mkInput c sink) = Returned (s', d))
  /\ (Operation c ∉ [Op_GET; Op_SET; Op_CLEAR; Op_CAS]
      <-> exists s' d, HandleCommand receiving s (mkInput c sink) = Exited (s', d))
  /\ (Operation c = Op_CONFIG_CHG \/ Operation c < Op_GET \/ Op_CONFIG_CHG < Operation c
      <-> Operation c ∉ [Op_GET; Op_SET; Op_CLEAR; Op_CAS])
  /\ (applicable c = false /\ (Operation c ∈ [Op_GET; Op_SET; Op_CAS])
      <-> HandleCommand receiving s (mkInput c sink) = Panicked)
  /\ HandleCommand receiving s (mkInput c sink) <> OutOfFuel.
Proof.
  rewrite HandleCommand_dispatch. cbn [command response].
  pose proof (dispatch_op_applicable s c) as Happ.
  pose proof (fun s' res => dispatch_op_unrecognized s s' c res) as Hexit.
  assert (Hnum : Operation c = Op_CONFIG_CHG \/ Operation c < Op_GET
                 \/ Op_CONFIG_CHG < Operation c
                 <-> Operation c ∉ [Op_GET; Op_SET; Op_CLEAR; Op_CAS]).
  { rewrite !not_elem_of_cons. unfold Op_GET, Op_SET, Op_CLEAR, Op_CAS, Op_CONFIG_CHG.
    split; [intros H; split_and!; try lia; apply not_elem_of_nil|].
    intros (? & ? & ? & ? & _). lia. }
  assert (Hclear : Operation c = Op_CLEAR -> applicable c = true).
  { intros E. unfold applicable. rewrite E. reflexivity. }
  assert (Hin : Operation c ∈ [Op_GET; Op_SET; Op_CAS]
                <-> (Operation c ∈ [Op_GET; Op_SET; Op_CLEAR; Op_CAS])
                    /\ Operation c <> Op_CLEAR).
  { rewrite !elem_of_cons. unfold Op_GET, Op_SET, Op_CLEAR, Op_CAS.
    pose proof (not_elem_of_nil (Operation c)). intuition lia. }
  destruct (dispatch_op s c) as [[[s1 res1] exits]|] eqn:E.
  - destruct exits.
    + destruct (proj1 (Hexit s1 res1) eq_refl) as (Hop & -> & ->).
      assert (Hna : applicable c = false).
      { destruct (applicable c) eqn:Ea; [|done].
        destruct (proj1 Happ eq_refl) as (? & ? & ?). discriminate. }
      split_and!.
      * rewrite Hna. split; [discriminate|]. intros (? & ? & ?). discriminate.
      * split; eauto.
      * exact Hnum.
      * split; [|discriminate]. intros [_ H]. apply Hin in H. tauto.
      * discriminate.
    + assert (Ha : applicable c = true) by (apply Happ; eauto).
      split_and!.
      * split; eauto.
      * split; [|intros (? & ? & ?); discriminate].
        intros Hop.
        pose proof (proj2 (Hexit s Result_blank) (conj Hop (conj eq_refl eq_refl))).
        discriminate.
      * exact Hnum.
      * rewrite Ha. split; [intros [? _]; discriminate|discriminate].
      * discriminate.
  - assert (Hna : applicable c = false).
    { destruct (applicable c) eqn:Ea; [|done].
      destruct (proj1 Happ eq_refl) as (? & ? & ?). discriminate. }
    assert (Hop : Operation c ∈ [Op_GET; Op_SET; Op_CLEAR; Op_CAS]).
    { destruct (decide (Operation c ∈ [Op_GET; Op_SET; Op_CLEAR; Op_CAS])) as [?|Hn]; [done|].
      pose proof (proj2 (Hexit s Result_blank) (conj Hn (conj eq_refl eq_refl))).
      discriminate. }
    split_and!.
    + rewrite Hna. split; [discriminate|]. intros (? & ? & ?). discriminate.
    + split; [done|]. intros (? & ? & ?). discriminate.
    + exact Hnum.
    + split; [done|]. intros _. split; [done|]. apply Hin. split; [done|].
      intros Hc. rewrite (Hclear Hc) in Hna. discriminate.
    + discriminate.
Qed.

(** X2: a Set request is applied by assigning the key and replying the
    pair; a Get request applied after it leaves the store as it is and
    replies the value just set for that key and, for any other key, the
    value the key had before the Set (the empty string when it had none). *)
Theorem Set_then_Get
    (receiving : chan -> bool) (s : KVStore) (kv : KeyValue) (k : string) (c1 c2 : chan) :
  exists s1,
    HandleCommand receiving s (Set' kv c1)
    = Returned (s1, select_send receiving (Some c1) (Result_Kv kv))
    /\ store s1 = <[KeyValue_key kv := KeyValue_value kv]> (store s)
    /\ HandleCommand receiving s1 (Get (mkKey k) c2)
       = Returned (s1, select_send receiving (Some c2)
                         (Result_Kv (mkKeyValue k
                            (if decide (k = KeyValue_key kv) then KeyValue_value kv
                             else map_get (store s) k)))).
Proof.
  destruct kv as [key v]. eexists. split; [reflexivity|]. split; [reflexivity|].
  rewrite HandleCommand_dispatch. cbn. unfold GetInternal. cbn.
  do 4 f_equal. unfold map_get. destruct (decide (k = key)) as [->|Hne].
  - by rewrite lookup_insert_eq.
  - by rewrite lookup_insert_ne.
Qed.

(** X3: a Clear request empties the store and replies Success.  Afterwards
    every key reads as the empty string, and since an absent key compares
    as the empty string, a CompareAndSet that expects the empty string
    assigns its new value. *)
Theorem Clear_then_Get_and_CAS
    (receiving : chan -> bool) (s : KVStore) (k vn : string) (c1 c2 : chan) :
  HandleCommand receiving s (Clear c1)
  = Returned (mkKVStore ∅, select_send receiving (Some c1) Result_S)
  /\ HandleCommand receiving (mkKVStore ∅) (Get (mkKey k) c2)
     = Returned (mkKVStore ∅, select_send receiving (Some c2) (Result_Kv (mkKeyValue k "")))
  /\ HandleCommand receiving (mkKVStore ∅)
       (CAS (mkCASArg (Some (mkKeyValue k "")) (Some (mkValue vn))) c2)
     = Returned (mkKVStore {[ k := vn ]},
                 select_send receiving (Some c2) (Result_Kv (mkKeyValue k vn))).
Proof.
  split_and!; reflexivity.
Qed.

Lemma dispatch_op_twice (s s1 : KVStore) (c : Command) (res : Result) :
  dispatch_op s c = Some (s1, res, false) -> dispatch_op s1 c = Some (s1, res, false).
Proof.
  destruct c as [op arg]. unfold dispatch_op. cbn [Operation]. switch_on op.
  - destruct (GetGet _) as [k|]; [|discriminate]. simpl.
    unfold GetInternal. intros [= <- <-]. done.
  - destruct (GetSet _) as [kv|]; [|discriminate]. simpl.
    unfold SetInternal. intros [= <- <-]. simpl. by rewrite insert_insert_eq.
  - unfold ClearInternal. intros [= <- <-]. done.
  - destruct (GetCas _) as [a|]; [|discriminate]. simpl.
    destruct (CASArg_kv a) as [akv|]; [|discriminate]. simpl.
    destruct (CASArg_value a) as [av|]; [|discriminate]. simpl.
    destruct akv as [k v]. destruct av as [vn]. simpl.
    unfold CasInternal. destruct (decide (map_get (store s) k = v)) as [E|N].
    + intros [= <- <-]. simpl.
      assert (Hk : map_get (<[k:=vn]> (store s)) k = vn)
        by (unfold map_get; by rewrite lookup_insert_eq).
      rewrite Hk. destruct (decide (vn = v)); [|done]. by rewrite insert_insert_eq.
    + intros [= <- <-]. destruct (decide _); done.
  - discriminate.
Qed.

(** X4: applying a command a second time changes nothing.  If HandleCommand
    returns on a store, then handling the same operation again on the store
    it left returns that store once more, with the same reply: a Set or
    CompareAndSet that a client retries is applied harmlessly. *)
Theorem HandleCommand_twice
    (receiving : chan -> bool) (s s1 : KVStore) (op : InputChannelType) (d : Dispatch) :
  HandleCommand receiving s op = Returned (s1, d) ->
  HandleCommand receiving s1 op = Returned (s1, d).
Proof.
  rewrite !HandleCommand_dispatch.
  destruct (dispatch_op s (command op)) as [[[s' res] []]|] eqn:E; try discriminate.
  intros [= <- <-]. by rewrite (dispatch_op_twice _ _ _ _ E).
Qed.

(** X4, a run: CompareAndSet((x, A), B) on a store where x holds A. *)
Lemma HandleCommand_twice_witness :
  HandleCommand (fun _ => true) (mkKVStore {[ "x" := "B" ]})
    (CAS (mkCASArg (Some (mkKeyValue "x" "A")) (Some (mkValue "B"))) 7%nat)
  = Returned (mkKVStore {[ "x" := "B" ]}, Sent 7%nat (Result_Kv (mkKeyValue "x" "B"))).
Proof.
  apply (HandleCommand_twice (fun _ => true) (mkKVStore {[ "x" := "A" ]})).
  vm_compute. reflexivity.
Defined.

(** X5: what is applied does not depend on who listens.  For two reply
    sinks and two states of the receivers, HandleCommand ends the same way,
    leaves the same store and computes the same result; the result is sent
    exactly when the sink is a channel with a waiting receiver, and is
    dropped otherwise. *)
Theorem HandleCommand_sink_independent
    (receiving receiving' : chan -> bool) (s : KVStore) (c : Command)
    (sink sink' : option chan) :
  match HandleCommand receiving s (mkInput c sink),
        HandleCommand receiving' s (mkInput c sink') with
  | Returned (s1, d1), Returned (s2, d2)
  | Exited (s1, d1), Exited (s2, d2) =>
      s1 = s2 /\ result_of d1 = result_of d2
      /\ (forall ch, (exists res, d1 = Sent ch res) <-> sink = Some ch /\ receiving ch = true)
  | Panicked, Panicked => True
  | _, _ => False
  end.
Proof.
  rewrite !HandleCommand_dispatch. cbn [command response].
  assert (Hsent : forall res ch,
            (exists res', select_send receiving sink res = Sent ch res')
            <-> sink = Some ch /\ receiving ch = true).
  { intros res ch. unfold select_send. destruct sink as [c0|].
    - destruct (receiving c0) eqn:Er; split.
      + intros [res' [= -> _]]. done.
      + intros [[= ->] _]. eauto.
      + intros [res' ?]. discriminate.
      + intros [[= ->] ?]. congruence.
    - split; [intros [res' ?]; discriminate|intros [? _]; discriminate]. }
  assert (Hres : forall res, result_of (select_send receiving sink res)
                             = result_of (select_send receiving' sink' res)).
  { intros res. unfold select_send.
    destruct sink as [c0|]; [destruct (receiving c0)|];
      (destruct sink' as [c0'|]; [destruct (receiving' c0')|]); reflexivity. }
  destruct (dispatch_op s c) as [[[s1 res] []]|]; [| |done].
  - split; [done|]. split; [apply Hres|apply Hsent].
  - split; [done|]. split; [apply Hres|apply Hsent].
Qed.

(** X6: what the front end enqueues.  The commands built for Get, Set and
    Clear requests are always applied and return; the one built for a CAS
    request returns when the request carries both its key-value pair and
    its new value, and panics in HandleCommand when either sub-message is
    absent; the one built for ChangeConfiguration ends the process. *)
Theorem front_end_commands
    (receiving : chan -> bool) (s : KVStore) (c : chan) :
  (forall key, exists s' d, HandleCommand receiving s (Get key c) = Returned (s', d))
  /\ (forall kv, exists s' d, HandleCommand receiving s (Set' kv c) = Returned (s', d))
  /\ (exists s' d, HandleCommand receiving s (Clear c) = Returned (s', d))
  /\ (forall akv av, exists s' d,
        HandleCommand receiving s (CAS (mkCASArg (Some akv) (Some av)) c) = Returned (s', d))
  /\ (forall arg, CASArg_kv arg = None \/ CASArg_value arg = None ->
        HandleCommand receiving s (CAS arg c) = Panicked)
  /\ (forall servers, exists s' d,
        HandleCommand receiving s (ChangeConfiguration servers c) = Exited (s', d)).
Proof.
  split_and!.
  - intros key. eexists _, _. reflexivity.
  - intros kv. eexists _, _. reflexivity.
  - eexists _, _. reflexivity.
  - intros akv av. rewrite HandleCommand_dispatch. cbn. unfold CasInternal.
    destruct (decide _); eexists _, _; reflexivity.
  - intros [[akv|] [av|]] [H|H]; try discriminate; reflexivity.
  - intros servers. eexists _, _. reflexivity.
Qed.

(** X7: restoring a snapshot merges it into the store.  After
    ApplySnapshot with the encoding of a mapping [M], a key bound in [M]
    reads as in [M] and any other key reads as it did before; restoring
    into an empty store gives back exactly [M], so that the snapshot of a
    store restored into an empty store is that store again. *)
Theorem ApplySnapshot_lookup (s : KVStore) (M : gmap string string) (k : string) :
  store (ApplySnapshot s (gob_Encode M)) !! k
  = match M !! k with Some v => Some v | None => store s !! k end
  /\ store (ApplySnapshot (mkKVStore ∅) (gob_Encode M)) = M
  /\ ApplySnapshot (mkKVStore ∅) (gob_Encode (store s)) = s.
Proof.
  split_and!.
  - rewrite ApplySnapshot_union, lookup_union. destruct (M !! k), (store s !! k); done.
  - apply ApplySnapshot_fresh.
  - destruct s as [m]. unfold ApplySnapshot. f_equal.
    apply (ApplySnapshot_fresh m).
Qed.

(** * Further properties of the log *)

Local Open Scope Z_scope.

(** [getLogEntry] on a well-formed log, in closed form. *)
Lemma getLogEntry_closed (r : Raft) (e0 : Entry) (i : Z) :
  wf_log (log r) = true -> head (log r) = Some e0 ->
  getLogEntry r i
  = Some (if decide (Index e0 <= i <= Index e0 + Z.of_nat (length (log r)) - 1)
          then (log r !! Z.to_nat (i - Index e0), true)
          else (None, false)).
Proof.
  intros Hwf Hh. destruct (getLogEntry_wf r e0 i Hwf Hh) as [Hin Hout].
  destruct (decide _) as [Hi|Hi].
  - destruct (Hin Hi) as (e & He & _ & ->). by rewrite He.
  - rewrite Hout by lia. done.
Qed.

Lemma contiguous_app (l : list Entry) (e : Entry) (i : Z) :
  contiguous_from i l = true -> Index e = i + Z.of_nat (length l) ->
  contiguous_from i (l ++ [e]) = true.
Proof.
  revert i. induction l as [|a l IH]; intros i Hc He; simpl in *.
  - apply andb_true_iff. split; [apply Z.eqb_eq; lia|done].
  - apply andb_true_iff in Hc as [Ha Hl]. apply andb_true_iff. split; [done|].
    apply IH; [done|lia].
Qed.

Lemma contiguous_take (l : list Entry) (i : Z) (k : nat) :
  contiguous_from i l = true -> contiguous_from i (take k l) = true.
Proof.
  revert i k. induction l as [|a l IH]; intros i k Hc; [by rewrite take_nil|].
  destruct k as [|k]; [done|]. simpl in *.
  apply andb_true_iff in Hc as [Ha Hl]. apply andb_true_iff. split; [done|by apply IH].
Qed.

Lemma filter_none {A : Type} (P : A -> Prop) `{forall x, Decision (P x)} (l : list A) :
  (forall x, x ∈ l -> ~ P x) -> filter P l = [].
Proof.
  induction l as [|a l IH]; intros Hl; [done|].
  rewrite filter_cons_False by (apply Hl; left).
  apply IH. intros x Hx. apply Hl. by right.
Qed.

Lemma filter_all {A : Type} (P : A -> Prop) `{forall x, Decision (P x)} (l : list A) :
  (forall x, x ∈ l -> P x) -> filter P l = l.
Proof.
  induction l as [|a l IH]; intros Hl; [done|].
  rewrite filter_cons_True by (apply Hl; left).
  f_equal. apply IH. intros x Hx. apply Hl. by right.
Qed.

(** On a contiguous log, the slice up to the position of index [i] keeps
    exactly the entries whose index is below [i]. *)
Lemma take_log_prefix (l : list Entry) (f i : Z) :
  contiguous_from f l = true -> f <= i ->
  take (Z.to_nat (i - f)) l = filter (fun e => Index e < i) l.
Proof.
  revert f. induction l as [|a l IH]; intros f Hc Hi.
  - by rewrite take_nil.
  - pose proof Hc as Hc'. simpl in Hc. apply andb_true_iff in Hc as [Ha Hl].
    apply Z.eqb_eq in Ha.
    destruct (decide (i = f)) as [->|Hne].
    + replace (f - f) with 0 by lia. cbn [Z.to_nat take]. symmetry.
      apply filter_none. intros e He.
      pose proof (contiguous_ge _ _ _ Hc' He). lia.
    + rewrite filter_cons_True by lia.
      replace (Z.to_nat (i - f)) with (S (Z.to_nat (i - (f + 1)))) by lia.
      cbn [take]. f_equal. apply IH; [done|lia].
Qed.

Lemma wf_log_take (l : list Entry) (e0 : Entry) (k : nat) :
  wf_log l = true -> head l = Some e0 -> (0 < k)%nat ->
  wf_log (take k l) = true /\ head (take k l) = Some e0.
Proof.
  intros Hwf Hh Hk.
  destruct (wf_log_inv _ Hwf) as (e0' & l' & -> & Hc & H1 & H2 & H3).
  simpl in Hh. injection Hh as ->.
  destruct k as [|k]; [lia|]. split; [|done].
  pose proof (contiguous_take _ _ (S k) Hc) as Hct.
  cbn [take] in *. unfold wf_log. rewrite Hct. cbn [andb].
  rewrite !andb_true_iff, !int64b_spec, Z.leb_le.
  cbn [length] in *. unfold int64, min_int64, max_int64 in *.
  pose proof (length_take l' k). lia.
Qed.

Lemma wf_log_app (l : list Entry) (e0 e : Entry) :
  wf_log l = true -> head l = Some e0 ->
  Index e = Index e0 + Z.of_nat (length l) ->
  Index e <= max_int64 -> Z.of_nat (length l) < max_int64 ->
  wf_log (l ++ [e]) = true /\ head (l ++ [e]) = Some e0.
Proof.
  intros Hwf Hh He Hmax Hlen.
  destruct (wf_log_inv _ Hwf) as (e0' & l' & -> & Hc & H1 & H2 & H3).
  simpl in Hh. injection Hh as ->. split; [|done].
  pose proof (contiguous_app _ _ _ Hc He) as Hca.
  cbn [app] in *. unfold wf_log. rewrite Hca. cbn [andb].
  rewrite !andb_true_iff, !int64b_spec, Z.leb_le.
  cbn [length] in *. rewrite length_app. cbn [length].
  unfold int64, min_int64, max_int64 in *. lia.
Qed.

(** X13: the index accessors against the empty log.  getFirstLogIndex,
    getLastLogIndex and getLastLogTerm panic exactly when the log is empty,
    where getLogLen is 0 and getLogEntry still answers (nil, false).  On a
    well-formed log the last index is the first index plus the length less
    one, and looking up the first and the last index gives the first and
    the last entry. *)
Theorem log_accessors (r : Raft) :
  (log r = [] <-> getFirstLogIndex r = None)
  /\ (log r = [] <-> getLastLogIndex r = None)
  /\ (log r = [] <-> getLastLogTerm r = None)
  /\ (log r = [] <-> getLogLen r = 0)
  /\ (wf_log (log r) = true ->
      exists e0 el,
        head (log r) = Some e0 /\ last (log r) = Some el
        /\ getFirstLogIndex r = Some (Index e0)
        /\ getLastLogIndex r = Some (Index el)
        /\ getLastLogTerm r = Some (Term el)
        /\ Index el = Index e0 + getLogLen r - 1
        /\ getLogEntry r (Index e0) = Some (Some e0, true)
        /\ getLogEntry r (Index el) = Some (Some el, true)).
Proof.
  split_and!.
  - rewrite getFirstLogIndex_head. destruct (log r); simpl; split; done.
  - rewrite getLastLogIndex_last. destruct (last (log r)) eqn:El; simpl.
    + split; [intros E; by rewrite E in El|done].
    + apply last_None in El. split; done.
  - unfold getLastLogTerm. rewrite elem_last. destruct (last (log r)) eqn:El; simpl.
    + split; [intros E; by rewrite E in El|done].
    + apply last_None in El. split; done.
  - unfold getLogLen. destruct (log r); simpl; split; (done || lia).
  - intros Hwf. destruct (wf_log_inv _ Hwf) as (e0 & l' & El & Hc & H1 & H2 & H3).
    assert (Hh : head (log r) = Some e0) by (by rewrite El).
    destruct (wf_log_last _ _ Hwf Hh) as (el & Hl & Hel).
    exists e0, el. split; [done|]. split; [done|].
    split; [by rewrite getFirstLogIndex_head, Hh|].
    split; [by rewrite getLastLogIndex_last, Hl|].
    split; [unfold getLastLogTerm; by rewrite elem_last, Hl|].
    split; [unfold getLogLen; lia|].
    rewrite !(getLogEntry_closed r e0) by done.
    assert (Hlen : 0 < Z.of_nat (length (log r))) by (rewrite El; cbn [length]; lia).
    split.
    + destruct (decide _); [|lia]. replace (Index e0 - Index e0) with 0 by lia.
      simpl. by rewrite <- head_lookup, Hh.
    + destruct (decide _); [|lia]. rewrite last_lookup in Hl.
      replace (Z.to_nat (Index el - Index e0)) with (pred (length (log r))) by lia.
      by rewrite Hl.
Qed.

(** X12: the bounds of getEntryFrom on a well-formed log.  For an index
    from the first log index up to one past the last it returns the log
    suffix from that index on: the whole log at the first index, nothing at
    one past the last.  Below the first index and beyond one past the last
    the slice bound is out of range and the call panics. *)
Theorem getEntryFrom_bounds (r : Raft) (e0 : Entry) (i : Z) :
  wf_log (log r) = true ->
  head (log r) = Some e0 ->
  let first := Index e0 in
  let last := Index e0 + Z.of_nat (length (log r)) - 1 in
  (first <= i <= last + 1 -> getEntryFrom r i = Some (log_suffix i (log r)))
  /\ getEntryFrom r first = Some (log r)
  /\ getEntryFrom r (last + 1) = Some []
  /\ (int64 (i - first) -> i < first \/ last + 1 < i -> getEntryFrom r i = None).
Proof.
  intros Hwf Hh first last.
  destruct (wf_log_inv _ Hwf) as (e0' & l' & El & Hc & H1 & H2 & H3).
  assert (e0' = e0) as -> by (rewrite El in Hh; simpl in Hh; congruence).
  assert (Hlen : 0 < Z.of_nat (length (log r))) by (rewrite El; cbn [length]; lia).
  assert (Hsuf : forall j, first <= j <= last + 1 ->
                           getEntryFrom r j = Some (log_suffix j (log r))).
  { intros j Hj. rewrite (getEntryFrom_wf r e0 j Hwf Hh) by (unfold first, last in *; lia).
    f_equal. apply drop_log_suffix; [done|unfold first in *; lia]. }
  split_and!.
  - apply Hsuf.
  - rewrite Hsuf by (unfold first, last; lia). f_equal.
    apply log_suffix_all. intros e He. apply (contiguous_ge _ _ _ Hc He).
  - rewrite Hsuf by (unfold first, last; lia). f_equal.
    apply log_suffix_nil. intros e He.
    pose proof (contiguous_le_last _ _ _ Hc He). unfold last. lia.
  - intros Hint Hout. unfold getEntryFrom. rewrite elem_first, Hh. simpl.
    rewrite wrap64_id by done. unfold Go.slice_from.
    destruct (Z.leb_spec 0 (i - Index e0)); simpl; [|done].
    destruct (Z.leb_spec (i - Index e0) (Z.of_nat (length (log r)))); [|done].
    unfold first, last in *. lia.
Qed.

(** X12, a run on the log (1,1) (1,2) (1,3). *)
Lemma getEntryFrom_bounds_witness :
  getEntryFrom Samples.compacted_at_1 4 = Some []
  /\ getEntryFrom Samples.compacted_at_1 0 = None.
Proof.
  destruct (getEntryFrom_bounds Samples.compacted_at_1
              (mkEntry 1 1 (Some (Samples.cmd_set "a" "1"))) 0 eq_refl eq_refl)
    as (_ & _ & Hend & Hout).
  split; [exact Hend|]. apply Hout.
  - unfold int64, min_int64, max_int64. simpl. lia.
  - left. simpl. lia.
Defined.

(** X10: appending the next entry.  After addLogEntry with an entry whose
    index is one past the last log index, the log is still well formed, the
    last index and term are those of the new entry, the length has grown by
    one, the new entry is found under its index, and every lookup below
    that index answers as before. *)
Theorem addLogEntry_lookup (r : Raft) (e e0 : Entry) :
  wf_log (log r) = true ->
  head (log r) = Some e0 ->
  Index e = Index e0 + Z.of_nat (length (log r)) ->
  Index e <= max_int64 ->
  Z.of_nat (length (log r)) < max_int64 ->
  wf_log (log (addLogEntry r e)) = true
  /\ getFirstLogIndex (addLogEntry r e) = getFirstLogIndex r
  /\ getLastLogIndex (addLogEntry r e) = Some (Index e)
  /\ getLastLogTerm (addLogEntry r e) = Some (Term e)
  /\ getLogLen (addLogEntry r e) = getLogLen r + 1
  /\ getLogEntry (addLogEntry r e) (Index e) = Some (Some e, true)
  /\ (forall i, i < Index e -> getLogEntry (addLogEntry r e) i = getLogEntry r i).
Proof.
  intros Hwf Hh He Hmax Hlen.
  destruct (wf_log_app _ _ _ Hwf Hh He Hmax Hlen) as [Hwf' Hh'].
  assert (Hlog : log (addLogEntry r e) = (log r ++ [e])%list) by reflexivity.
  assert (Hl' : length (log (addLogEntry r e)) = S (length (log r))).
  { rewrite Hlog, length_app. cbn [length]. lia. }
  split_and!.
  - by rewrite Hlog.
  - by rewrite !getFirstLogIndex_head, Hlog, Hh, Hh'.
  - rewrite getLastLogIndex_last, Hlog, last_snoc. done.
  - unfold getLastLogTerm. rewrite elem_last, Hlog, last_snoc. done.
  - unfold getLogLen. rewrite Hl'. lia.
  - rewrite (getLogEntry_closed _ e0) by (rewrite ?Hlog; done).
    rewrite Hl'. destruct (decide _); [|lia].
    replace (Z.to_nat (Index e - Index e0)) with (length (log r) + 0)%nat by lia.
    rewrite Hlog, lookup_app_r by lia.
    replace (length (log r) + 0 - length (log r))%nat with 0%nat by lia. done.
  - intros i Hi.
    rewrite (getLogEntry_closed _ e0) by (rewrite ?Hlog; done).
    rewrite (getLogEntry_closed r e0) by done. rewrite Hl'. f_equal.
    destruct (decide (Index e0 <= i <= Index e0 + Z.of_nat (S (length (log r))) - 1));
      destruct (decide (Index e0 <= i <= Index e0 + Z.of_nat (length (log r)) - 1));
      try lia; [|done].
    rewrite Hlog, lookup_app_l by lia. done.
Qed.

(** X10, a run: the entry (1, 4) is appended to the log (1,1) (1,2) (1,3). *)
Lemma addLogEntry_lookup_witness :
  getLastLogIndex (addLogEntry Samples.compacted_at_1 (mkEntry 1 4 None)) = Some 4
  /\ getLogEntry (addLogEntry Samples.compacted_at_1 (mkEntry 1 4 None)) 4
     = Some (Some (mkEntry 1 4 None), true).
Proof.
  destruct (addLogEntry_lookup Samples.compacted_at_1 (mkEntry 1 4 None)
              (mkEntry 1 1 (Some (Samples.cmd_set "a" "1"))))
    as (_ & _ & Hlast & _ & _ & Hget & _).
  - reflexivity.
  - reflexivity.
  - reflexivity.
  - unfold max_int64. simpl. lia.
  - unfold max_int64. simpl. lia.
  - split; [exact Hlast|exact Hget].
Defined.

(** X11: truncating the log.  On a well-formed log, deleteEntryFrom with an
    index beyond the last log index changes nothing.  With an index above
    the first and up to the last it keeps exactly the entries below that
    index: the log stays well formed, its last index is the index less one,
    lookups below the index answer as before and lookups from the index on
    answer (nil, false).  With the first log index itself it empties the
    log, after which getLastLogIndex panics; with an index below the first
    it panics on the slice bound. *)
Theorem deleteEntryFrom_truncates (r : Raft) (e0 : Entry) (index : Z) :
  wf_log (log r) = true ->
  head (log r) = Some e0 ->
  let first := Index e0 in
  let last := Index e0 + Z.of_nat (length (log r)) - 1 in
  (last < index -> deleteEntryFrom r index = Some r)
  /\ (first < index <= last ->
      exists r',
        deleteEntryFrom r index = Some r'
        /\ r' = set_log r (filter (fun e => Index e < index) (log r))
        /\ wf_log (log r') = true
        /\ getFirstLogIndex r' = Some first
        /\ getLastLogIndex r' = Some (index - 1)
        /\ (forall i, i < index -> getLogEntry r' i = getLogEntry r i)
        /\ (forall i, index <= i -> getLogEntry r' i = Some (None, false)))
  /\ (index = first ->
      deleteEntryFrom r index = Some (set_log r [])
      /\ getLastLogIndex (set_log r []) = None)
  /\ (index < first -> int64 (index - first) -> deleteEntryFrom r index = None).
Proof.
  intros Hwf Hh first last.
  destruct (wf_log_last _ _ Hwf Hh) as (el & Hl & Hel).
  destruct (wf_log_inv _ Hwf) as (e0' & l' & El & Hc & H1 & H2 & H3).
  assert (e0' = e0) as -> by (rewrite El in Hh; simpl in Hh; congruence).
  assert (Hlen : 0 < Z.of_nat (length (log r))) by (rewrite El; cbn [length]; lia).
  assert (Hcut : forall j, first <= j <= last ->
            deleteEntryFrom r j = Some (set_log r (take (Z.to_nat (j - first)) (log r)))).
  { intros j Hj. unfold deleteEntryFrom.
    rewrite elem_first, Hh, getLastLogIndex_last, Hl. simpl.
    destruct (Z.ltb_spec (Index el) j) as [?|_]; [unfold last in *; lia|].
    rewrite wrap64_id by (unfold int64, min_int64, max_int64, first, last in *; lia).
    unfold Go.slice_to.
    destruct (Z.leb_spec 0 (j - Index e0)); [|unfold first in *; lia].
    destruct (Z.leb_spec (j - Index e0) (Z.of_nat (length (log r))));
      [|unfold first, last in *; lia].
    reflexivity. }
  split_and!.
  - intros Hi. unfold deleteEntryFrom.
    rewrite elem_first, Hh, getLastLogIndex_last, Hl. simpl.
    destruct (Z.ltb_spec (Index el) index) as [_|?]; [done|unfold last in *; lia].
  - intros Hi. eexists. split; [apply Hcut; lia|].
    set (k := Z.to_nat (index - first)).
    assert (Hk : (0 < k <= length (log r))%nat) by (unfold k, first, last in *; lia).
    destruct (wf_log_take _ _ k Hwf Hh) as [Hwft Hht]; [lia|].
    assert (Hlt : length (take k (log r)) = k) by (rewrite length_take; lia).
    split; [f_equal; apply take_log_prefix; [done|unfold first in *; lia]|].
    cbn [log set_log]. split; [done|].
    split; [by rewrite getFirstLogIndex_head; cbn [log set_log]; rewrite Hht|].
    split.
    { destruct (wf_log_last _ _ Hwft Hht) as (el' & Hl' & Hel').
      rewrite getLastLogIndex_last. cbn [log set_log]. rewrite Hl'. simpl.
      f_equal. rewrite Hel', Hlt. unfold k, first. lia. }
    split.
    + intros i Hlow.
      rewrite (getLogEntry_closed (set_log r (take k (log r))) e0) by done.
      rewrite (getLogEntry_closed r e0) by done. cbn [log set_log]. rewrite Hlt. f_equal.
      destruct (decide (Index e0 <= i <= Index e0 + Z.of_nat k - 1));
        destruct (decide (Index e0 <= i <= Index e0 + Z.of_nat (length (log r)) - 1));
        try (unfold k, first, last in *; lia); [|done].
      rewrite lookup_take_lt by (unfold k, first in *; lia). done.
    + intros i Hhigh.
      rewrite (getLogEntry_closed (set_log r (take k (log r))) e0) by done.
      cbn [log set_log]. rewrite Hlt.
      destruct (decide _); [unfold k, first in *; lia|done].
  - intros ->. split.
    + rewrite Hcut by (unfold first, last; lia).
      replace (first - first) with 0 by lia. done.
    + reflexivity.
  - intros Hlow Hint. unfold deleteEntryFrom.
    rewrite elem_first, Hh, getLastLogIndex_last, Hl. simpl.
    destruct (Z.ltb_spec (Index el) index) as [?|_]; [unfold first in *; lia|].
    rewrite wrap64_id by done. unfold Go.slice_to.
    destruct (Z.leb_spec 0 (index - Index e0)); [unfold first in *; lia|done].
Qed.

(** X11, a run on the log (1,1) (1,2) (1,3): truncating from index 3 leaves
    (1,1) (1,2); truncating from index 1 leaves nothing. *)
Lemma deleteEntryFrom_truncates_witness :
  deleteEntryFrom Samples.compacted_at_1 4 = Some Samples.compacted_at_1
  /\ deleteEntryFrom Samples.compacted_at_1 1 = Some (set_log Samples.compacted_at_1 []).
Proof.
  destruct (deleteEntryFrom_truncates Samples.compacted_at_1
              (mkEntry 1 1 (Some (Samples.cmd_set "a" "1"))) 4 eq_refl eq_refl)
    as (Hbeyond & _).
  destruct (deleteEntryFrom_truncates Samples.compacted_at_1
              (mkEntry 1 1 (Some (Samples.cmd_set "a" "1"))) 1 eq_refl eq_refl)
    as (_ & _ & Hfirst & _).
  split.
  - apply Hbeyond. simpl. lia.
  - apply Hfirst. reflexivity.
Defined.

(** X18: compaction keeps what is at or after its index.  When
    Compaction(S) goes through on a well-formed log that holds index [S],
    every lookup at an index from [S] on answers as before, every lookup
    below [S] answers (nil, false), and the last log index and term are
    unchanged; the log now starts at [S]. *)
Theorem Compaction_keeps_lookups (r : Raft) (S : Z) (e0 : Entry) :
  wf_log (log r) = true ->
  head (log r) = Some e0 ->
  Index e0 <= S <= Index e0 + Z.of_nat (length (log r)) - 1 ->
  (forall sn, lastSnapshotLogEntry r = Some sn -> Index sn < S /\ Index e0 < S) ->
  exists r',
    Compaction r S = Some r'
    /\ (forall i, S <= i -> getLogEntry r' i = getLogEntry r i)
    /\ (forall i, i < S -> getLogEntry r' i = Some (None, false))
    /\ getFirstLogIndex r' = Some S
    /\ getLastLogIndex r' = getLastLogIndex r
    /\ getLastLogTerm r' = getLastLogTerm r
    /\ getLogLen r' = Index e0 + getLogLen r - S.
Proof.
  intros Hwf Hh HS Hsnap.
  destruct (Compaction_through r S e0 Hwf Hh HS) as (e & He & Hidx & Hcomp).
  { destruct (lastSnapshotLogEntry r) as [sn|]; [by apply Hsnap|done]. }
  set (k := Z.to_nat (S - Index e0)) in *.
  assert (Hk : (k < length (log r))%nat) by (unfold k; lia).
  destruct (wf_log_drop _ _ k Hwf Hh Hk) as (Hwfd & e' & He' & Hhd & _).
  assert (e' = e) as -> by congruence.
  eexists. split; [exact Hcomp|].
  set (r' := persist _).
  assert (Hlog : log r' = drop k (log r)) by reflexivity.
  assert (Hlen' : length (log r') = (length (log r) - k)%nat) by (by rewrite Hlog, length_drop).
  assert (Hlast : last (log r') = last (log r)).
  { rewrite Hlog, !last_lookup, lookup_drop, length_drop. f_equal. lia. }
  split_and!.
  - intros i Hi.
    rewrite (getLogEntry_closed r' e) by (by rewrite Hlog).
    rewrite (getLogEntry_closed r e0) by done. rewrite Hlen', Hidx. f_equal.
    destruct (decide (S <= i <= S + Z.of_nat (length (log r) - k) - 1));
      destruct (decide (Index e0 <= i <= Index e0 + Z.of_nat (length (log r)) - 1));
      try (unfold k in *; lia); [|done].
    rewrite Hlog, lookup_drop. do 2 f_equal. unfold k. lia.
  - intros i Hi.
    rewrite (getLogEntry_closed r' e) by (by rewrite Hlog).
    rewrite Hidx. destruct (decide _); [lia|done].
  - rewrite getFirstLogIndex_head, Hlog, Hhd. simpl. by rewrite Hidx.
  - by rewrite !getLastLogIndex_last, Hlast.
  - unfold getLastLogTerm. by rewrite !elem_last, Hlast.
  - unfold getLogLen. rewrite Hlen'. unfold k. lia.
Qed.

(** X18, a run: Compaction(2) on the log (1,1) (1,2) (1,3). *)
Lemma Compaction_keeps_lookups_witness :
  exists r',
    Compaction Samples.compacted_at_1 2 = Some r'
    /\ getFirstLogIndex r' = Some 2
    /\ getLastLogIndex r' = Some 3.
Proof.
  destruct (Compaction_keeps_lookups Samples.compacted_at_1 2
              (mkEntry 1 1 (Some (Samples.cmd_set "a" "1"))))
    as (r' & Hcomp & _ & _ & Hfirst & Hlast & _).
  - reflexivity.
  - reflexivity.
  - simpl. lia.
  - simpl. intros sn H. injection H as <-. simpl. lia.
  - exists r'. split; [exact Hcomp|]. split; [exact Hfirst|]. rewrite Hlast. reflexivity.
Defined.

(** * Further properties of the apply pump *)

Lemma HandleCommand_Returned_dispatch
    (receiving : chan -> bool) (s s' : KVStore) (op : InputChannelType) (d : Dispatch) :
  HandleCommand receiving s op = Returned (s', d) ->
  exists res, dispatch_op s (command op) = Some (s', res, false).
Proof.
  rewrite HandleCommand_dispatch.
  destruct (dispatch_op s (command op)) as [[[s1 res] []]|]; try discriminate.
  intros [= <- _]. eauto.
Qed.

(** Whatever the state, a loop that returns has changed the last applied
    index and the table of reply sinks only, has nothing left to apply, and
    has reached the store that replaying the commands it handed over
    gives. *)
Lemma ProcessLogs_loop_frame (receiving : chan -> bool) (fuel : nat) :
  forall (r : Raft) (s : KVStore) (done : list Applied)
         (r' : Raft) (s' : KVStore) (done' : list Applied),
    ProcessLogs_loop receiving fuel r s done = Returned (r', s', done') ->
    r' = set_clientsResponse (set_lastApplied r (lastApplied r')) (clientsResponse r')
    /\ ~ lastApplied r' < commitIndex r
    /\ exists new, done' = (done ++ new)%list
                   /\ replay s (map (fun a => command (applied_op a)) new) = Some s'.
Proof.
  induction fuel as [|fuel IH]; intros r s done r' s' done'; cbn [ProcessLogs_loop].
  - destruct (Z.ltb_spec (lastApplied r) (commitIndex r)); [discriminate|].
    intros [= <- <- <-]. split; [by destruct r|]. split; [lia|].
    exists []. by rewrite app_nil_r.
  - destruct (Z.ltb_spec (lastApplied r) (commitIndex r)).
    + cbn [lastApplied set_lastApplied].
      destruct (getLogEntry _ _) as [[[entry|] ok]|]; try discriminate.
      destruct (Cmd entry) as [cmd|]; try discriminate.
      destruct (HandleCommand _ _ _) as [[s1 d]|[s1 d]| |] eqn:Hh; try discriminate.
      intros Hrun. apply IH in Hrun as (Hframe & Hend & new & -> & Hreplay).
      cbn [lastApplied commitIndex clientsResponse set_clientsResponse set_lastApplied] in *.
      split; [rewrite Hframe at 1; by destruct r|]. split; [done|].
      eexists (_ :: new). split; [by rewrite <- app_assoc|].
      apply HandleCommand_Returned_dispatch in Hh as [res Hd]. cbn [command] in Hd.
      cbn [map replay applied_op command]. by rewrite Hd.
    + intros [= <- <- <-]. split; [by destruct r|]. split; [lia|].
      exists []. by rewrite app_nil_r.
Qed.

(** A compaction that returns either did nothing or replaced the snapshot
    pointer and the log and persisted. *)
Lemma Compaction_shape (r r' : Raft) (i : Z) :
  Compaction r i = Some r' ->
  r' = r \/ exists e l, r' = persist (set_log (set_lastSnapshotLogEntry r e) l).
Proof.
  unfold Compaction.
  destruct (getFirstLogIndex r) as [first|]; [|discriminate]. simpl.
  destruct (match lastSnapshotLogEntry r with
            | Some sn => (Index sn <? i) && (first <? i)
            | None => true
            end).
  - destruct (getLogEntry r i) as [[entry ok]|]; [|discriminate]. simpl.
    destruct (getEntryFrom _ i) as [l|]; [|discriminate]. simpl.
    intros [= <-]. right. eauto.
  - intros [= <-]. by left.
Qed.

(** ProcessLogs as its loop followed by the snapshot and the compaction. *)
Lemma ProcessLogs_Returned (receiving : chan -> bool) (fuel : nat)
    (r r' : Raft) (s s' : KVStore) (done : list Applied) :
  ProcessLogs receiving fuel r s = Returned (r', s', done) ->
  exists r1,
    ProcessLogs_loop receiving fuel r s [] = Returned (r1, s', done)
    /\ (r' = r1
        \/ (LOG_COMPACTION_LIMIT <= Z.of_nat (length (log r1))
            /\ Compaction (set_persister r1 (SaveSnapshot (persister r1) (gob_Encode (store s'))))
                 (lastApplied r1) = Some r')).
Proof.
  unfold ProcessLogs.
  destruct (ProcessLogs_loop receiving fuel r s []) as [[[r1 s1] done1]| | |]; try discriminate.
  destruct (negb (LOG_COMPACTION_LIMIT =? -1)
            && (LOG_COMPACTION_LIMIT <=? Z.of_nat (length (log r1)))) eqn:Hlim.
  - destruct (Compaction _ _) as [r2|] eqn:Hc; [|discriminate].
    intros [= <- <- <-]. exists r1. split; [done|]. right.
    apply andb_true_iff in Hlim as [_ Hlim]. apply Z.leb_le in Hlim.
    cbn [lastApplied set_persister] in Hc. done.
  - intros [= <- <- <-]. exists r1. split; [done|]. by left.
Qed.

(** X20: what ProcessLogs never touches.  Whatever the state it starts
    from, a ProcessLogs that returns has left the commit index, the term,
    the vote, the role and the per-peer tables as they were; the last
    applied index has not decreased and has caught up with the commit
    index, by as many calls to the state machine as there were indices to
    apply; and the store is the one that replaying the commands handed
    over gives. *)
Theorem ProcessLogs_frame (receiving : chan -> bool) (fuel : nat)
    (r r' : Raft) (s s' : KVStore) (done : list Applied) :
  ProcessLogs receiving fuel r s = Returned (r', s', done) ->
  int64 (lastApplied r) ->
  int64 (commitIndex r) ->
  commitIndex r' = commitIndex r
  /\ currentTerm r' = currentTerm r
  /\ votedFor r' = votedFor r
  /\ state r' = state r
  /\ nextIndex r' = nextIndex r
  /\ matchIndex r' = matchIndex r
  /\ lastApplied r' = Z.max (lastApplied r) (commitIndex r)
  /\ Z.of_nat (length done) = Z.max 0 (commitIndex r - lastApplied r)
  /\ replay s (map (fun a => command (applied_op a)) done) = Some s'.
Proof.
  intros Hrun Hla Hci.
  apply ProcessLogs_Returned in Hrun as (r1 & Hloop & Hr').
  assert (Hcount : forall fuel r s done r1 s1 done1,
            ProcessLogs_loop receiving fuel r s done = Returned (r1, s1, done1) ->
            int64 (lastApplied r) -> int64 (commitIndex r) ->
            lastApplied r1 = Z.max (lastApplied r) (commitIndex r)
            /\ Z.of_nat (length done1)
               = Z.of_nat (length done) + Z.max 0 (commitIndex r - lastApplied r)).
  { clear. induction fuel as [|fuel IH]; intros r s done r1 s1 done1; cbn [ProcessLogs_loop].
    - destruct (Z.ltb_spec (lastApplied r) (commitIndex r)); [discriminate|].
      intros [= <- <- <-] _ _. lia.
    - destruct (Z.ltb_spec (lastApplied r) (commitIndex r)).
      + cbn [lastApplied set_lastApplied].
        destruct (getLogEntry _ _) as [[[entry|] ok]|]; try discriminate.
        destruct (Cmd entry) as [cmd|]; try discriminate.
        destruct (HandleCommand _ _ _) as [[s2 d]|[s2 d]| |]; try discriminate.
        intros Hrun Hla Hci.
        assert (Hw : wrap64 (lastApplied r + 1) = lastApplied r + 1)
          by (apply wrap64_id; unfold int64, min_int64, max_int64 in *; lia).
        apply IH in Hrun as [H1 H2];
          cbn [lastApplied commitIndex set_clientsResponse set_lastApplied] in *;
          rewrite ?Hw in *.
        all: try (rewrite length_app in H2; cbn [length] in H2);
          first [done | unfold int64, min_int64, max_int64 in *; lia].
      + intros [= <- <- <-] _ _. lia. }
  destruct (Hcount _ _ _ _ _ _ _ Hloop Hla Hci) as [Hmax Hlen]. cbn [length] in Hlen.
  destruct (ProcessLogs_loop_frame _ _ _ _ _ _ _ _ Hloop) as (Hframe & _ & new & Hnew & Hreplay).
  rewrite app_nil_l in Hnew. subst new.
  assert (Hr1 : commitIndex r1 = commitIndex r /\ currentTerm r1 = currentTerm r
                /\ votedFor r1 = votedFor r /\ state r1 = state r
                /\ nextIndex r1 = nextIndex r /\ matchIndex r1 = matchIndex r)
    by (rewrite Hframe; done).
  destruct Hr1 as (F1 & F2 & F3 & F4 & F5 & F6).
  destruct Hr' as [->|[_ Hcomp]].
  - split_and!; first [done | lia].
  - apply Compaction_shape in Hcomp as [->|(e & l & ->)];
      cbn [commitIndex currentTerm votedFor state nextIndex matchIndex lastApplied
           persist set_log set_lastSnapshotLogEntry set_persister];
      split_and!; first [done | lia].
Qed.

(** X20, a run: the leader with three committed Set commands. *)
Lemma ProcessLogs_frame_witness :
  exists r' s' done,
    ProcessLogs (fun _ => true) 3 Samples.leader_with_three_sets (mkKVStore ∅)
    = Returned (r', s', done)
    /\ lastApplied r' = 3
    /\ Z.of_nat (length done) = 3.
Proof.
  eexists _, _, _. split; [vm_compute; reflexivity|].
  match goal with
  | |- lastApplied ?r' = _ /\ Z.of_nat (length ?done) = _ =>
      destruct (ProcessLogs_frame (fun _ => true) 3 Samples.leader_with_three_sets r'
                  (mkKVStore ∅) (mkKVStore (<[ "c" := "3" ]> (<[ "b" := "2" ]> (<[ "a" := "1" ]> ∅))))
                  done)
        as (_ & _ & _ & _ & _ & _ & Hla & Hlen & _)
  end.
  - vm_compute. reflexivity.
  - unfold int64, min_int64, max_int64. simpl. lia.
  - unfold int64, min_int64, max_int64. simpl. lia.
  - split; [exact Hla|exact Hlen].
Defined.

Lemma filter_ext_in {A : Type} (P Q : A -> Prop)
    `{forall x, Decision (P x)} `{forall x, Decision (Q x)} (l : list A) :
  (forall x, x ∈ l -> P x <-> Q x) -> filter P l = filter Q l.
Proof.
  induction l as [|a l IH]; intros Hl; [done|].
  assert (Ha : P a <-> Q a) by (apply Hl; left).
  assert (Hl' : filter P l = filter Q l) by (apply IH; intros x Hx; apply Hl; by right).
  destruct (decide (P a)) as [Hp|Hp].
  - rewrite !filter_cons_True by tauto. by rewrite Hl'.
  - rewrite !filter_cons_False by tauto. done.
Qed.

(** On a contiguous log, the entries with an index in [a, b) are the entry
    at [a] followed by those with an index in [a+1, b). *)
Lemma filter_index_step (l : list Entry) (f a b : Z) (e : Entry) :
  contiguous_from f l = true -> e ∈ l -> Index e = a -> a < b ->
  filter (fun x => a <= Index x < b) l = e :: filter (fun x => a + 1 <= Index x < b) l.
Proof.
  revert f. induction l as [|x l IH]; intros f Hc He Ha Hab.
  - by apply elem_of_nil in He.
  - pose proof Hc as Hc'. simpl in Hc. apply andb_true_iff in Hc as [Hx Hl].
    apply Z.eqb_eq in Hx.
    assert (Hrest : forall y, y ∈ l -> f + 1 <= Index y)
      by (intros y Hy; apply (contiguous_ge _ _ _ Hl Hy)).
    apply elem_of_cons in He as [->|He].
    + rewrite filter_cons_True by lia. rewrite filter_cons_False by lia. f_equal.
      apply filter_ext_in. intros y Hy. specialize (Hrest y Hy). lia.
    + specialize (Hrest e He).
      rewrite !filter_cons_False by lia. by apply (IH (f + 1)).
Qed.

(** Entries of a contiguous log listed by consecutive indices are the
    entries of the log with an index in that range, in log order. *)
Lemma entries_by_index (l : list Entry) (f : Z) (es : list Entry) :
  contiguous_from f l = true ->
  forall a n, 0 <= n ->
    Forall (fun e => e ∈ l) es ->
    map Index es = seqZ a n ->
    es = filter (fun x => a <= Index x < a + n) l.
Proof.
  intros Hc. induction es as [|e es IH]; intros a n Hn Hin Hidx.
  - symmetry. apply filter_none. intros x Hx Hr.
    destruct (decide (n = 0)) as [->|Hne]; [lia|].
    rewrite (seqZ_cons a n) in Hidx by lia. discriminate.
  - destruct (decide (n = 0)) as [->|Hne]; [discriminate|].
    rewrite (seqZ_cons a n) in Hidx by lia. cbn [map] in Hidx.
    injection Hidx as He Hidx.
    apply Forall_cons in Hin as [Hel Hin].
    rewrite (filter_index_step l f a (a + n) e Hc Hel He) by lia. f_equal.
    rewrite (IH (Z.succ a) (Z.pred n)) by (done || lia).
    apply filter_ext_in. intros x _. lia.
Qed.

(** The apply pump on a well-formed state: its loop and the whole of it
    return, with the facts of the loop. *)
Lemma ProcessLogs_runs (receiving : chan -> bool) (fuel : nat) (r : Raft) (s : KVStore)
    (e0 : Entry) :
  wf_log (log r) = true ->
  head (log r) = Some e0 ->
  Index e0 <= lastApplied r ->
  lastApplied r <= commitIndex r ->
  commitIndex r <= Index e0 + Z.of_nat (length (log r)) - 1 ->
  (forall e, e ∈ log r -> lastApplied r < Index e <= commitIndex r ->
             exists c, Cmd e = Some c /\ applicable c = true) ->
  (Z.to_nat (commitIndex r - lastApplied r) <= fuel)%nat ->
  exists r1 r' s' done,
    ProcessLogs_loop receiving fuel r s [] = Returned (r1, s', done)
    /\ ProcessLogs receiving fuel r s = Returned (r', s', done)
    /\ r1 = set_clientsResponse (set_lastApplied r (commitIndex r)) (clientsResponse r1)
    /\ map (fun a => Index (applied_entry a)) done
       = seqZ (lastApplied r + 1) (commitIndex r - lastApplied r)
    /\ Forall (applied_from r) done
    /\ (if LOG_COMPACTION_LIMIT <=? Z.of_nat (length (log r))
        then Compaction (set_persister r1 (SaveSnapshot (persister r1) (gob_Encode (store s'))))
               (commitIndex r) = Some r'
        else r' = r1).
Proof.
  intros Hwf Hh Hfirst Hle Hlast Hcmds Hfuel.
  assert (Hfirst' : Index e0 <= lastApplied r + 1) by lia.
  destruct (ProcessLogs_loop_spec receiving (Z.to_nat (commitIndex r - lastApplied r))
              fuel r s [] e0 Hwf Hh Hfirst' Hle Hlast Hcmds eq_refl Hfuel) as
    (r1 & s1 & done & Hrun & Hframe & Hidxs & Hall & Hcr).
  rewrite app_nil_l in Hrun.
  assert (Hlog : log r1 = log r) by (rewrite Hframe; reflexivity).
  assert (Hla : lastApplied r1 = commitIndex r) by (rewrite Hframe; reflexivity).
  unfold ProcessLogs, LOG_COMPACTION_LIMIT. rewrite Hrun, Hlog.
  change (negb (30 =? -1)) with true. cbn [andb].
  destruct (30 <=? Z.of_nat (length (log r))) eqn:Hlim.
  - destruct (Compaction_returns
                (set_persister r1 (SaveSnapshot (persister r1) (gob_Encode (store s1))))
                (commitIndex r) e0) as [r3 Hcomp].
    { cbn [log set_persister]. by rewrite Hlog. }
    { cbn [log set_persister]. by rewrite Hlog. }
    { cbn [log set_persister]. rewrite Hlog. lia. }
    cbn [lastApplied set_persister]. rewrite Hla, Hcomp.
    exists r1, r3, s1, done. split_and!; done.
  - exists r1, r1, s1, done. split_and!; done.
Qed.

(** X24: on a server with a well-formed log whose first index is at most
    lastApplied, with lastApplied <= commitIndex <= last log index, and
    whose entries at the indices lastApplied+1 .. commitIndex carry Get,
    Set, Clear or CompareAndSet commands with their payload, ProcessLogs
    returns, given a loop budget of at least commitIndex - lastApplied
    turns.  The calls it made to the state machine
    are exactly those for the entries at the indices lastApplied+1,
    lastApplied+2, ..., commitIndex, in this order, hence each index once;
    it ends with lastApplied = commitIndex; the reply sink passed for an
    entry is the sink stored under the index of the entry when the server is
    Leader and nil otherwise; afterwards no sink is stored under any of
    these indices, the other stored sinks being kept; and the store it
    leaves is the one that replaying the commands handed over, in this
    order, gives from the store it started with. *)
Theorem ProcessLogs_applies_committed
    (receiving : chan -> bool) (fuel : nat) (r : Raft) (s : KVStore) (e0 : Entry) :
  wf_log (log r) = true ->
  head (log r) = Some e0 ->
  Index e0 <= lastApplied r ->
  lastApplied r <= commitIndex r ->
  commitIndex r <= Index e0 + Z.of_nat (length (log r)) - 1 ->
  (forall e, e ∈ log r -> lastApplied r < Index e <= commitIndex r ->
             exists c, Cmd e = Some c /\ applicable c = true) ->
  (Z.to_nat (commitIndex r - lastApplied r) <= fuel)%nat ->
  exists r' s' done,
    ProcessLogs receiving fuel r s = Returned (r', s', done)
    /\ lastApplied r' = commitIndex r
    /\ commitIndex r' = commitIndex r
    /\ map (fun a => Index (applied_entry a)) done
       = seqZ (lastApplied r + 1) (commitIndex r - lastApplied r)
    /\ NoDup (map (fun a => Index (applied_entry a)) done)
    /\ Forall (applied_from r) done
    /\ (forall i, clientsResponse r' !! i
                  = if decide (lastApplied r < i <= commitIndex r) then None
                    else clientsResponse r !! i)
    /\ replay s (map (fun a => command (applied_op a)) done) = Some s'.
Proof.
  intros Hwf Hh Hfirst Hle Hlast Hcmds Hfuel.
  assert (Hfirst' : Index e0 <= lastApplied r + 1) by lia.
  destruct (ProcessLogs_loop_spec receiving (Z.to_nat (commitIndex r - lastApplied r))
              fuel r s [] e0 Hwf Hh Hfirst' Hle Hlast Hcmds eq_refl Hfuel) as
    (r1 & s1 & done & Hrun & Hframe & Hidxs & Hall & Hcr).
  rewrite app_nil_l in Hrun.
  assert (Hreplay : replay s (map (fun a => command (applied_op a)) done) = Some s1).
  { destruct (ProcessLogs_loop_frame _ _ _ _ _ _ _ _ Hrun) as (_ & _ & new & Hnew & Hre).
    rewrite app_nil_l in Hnew. by subst new. }
  assert (Hnodup : NoDup (map (fun a => Index (applied_entry a)) done))
    by (rewrite Hidxs; apply NoDup_seqZ).
  assert (Hlog : log r1 = log r) by (rewrite Hframe; reflexivity).
  assert (Hla : lastApplied r1 = commitIndex r) by (rewrite Hframe; reflexivity).
  assert (Hci : commitIndex r1 = commitIndex r) by (rewrite Hframe; reflexivity).
  unfold ProcessLogs. rewrite Hrun.
  destruct (negb (LOG_COMPACTION_LIMIT =? -1)
            && (LOG_COMPACTION_LIMIT <=? Z.of_nat (length (log r1)))).
  - set (r2 := set_persister r1 _).
    destruct (Compaction_returns r2 (lastApplied r2) e0) as [r3 Hcomp].
    { subst r2. cbn [log set_persister]. by rewrite Hlog. }
    { subst r2. cbn [log set_persister]. by rewrite Hlog. }
    { subst r2. cbn [log lastApplied set_persister]. rewrite Hlog, Hla. lia. }
    rewrite Hcomp.
    destruct (Compaction_frame _ _ _ Hcomp) as (F1 & F2 & F3 & F4).
    subst r2. cbn [lastApplied commitIndex clientsResponse set_persister] in F1, F2, F3.
    exists r3, s1, done. split; [done|].
    split; [congruence|]. split; [congruence|].
    split; [done|]. split; [done|]. split; [done|].
    split; [|done]. intros i. rewrite F3. apply Hcr.
  - exists r1, s1, done. split_and!; done.
Qed.

(** X24, a run: a leader with three committed Set commands applies the
    entries 1, 2 and 3 in this order and ends with lastApplied = 3. *)
Lemma ProcessLogs_applies_committed_witness :
  exists r' s' done,
    ProcessLogs (fun _ => true) 3 Samples.leader_with_three_sets (mkKVStore ∅)
    = Returned (r', s', done)
    /\ lastApplied r' = 3
    /\ map (fun a => Index (applied_entry a)) done = [1; 2; 3].
Proof.
  destruct (ProcessLogs_applies_committed (fun _ => true) 3 Samples.leader_with_three_sets
              (mkKVStore ∅) (mkEntry 0 0 None))
    as (r' & s' & done & Hrun & Hla & _ & Hidx & _).
  - reflexivity.
  - reflexivity.
  - simpl. lia.
  - simpl. lia.
  - simpl. lia.
  - intros e He Hr. simpl in He, Hr.
    apply elem_of_cons in He as [->|He]; [simpl in Hr; lia|].
    apply elem_of_cons in He as [->|He]; [eexists; split; reflexivity|].
    apply elem_of_cons in He as [->|He]; [eexists; split; reflexivity|].
    apply elem_of_cons in He as [->|He]; [eexists; split; reflexivity|].
    by apply elem_of_nil in He.
  - simpl. lia.
  - exists r', s', done. split; [exact Hrun|]. split; [exact Hla|exact Hidx].
Defined.

(** X8: the store follows from the log alone.  On a well-formed state as in
    X24, ProcessLogs returns with the store that replaying, in log order,
    the commands of the entries committed and not yet applied gives from
    the store it started with, and these are the commands it handed to the
    state machine.  Neither the role of the server, nor its table of reply
    sinks, nor the receivers have a part in it: a leader and a follower
    with the same log, last applied index and commit index reach the same
    store. *)
Theorem ProcessLogs_store_is_replay
    (receiving : chan -> bool) (fuel : nat) (r : Raft) (s : KVStore) (e0 : Entry) :
  wf_log (log r) = true ->
  head (log r) = Some e0 ->
  Index e0 <= lastApplied r ->
  lastApplied r <= commitIndex r ->
  commitIndex r <= Index e0 + Z.of_nat (length (log r)) - 1 ->
  (forall e, e ∈ log r -> lastApplied r < Index e <= commitIndex r ->
             exists c, Cmd e = Some c /\ applicable c = true) ->
  (Z.to_nat (commitIndex r - lastApplied r) <= fuel)%nat ->
  exists r' s' done,
    ProcessLogs receiving fuel r s = Returned (r', s', done)
    /\ map (fun a => command (applied_op a)) done = committed_commands r
    /\ replay s (committed_commands r) = Some s'.
Proof.
  intros Hwf Hh Hfirst Hle Hlast Hcmds Hfuel.
  destruct (ProcessLogs_runs receiving fuel r s e0 Hwf Hh Hfirst Hle Hlast Hcmds Hfuel)
    as (r1 & r' & s' & done & Hloop & Hrun & _ & Hidxs & Hall & _).
  destruct (ProcessLogs_loop_frame _ _ _ _ _ _ _ _ Hloop) as (_ & _ & new & Hnew & Hreplay).
  rewrite app_nil_l in Hnew. subst new.
  destruct (wf_log_inv _ Hwf) as (e0' & l' & El & Hc & _).
  assert (e0' = e0) as -> by (rewrite El in Hh; simpl in Hh; congruence).
  assert (Hes : map applied_entry done
                = filter (fun e => lastApplied r < Index e <= commitIndex r) (log r)).
  { rewrite (entries_by_index (log r) (Index e0) (map applied_entry done) Hc
               (lastApplied r + 1) (commitIndex r - lastApplied r)).
    - apply filter_ext_in. intros x _. lia.
    - lia.
    - apply Forall_map. eapply Forall_impl; [exact Hall|]. by intros a (Ha & _).
    - rewrite <- Hidxs, map_map. done. }
  assert (Hcmd : map (fun a => command (applied_op a)) done = committed_commands r).
  { unfold committed_commands. rewrite <- Hes. clear -Hall.
    induction Hall as [|a done (_ & _ & Ha & _) _ IH]; [done|].
    cbn [map omap list_omap]. rewrite Ha. cbn. by rewrite IH. }
  exists r', s', done. split; [done|]. split; [done|]. by rewrite <- Hcmd.
Qed.

(** X8, a run: three Set commands applied to the empty store. *)
Lemma ProcessLogs_store_is_replay_witness :
  exists r' s' done,
    ProcessLogs (fun _ => true) 3 Samples.leader_with_three_sets (mkKVStore ∅)
    = Returned (r', s', done)
    /\ replay (mkKVStore ∅) (committed_commands Samples.leader_with_three_sets) = Some s'.
Proof.
  destruct (ProcessLogs_store_is_replay (fun _ => true) 3 Samples.leader_with_three_sets
              (mkKVStore ∅) (mkEntry 0 0 None))
    as (r' & s' & done & Hrun & _ & Hreplay).
  - reflexivity.
  - reflexivity.
  - simpl. lia.
  - simpl. lia.
  - simpl. lia.
  - intros e He Hr. simpl in He, Hr.
    apply elem_of_cons in He as [->|He]; [simpl in Hr; lia|].
    apply elem_of_cons in He as [->|He]; [eexists; split; reflexivity|].
    apply elem_of_cons in He as [->|He]; [eexists; split; reflexivity|].
    apply elem_of_cons in He as [->|He]; [eexists; split; reflexivity|].
    by apply elem_of_nil in He.
  - simpl. lia.
  - exists r', s', done. split; [exact Hrun|exact Hreplay].
Defined.

(** X9: when the pump snapshots and compacts.  On a well-formed state as in
    X24, ProcessLogs returns, and:
    - with fewer than 30 entries in the log it leaves the log, the snapshot
      pointer and both slots of the persister as they were;
    - with 30 entries or more it saves the encoding of the store as it is
      after applying in the snapshot slot, which restored into an empty
      store gives that store; if the commit index is above the index of the
      snapshot pointer (when there is one) and above the first log index,
      the log is cut to its suffix from the commit index on, the snapshot
      pointer is the entry at the commit index, and the cut log is
      persisted; if there is a snapshot pointer and the commit index is
      not above its index or not above the first log index, the log, the
      snapshot pointer and the persisted raft state stay as they were. *)
Theorem ProcessLogs_compaction_trigger
    (receiving : chan -> bool) (fuel : nat) (r : Raft) (s : KVStore) (e0 : Entry) :
  wf_log (log r) = true ->
  head (log r) = Some e0 ->
  Index e0 <= lastApplied r ->
  lastApplied r <= commitIndex r ->
  commitIndex r <= Index e0 + Z.of_nat (length (log r)) - 1 ->
  (forall e, e ∈ log r -> lastApplied r < Index e <= commitIndex r ->
             exists c, Cmd e = Some c /\ applicable c = true) ->
  (Z.to_nat (commitIndex r - lastApplied r) <= fuel)%nat ->
  exists r' s' done,
    ProcessLogs receiving fuel r s = Returned (r', s', done)
    /\ (Z.of_nat (length (log r)) < LOG_COMPACTION_LIMIT ->
        log r' = log r /\ persister r' = persister r
        /\ lastSnapshotLogEntry r' = lastSnapshotLogEntry r)
    /\ (LOG_COMPACTION_LIMIT <= Z.of_nat (length (log r)) ->
        ReadSnapshot (persister r') = Some (gob_Encode (store s'))
        /\ ApplySnapshot (mkKVStore ∅) (gob_Encode (store s')) = s'
        /\ ((forall sn, lastSnapshotLogEntry r = Some sn ->
                        Index sn < commitIndex r /\ Index e0 < commitIndex r) ->
            exists e,
              lastSnapshotLogEntry r' = Some e /\ Index e = commitIndex r
              /\ head (log r') = Some e
              /\ log r' = log_suffix (commitIndex r) (log r)
              /\ persisted_in_sync r')
        /\ (forall sn, lastSnapshotLogEntry r = Some sn ->
                       commitIndex r <= Index sn \/ commitIndex r <= Index e0 ->
            log r' = log r /\ lastSnapshotLogEntry r' = Some sn
            /\ raft_state (persister r') = raft_state (persister r))).
Proof.
  intros Hwf Hh Hfirst Hle Hlast Hcmds Hfuel.
  destruct (ProcessLogs_runs receiving fuel r s e0 Hwf Hh Hfirst Hle Hlast Hcmds Hfuel)
    as (r1 & r' & s' & done & _ & Hrun & Hframe & _ & _ & Hcomp).
  assert (Hlog : log r1 = log r) by (rewrite Hframe; reflexivity).
  assert (Hps : persister r1 = persister r) by (rewrite Hframe; reflexivity).
  assert (Hsn : lastSnapshotLogEntry r1 = lastSnapshotLogEntry r) by (rewrite Hframe; reflexivity).
  assert (Hct : currentTerm r1 = currentTerm r) by (rewrite Hframe; reflexivity).
  exists r', s', done. split; [done|].
  unfold LOG_COMPACTION_LIMIT in *.
  destruct (Z.leb_spec 30 (Z.of_nat (length (log r)))) as [Hlim|Hlim].
  - split; [lia|]. intros _.
    set (r2 := set_persister r1 (SaveSnapshot (persister r1) (gob_Encode (store s')))) in *.
    assert (Hwf2 : wf_log (log r2) = true) by (subst r2; cbn [log set_persister]; by rewrite Hlog).
    assert (Hh2 : head (log r2) = Some e0) by (subst r2; cbn [log set_persister]; by rewrite Hlog).
    split.
    { apply Compaction_shape in Hcomp as [->|(e & l & ->)]; reflexivity. }
    split.
    { destruct s' as [m]. unfold ApplySnapshot. f_equal. apply (ApplySnapshot_fresh m). }
    split.
    + intros Hguard.
      destruct (Compaction_through r2 (commitIndex r) e0 Hwf2 Hh2) as (e & He & Hidx & Hc2).
      { subst r2. cbn [log set_persister]. rewrite Hlog. lia. }
      { subst r2. cbn [lastSnapshotLogEntry set_persister]. rewrite Hsn.
        destruct (lastSnapshotLogEntry r) as [sn|]; [by apply Hguard|done]. }
      rewrite Hc2 in Hcomp. injection Hcomp as <-.
      subst r2. cbn [log set_persister] in *. rewrite Hlog in *.
      destruct (wf_log_drop _ _ (Z.to_nat (commitIndex r - Index e0)) Hwf Hh)
        as (_ & e' & He' & Hhd & _); [lia|].
      assert (e' = e) as -> by congruence.
      exists e. split; [reflexivity|]. split; [done|].
      cbn [log persist set_log set_persister set_lastSnapshotLogEntry].
      split; [done|]. split; [|reflexivity].
      destruct (wf_log_inv _ Hwf) as (e0' & l' & El & Hc & _).
      assert (e0' = e0) as -> by (rewrite El in Hh; simpl in Hh; congruence).
      apply drop_log_suffix; [done|lia].
    + intros sn Esn Hskip.
      assert (Hnoop : Compaction r2 (commitIndex r) = Some r2).
      { unfold Compaction. rewrite getFirstLogIndex_head, Hh2. simpl.
        subst r2. cbn [lastSnapshotLogEntry set_persister]. rewrite Hsn, Esn.
        replace ((Index sn <? commitIndex r) && (Index e0 <? commitIndex r)) with false; [done|].
        symmetry. apply andb_false_iff.
        destruct Hskip; [left|right]; apply Z.ltb_ge; lia. }
      rewrite Hnoop in Hcomp. injection Hcomp as <-. subst r2.
      cbn [log lastSnapshotLogEntry persister set_persister raft_state SaveSnapshot].
      rewrite Hlog, Hsn, Hps. done.
  - split; [|lia]. intros _. subst r'. done.
Qed.

(** X9, a run: a leader applies thirty committed Set commands from a log
    of thirty-one entries; the snapshot is saved and the log is cut at
    index 30. *)
Lemma ProcessLogs_compaction_trigger_witness :
  exists r' s' done,
    ProcessLogs (fun _ => true) 30 Samples.leader_with_long_log (mkKVStore ∅)
    = Returned (r', s', done)
    /\ ReadSnapshot (persister r') = Some (gob_Encode (store s'))
    /\ exists e, lastSnapshotLogEntry r' = Some e /\ Index e = 30
                 /\ log r' = log_suffix 30 Samples.long_log.
Proof.
  destruct (ProcessLogs_compaction_trigger (fun _ => true) 30 Samples.leader_with_long_log
              (mkKVStore ∅) (mkEntry 0 0 None))
    as (r' & s' & done & Hrun & _ & Hlong).
  - reflexivity.
  - reflexivity.
  - simpl. lia.
  - simpl. lia.
  - simpl. lia.
  - intros e He Hr. cbn in He. cbn [lastApplied commitIndex Samples.leader_with_long_log
                                      Samples.server] in Hr.
    apply elem_of_cons in He as [->|He]; [simpl in Hr; lia|].
    repeat (apply elem_of_cons in He as [->|He]; [eexists; split; reflexivity|]).
    by apply elem_of_nil in He.
  - simpl. lia.
  - destruct Hlong as (Hsnap & _ & Hcut & _); [unfold LOG_COMPACTION_LIMIT; simpl; lia|].
    destruct Hcut as (e & He & Hidx & _ & Hlog & _); [intros sn Hsn; discriminate|].
    exists r', s', done. split; [exact Hrun|]. split; [exact Hsnap|].
    exists e. split; [exact He|]. split; [exact Hidx|exact Hlog].
Defined.

(** * Further properties of the role transitions *)

(** The loop over the peers of [leaderStatePrep] leaves the persistent
    fields, the persister and the indices of the apply pump alone. *)
Lemma leaderStatePrep_frame (r r' : Raft) :
  leaderStatePrep r = Some r' ->
  persister r' = persister r /\ currentTerm r' = currentTerm r
  /\ votedFor r' = votedFor r /\ log r' = log r
  /\ commitIndex r' = commitIndex r /\ lastApplied r' = lastApplied r
  /\ me r' = me r /\ lastSnapshotLogEntry r' = lastSnapshotLogEntry r.
Proof.
  unfold leaderStatePrep.
  destruct (getLastLogIndex _) as [last|]; [|discriminate]. simpl.
  intros [= <-].
  match goal with
  | |- context [foldl ?f ?r0 ?ps] =>
      assert (H : forall qs r1,
                persister (foldl f r1 qs) = persister r1
                /\ currentTerm (foldl f r1 qs) = currentTerm r1
                /\ votedFor (foldl f r1 qs) = votedFor r1
                /\ log (foldl f r1 qs) = log r1
                /\ commitIndex (foldl f r1 qs) = commitIndex r1
                /\ lastApplied (foldl f r1 qs) = lastApplied r1
                /\ me (foldl f r1 qs) = me r1
                /\ lastSnapshotLogEntry (foldl f r1 qs) = lastSnapshotLogEntry r1);
      [|apply (H ps r0)]
  end.
  induction qs as [|q qs IH]; intros r1; [done|]. cbn [foldl].
  match goal with
  | |- context [foldl _ ?x qs] => destruct (IH x) as (H1 & H2 & H3 & H4 & H5 & H6 & H7 & H8)
  end.
  split_and!; (etrans; [eassumption|reflexivity]).
Qed.

(** X15: the persisted raft state stays in step.  Starting an election
    leaves the raft_state slot equal to the term, the vote and the log in
    memory; compaction, the apply pump, becoming leader and falling back to
    follower keep it so when it was so before; appending an entry to the
    log breaks it, and persist restores it. *)
Theorem persisted_in_sync_kept :
  (forall r r' li lt, sendVoteRequests r = Some (r', li, lt) -> persisted_in_sync r')
  /\ (forall r i r', Compaction r i = Some r' -> persisted_in_sync r -> persisted_in_sync r')
  /\ (forall receiving fuel r s r' s' done,
        ProcessLogs receiving fuel r s = Returned (r', s', done) ->
        persisted_in_sync r -> persisted_in_sync r')
  /\ (forall r r', leaderStatePrep r = Some r' -> persisted_in_sync r -> persisted_in_sync r')
  /\ (forall r n, persisted_in_sync r -> persisted_in_sync (fallbackToFollower r n))
  /\ (forall r e, persisted_in_sync r -> ~ persisted_in_sync (addLogEntry r e))
  /\ (forall r, persisted_in_sync (persist r)).
Proof.
  split_and!.
  - intros r r' li lt. unfold sendVoteRequests.
    destruct (getLastLogIndex _) as [last|]; [|discriminate]. simpl.
    destruct (if negb (last =? 0) then _ else _) as [t|]; [|discriminate]. simpl.
    intros [= <- _ _]. reflexivity.
  - intros r i r' Hc Hs. apply Compaction_shape in Hc as [->|(e & l & ->)]; [done|reflexivity].
  - intros receiving fuel r s r' s' done Hrun Hs.
    apply ProcessLogs_Returned in Hrun as (r1 & Hloop & Hr').
    destruct (ProcessLogs_loop_frame _ _ _ _ _ _ _ _ Hloop) as (Hframe & _).
    assert (Hs1 : persisted_in_sync r1) by (rewrite Hframe; exact Hs).
    destruct Hr' as [->|[_ Hcomp]]; [done|].
    apply Compaction_shape in Hcomp as [->|(e & l & ->)]; [exact Hs1|reflexivity].
  - intros r r' Hprep Hs.
    destruct (leaderStatePrep_frame _ _ Hprep) as (Hp & Ht & Hv & Hl & _).
    unfold persisted_in_sync. by rewrite Hp, Ht, Hv, Hl.
  - intros r n Hs. exact Hs.
  - intros r e Hs. unfold persisted_in_sync in *.
    cbn [persister currentTerm votedFor log addLogEntry set_log]. rewrite Hs.
    intros [= H]. apply (f_equal length) in H. rewrite length_app in H.
    cbn [length] in H. lia.
  - intros r. reflexivity.
Qed.

(** X14: starting an election.  On an empty log sendVoteRequests panics.
    Otherwise, with a term below the largest int64, the server becomes
    Candidate, its term grows by exactly one, it votes for itself and
    forgets the leader, while its log, commit index and last applied index
    stay; the new term and vote are persisted before any request is built;
    the requests carry the index of the last entry and its term, but term 0
    when that index is 0; and a request built while the term is unchanged
    carries the new term and the name of the server. *)
Theorem sendVoteRequests_spec (r : Raft) :
  (log r = [] -> sendVoteRequests r = None)
  /\ (forall el, last (log r) = Some el ->
        int64 (currentTerm r) -> currentTerm r < max_int64 ->
        exists r',
          sendVoteRequests r
          = Some (r', Index el, if Index el =? 0 then 0 else Term el)
          /\ state r' = candidate
          /\ currentTerm r' = currentTerm r + 1
          /\ votedFor r' = me r
          /\ leaderName r' = ""%string
          /\ log r' = log r
          /\ commitIndex r' = commitIndex r
          /\ lastApplied r' = lastApplied r
          /\ raft_state (persister r')
             = Some (mkRaftStateBlob (currentTerm r + 1) (me r) (log r))
          /\ forall lt, voteRequest r' (Index el) lt
                        = mkRequestVoteArgs (currentTerm r + 1) (me r) (Index el) lt).
Proof.
  split.
  - intros E. unfold sendVoteRequests, getLastLogIndex. cbn [log set_leaderName set_votedFor
      set_currentTerm set_state]. by rewrite E.
  - intros el Hl Hint Hmax.
    assert (Hw : wrap64 (currentTerm r + 1) = currentTerm r + 1)
      by (apply wrap64_id; unfold int64, min_int64, max_int64 in *; lia).
    unfold sendVoteRequests.
    rewrite getLastLogIndex_last. cbn [log set_leaderName set_votedFor set_currentTerm set_state].
    rewrite Hl. simpl. unfold getLastLogTerm.
    cbn [log set_leaderName set_votedFor set_currentTerm set_state].
    rewrite elem_last, Hl. simpl.
    destruct (Index el =? 0); simpl; rewrite Hw;
      (eexists; split; [reflexivity|]; split_and!; reflexivity).
Qed.

(** X17: falling back to follower.  With a draw of the random source in
    its range, fallbackToFollower makes the server a Follower, stops the
    heartbeat timer and arms the election timer with a whole number of
    milliseconds from 1000 to 3999; the term, the vote, the log, the commit
    and last applied indices stay, and so do the per-peer tables and the
    table of reply sinks of a former leader, which are not cleared. *)
Theorem fallbackToFollower_spec (r : Raft) (n : Z) :
  Intn_returns (DurationMax - DurationMin) n ->
  let r' := fallbackToFollower r n in
  state r' = follower
  /\ heartBeatTimer r' = None
  /\ (exists ms, 1000 <= ms < 4000 /\ electionTimer r' = Some (ms * Millisecond))
  /\ currentTerm r' = currentTerm r /\ votedFor r' = votedFor r /\ log r' = log r
  /\ commitIndex r' = commitIndex r /\ lastApplied r' = lastApplied r
  /\ nextIndex r' = nextIndex r /\ matchIndex r' = matchIndex r
  /\ clientsResponse r' = clientsResponse r.
Proof.
  intros Hn. cbn. split_and!; try reflexivity.
  exists (n + 1000). unfold Intn_returns, DurationMax, DurationMin in Hn.
  split; [lia|]. f_equal. unfold restartTimer. by apply randomDuration_ms.
Qed.

(** X17, a run: the draw 0 arms the election timer with 1000 ms. *)
Lemma fallbackToFollower_spec_witness :
  state (fallbackToFollower Samples.leader_compacted_at_1 0) = follower
  /\ electionTimer (fallbackToFollower Samples.leader_compacted_at_1 0)
     = Some (1000 * Millisecond).
Proof.
  destruct (fallbackToFollower_spec Samples.leader_compacted_at_1 0) as (Hs & _ & _).
  - unfold Intn_returns, DurationMax, DurationMin. lia.
  - split; [exact Hs|reflexivity].
Defined.

(** * Further properties of replication *)

(** [sendApeendEntriesTo] in closed form, where it sends AppendEntries. *)
Lemma sendApeendEntriesTo_append_eval (r : Raft) (p : string) (e0 : Entry) :
  wf_log (log r) = true ->
  head (log r) = Some e0 ->
  int64 (peer_get (nextIndex r) p) ->
  int64 (peer_get (nextIndex r) p - 1) ->
  let next := peer_get (nextIndex r) p in
  let prev := next - 1 in
  let first := Index e0 in
  let last := Index e0 + Z.of_nat (length (log r)) - 1 in
  prev = 0 \/ first <= prev <= last ->
  last < next \/ first <= next ->
  sendApeendEntriesTo r p
  = Some (CallAppendEntries p
            (mkAppendEntriesArgs (currentTerm r) (me r) prev
               (if prev =? 0 then 0
                else default 0 (Term <$> log r !! Z.to_nat (prev - first)))
               (commitIndex r) (log_suffix next (log r)))).
Proof.
  intros Hwf Hh Hnext Hprev next prev first last Hp Hn.
  destruct (wf_log_last _ _ Hwf Hh) as (el & Hl & Hel).
  destruct (wf_log_inv _ Hwf) as (e0' & l' & El & Hc & H1 & H2 & H3).
  assert (e0' = e0) as -> by (rewrite El in Hh; simpl in Hh; congruence).
  assert (Hwp : wrap64 (peer_get (nextIndex r) p - 1) = prev) by (by apply wrap64_id).
  assert (Hwn : wrap64 (prev + 1) = next).
  { replace (prev + 1) with next by (unfold prev; lia). by apply wrap64_id. }
  unfold sendApeendEntriesTo. rewrite getLastLogIndex_last, Hl. simpl. rewrite Hwp.
  fold next.
  assert (Hterm : (if negb (prev =? 0)
                   then '(entry, ok) ← getLogEntry r prev;
                        if (ok : bool) then e ← entry; Some (Some (Term e)) else Some None
                   else Some (Some 0))
                  = Some (Some (if prev =? 0 then 0
                                else default 0 (Term <$> log r !! Z.to_nat (prev - first))))).
  { destruct (Z.eqb_spec prev 0) as [E0|N0]; simpl; [done|].
    destruct Hp as [?|Hp]; [done|].
    destruct (proj1 (getLogEntry_wf r e0 prev Hwf Hh) Hp) as (e & He & _ & ->). simpl.
    unfold first. by rewrite He. }
  rewrite Hterm. simpl.
  destruct (Z.leb_spec next (Index el)) as [Hle|Hgt]; simpl.
  - assert (Hfn : first <= next) by (destruct Hn as [?|?]; [unfold last in *; lia|done]).
    rewrite Hwn.
    destruct (getLogEntry_wf_returns r e0 next Hwf Hh) as [res ->]. simpl.
    rewrite (getEntryFrom_wf r e0 next Hwf Hh) by (unfold first in *; lia). simpl.
    rewrite (drop_log_suffix (log r) (Index e0) next Hc Hfn). done.
  - rewrite log_suffix_nil; [done|]. intros e He.
    pose proof (contiguous_le_last _ _ _ Hc He). lia.
Qed.

(** [sendApeendEntriesTo] in closed form, where it sends InstallSnapshot. *)
Lemma sendApeendEntriesTo_snapshot_eval (r : Raft) (p : string) (e0 sn : Entry) :
  wf_log (log r) = true ->
  head (log r) = Some e0 ->
  int64 (peer_get (nextIndex r) p - 1) ->
  let prev := peer_get (nextIndex r) p - 1 in
  prev <> 0 ->
  prev < Index e0 \/ Index e0 + Z.of_nat (length (log r)) - 1 < prev ->
  lastSnapshotLogEntry r = Some sn ->
  sendApeendEntriesTo r p
  = Some (CallInstallSnapshot p
            (mkInstallSnapshotArgs (currentTerm r) (me r) (Some sn)
               (ReadSnapshot (persister r)))).
Proof.
  intros Hwf Hh Hprev prev Hnz Hout Hsn.
  destruct (wf_log_last _ _ Hwf Hh) as (el & Hl & Hel).
  unfold sendApeendEntriesTo. rewrite getLastLogIndex_last, Hl. simpl.
  rewrite wrap64_id by done. fold prev.
  destruct (Z.eqb_spec prev 0) as [?|_]; [done|]. simpl.
  rewrite (proj2 (getLogEntry_wf r e0 prev Hwf Hh) Hout). simpl. by rewrite Hsn.
Qed.

Lemma mapM_map_Some {A B : Type} (f : A -> option B) (g : A -> B) (l : list A) :
  (forall x, x ∈ l -> f x = Some (g x)) -> mapM f l = Some (map g l).
Proof.
  induction l as [|a l IH]; intros Hl; [done|].
  cbn [mapM map]. rewrite (Hl a) by left. simpl.
  rewrite IH by (intros x Hx; apply Hl; by right). done.
Qed.

(** What [leaderStatePrep] returns on a log that is not empty. *)
Lemma leaderStatePrep_nextIndex (r : Raft) (last : Z) :
  getLastLogIndex r = Some last ->
  exists r',
    leaderStatePrep r = Some r'
    /\ forall p, p ∈ peers r -> nextIndex r' !! p = Some (wrap64 (last + 1)).
Proof.
  intros Hlast. unfold leaderStatePrep.
  match goal with
  | |- context [getLastLogIndex ?x] =>
      replace (getLastLogIndex x) with (Some last) by (rewrite <- Hlast; reflexivity)
  end.
  simpl.
  match goal with
  | |- context [foldl ?f ?r0 ?ps] =>
      pose proof (leaderStatePrep_loop ps (wrap64 (last + 1)) r0) as H
  end.
  simpl in H. destruct H as (Hin & _).
  eexists. split; [reflexivity|]. intros p Hp. by destruct (Hin p Hp).
Qed.

(** X16: the first broadcast of a new leader.  On a server with a
    well-formed log whose last index is below the largest int64,
    leaderStatePrep followed by sendApeendEntries over its peers sends
    every peer an AppendEntries without entries, with the term, name and
    commit index of the leader, the last log index as prevLogIndex and the
    term of the last entry as prevLogTerm (term 0 when that index is 0);
    no peer is sent InstallSnapshot and no call panics. *)
Theorem new_leader_broadcast (r : Raft) (e0 el : Entry) :
  wf_log (log r) = true ->
  head (log r) = Some e0 ->
  last (log r) = Some el ->
  Index el < max_int64 ->
  exists r',
    leaderStatePrep r = Some r'
    /\ sendApeendEntries r' (peers r)
       = Some (map (fun p =>
                      CallAppendEntries p
                        (mkAppendEntriesArgs (currentTerm r) (me r) (Index el)
                           (if Index el =? 0 then 0 else Term el) (commitIndex r) []))
                   (peers r)).
Proof.
  intros Hwf Hh Hl Hmax.
  destruct (wf_log_last _ _ Hwf Hh) as (el' & Hl' & Hel).
  assert (el' = el) as -> by congruence.
  destruct (wf_log_inv _ Hwf) as (e0' & l' & El & Hc & H1 & H2 & H3).
  assert (e0' = e0) as -> by (rewrite El in Hh; simpl in Hh; congruence).
  assert (Hlen : 0 < Z.of_nat (length (log r))) by (rewrite El; cbn [length]; lia).
  assert (Hw : wrap64 (Index el + 1) = Index el + 1)
    by (apply wrap64_id; unfold int64, min_int64, max_int64 in *; lia).
  assert (Hlast : getLastLogIndex r = Some (Index el)) by (by rewrite getLastLogIndex_last, Hl).
  destruct (leaderStatePrep_nextIndex r (Index el) Hlast) as (r' & Hprep & Hni).
  exists r'. split; [exact Hprep|].
  destruct (leaderStatePrep_frame _ _ Hprep) as (_ & Ht & _ & Hlog & Hci & _ & Hme & _).
  assert (Hwf' : wf_log (log r') = true) by (by rewrite Hlog).
  assert (Hh' : head (log r') = Some e0) by (by rewrite Hlog).
  unfold sendApeendEntries. apply mapM_map_Some. intros p Hp.
  assert (Hnext : peer_get (nextIndex r') p = Index el + 1).
  { unfold peer_get. rewrite (Hni p Hp). cbn [default]. exact Hw. }
  pose proof (sendApeendEntriesTo_append_eval r' p e0 Hwf' Hh') as Heval.
  rewrite Hnext, Hlog, Ht, Hme, Hci in Heval.
  rewrite Heval.
  - replace (Index el + 1 - 1) with (Index el) by lia. do 3 f_equal.
    + destruct (Index el =? 0); [done|].
      replace (Z.to_nat (Index el - Index e0)) with (pred (length (log r))) by lia.
      rewrite <- last_lookup, Hl. done.
    + apply log_suffix_nil. intros e He.
      pose proof (contiguous_le_last _ _ _ Hc He). lia.
  - unfold int64, min_int64, max_int64 in *. lia.
  - unfold int64, min_int64, max_int64 in *. lia.
  - right. lia.
  - left. lia.
Qed.

(** X16, a run: the boot server becomes leader and sends its two peers a
    heartbeat with prevLogIndex 0 and prevLogTerm 0. *)
Lemma new_leader_broadcast_witness :
  exists r',
    leaderStatePrep Samples.boot = Some r'
    /\ sendApeendEntries r' ["n1"; "n2"]%string
       = Some [CallAppendEntries "n1" (mkAppendEntriesArgs 1 "n0" 0 0 0 []);
               CallAppendEntries "n2" (mkAppendEntriesArgs 1 "n0" 0 0 0 [])].
Proof.
  apply (new_leader_broadcast Samples.boot (mkEntry 0 0 None) (mkEntry 0 0 None)).
  - reflexivity.
  - reflexivity.
  - reflexivity.
  - unfold max_int64. simpl. lia.
Defined.

Lemma log_suffix_drop (l : list Entry) (f i : Z) (k : nat) :
  contiguous_from f l = true -> f + Z.of_nat k <= i ->
  log_suffix i (drop k l) = log_suffix i l.
Proof.
  intros Hc Hi. rewrite <- (take_drop k l) at 2. unfold log_suffix.
  rewrite filter_app.
  rewrite (filter_none _ (take k l)); [done|].
  intros x Hx. apply list_elem_of_lookup in Hx as [j Hj].
  pose proof (lookup_lt_Some _ _ _ Hj) as Hlt. rewrite length_take in Hlt.
  rewrite lookup_take_lt in Hj by lia.
  rewrite (contiguous_lookup _ _ _ _ Hc Hj). lia.
Qed.

(** X19: compaction and replication.  When Compaction(S) goes through on a
    leader with a well-formed log that holds index [S], a peer whose
    nextIndex is above [S] (and at most one past the last log index) is
    sent exactly the AppendEntries it would have been sent before the
    compaction; a peer whose nextIndex is at most [S], and is not 1, is
    sent InstallSnapshot with the entry at [S] as snapshot pointer and the
    blob of the snapshot slot. *)
Theorem Compaction_then_replication (r : Raft) (S : Z) (e0 : Entry) (p : string) :
  wf_log (log r) = true ->
  head (log r) = Some e0 ->
  Index e0 <= S <= Index e0 + Z.of_nat (length (log r)) - 1 ->
  (forall sn, lastSnapshotLogEntry r = Some sn -> Index sn < S /\ Index e0 < S) ->
  int64 (peer_get (nextIndex r) p) ->
  int64 (peer_get (nextIndex r) p - 1) ->
  let next := peer_get (nextIndex r) p in
  exists r' e,
    Compaction r S = Some r'
    /\ e ∈ log r /\ Index e = S
    /\ (S < next <= Index e0 + Z.of_nat (length (log r)) ->
        sendApeendEntriesTo r' p = sendApeendEntriesTo r p
        /\ exists args, sendApeendEntriesTo r p = Some (CallAppendEntries p args))
    /\ (next <= S -> next <> 1 ->
        sendApeendEntriesTo r' p
        = Some (CallInstallSnapshot p
                  (mkInstallSnapshotArgs (currentTerm r) (me r) (Some e)
                     (ReadSnapshot (persister r))))).
Proof.
  intros Hwf Hh HS Hsnap Hnext Hprev next.
  destruct (Compaction_through r S e0 Hwf Hh HS) as (e & He & Hidx & Hcomp).
  { destruct (lastSnapshotLogEntry r) as [sn|]; [by apply Hsnap|done]. }
  set (k := Z.to_nat (S - Index e0)) in *.
  assert (Hk : (k < length (log r))%nat) by (unfold k; lia).
  destruct (wf_log_drop _ _ k Hwf Hh Hk) as (Hwfd & e' & He' & Hhd & _).
  assert (e' = e) as -> by congruence.
  destruct (wf_log_inv _ Hwf) as (e0' & l' & El & Hc & H1 & H2 & H3).
  assert (e0' = e0) as -> by (rewrite El in Hh; simpl in Hh; congruence).
  eexists _, e. split; [exact Hcomp|].
  split; [by eapply list_elem_of_lookup_2|]. split; [done|].
  set (r' := persist _).
  assert (Hlog : log r' = drop k (log r)) by reflexivity.
  assert (Hni : nextIndex r' = nextIndex r) by reflexivity.
  assert (Hlen' : length (log r') = (length (log r) - k)%nat) by (by rewrite Hlog, length_drop).
  split.
  - intros Hup.
    rewrite (sendApeendEntriesTo_append_eval r' p e);
      rewrite ?Hni, ?Hlog; fold next; try done; try (rewrite length_drop; unfold k; lia).
    rewrite (sendApeendEntriesTo_append_eval r p e0); fold next; try done; try lia.
    split; [|eauto].
    do 3 f_equal.
    + destruct (next - 1 =? 0); [done|].
      rewrite lookup_drop. do 3 f_equal. unfold k. lia.
    + apply (log_suffix_drop _ (Index e0)); [done|unfold k; lia].
  - intros Hlow Hne.
    rewrite (sendApeendEntriesTo_snapshot_eval r' p e e);
      rewrite ?Hni, ?Hlog; fold next; try done; try lia.
Qed.

(** X19, a run: after Compaction(2) on the log (1,1) (1,2) (1,3), the peer
    n2 with nextIndex 4 is sent the same heartbeat as before. *)
Lemma Compaction_then_replication_witness :
  exists r',
    Compaction Samples.leader_compacted_at_1 2 = Some r'
    /\ sendApeendEntriesTo r' "n2" = sendApeendEntriesTo Samples.leader_compacted_at_1 "n2".
Proof.
  assert (Hn : peer_get (nextIndex Samples.leader_compacted_at_1) "n2" = 4) by reflexivity.
  destruct (Compaction_then_replication Samples.leader_compacted_at_1 2
              (mkEntry 1 1 (Some (Samples.cmd_set "a" "1"))) "n2")
    as (r' & e & Hcomp & _ & _ & Hup & _).
  - reflexivity.
  - reflexivity.
  - simpl. lia.
  - simpl. intros sn H. injection H as <-. simpl. lia.
  - rewrite Hn. unfold int64, min_int64, max_int64. lia.
  - rewrite Hn. unfold int64, min_int64, max_int64. lia.
  - exists r'. split; [exact Hcomp|]. apply Hup. rewrite Hn. simpl. lia.
Defined.

(** X23: a peer without a nextIndex.  For a peer that has no entry in the
    nextIndex table, nextIndex reads as 0 and prevLogIndex is -1; on a
    well-formed log that starts at an index that is not negative, the
    leader then sends InstallSnapshot if it has a snapshot pointer, and
    panics on the nil snapshot pointer if it has none. *)
Theorem sendApeendEntriesTo_unknown_peer (r : Raft) (p : string) (e0 : Entry) :
  wf_log (log r) = true ->
  head (log r) = Some e0 ->
  0 <= Index e0 ->
  nextIndex r !! p = None ->
  (forall sn, lastSnapshotLogEntry r = Some sn ->
     sendApeendEntriesTo r p
     = Some (CallInstallSnapshot p
               (mkInstallSnapshotArgs (currentTerm r) (me r) (Some sn)
                  (ReadSnapshot (persister r)))))
  /\ (lastSnapshotLogEntry r = None -> sendApeendEntriesTo r p = None).
Proof.
  intros Hwf Hh Hfirst Hp.
  assert (Hn : peer_get (nextIndex r) p = 0) by (unfold peer_get; by rewrite Hp).
  split.
  - intros sn Hsn. apply (sendApeendEntriesTo_snapshot_eval r p e0 sn); rewrite ?Hn;
      first [done | unfold int64, min_int64, max_int64; lia | left; lia].
  - intros Hsn.
    destruct (wf_log_last _ _ Hwf Hh) as (el & Hl & Hel).
    unfold sendApeendEntriesTo. rewrite getLastLogIndex_last, Hl, Hn. simpl.
    change (wrap64 (0 - 1)) with (-1). simpl.
    rewrite (proj2 (getLogEntry_wf r e0 (-1) Hwf Hh)) by lia. simpl. by rewrite Hsn.
Qed.

(** X23, a run: the boot leader has no snapshot pointer, and replication to
    a peer it has no nextIndex for panics. *)
Lemma sendApeendEntriesTo_unknown_peer_witness :
  sendApeendEntriesTo Samples.boot "n9" = None.
Proof.
  destruct (sendApeendEntriesTo_unknown_peer Samples.boot "n9" (mkEntry 0 0 None))
    as [_ Hnone].
  - reflexivity.
  - reflexivity.
  - simpl. lia.
  - reflexivity.
  - apply Hnone. reflexivity.
Defined.

(** * Further properties of the apply pump: replies and exits *)

Lemma ProcessLogs_Exited (receiving : chan -> bool) (fuel : nat)
    (r r' : Raft) (s s' : KVStore) (done : list Applied) :
  ProcessLogs receiving fuel r s = Exited (r', s', done) ->
  ProcessLogs_loop receiving fuel r s [] = Exited (r', s', done).
Proof.
  unfold ProcessLogs.
  destruct (ProcessLogs_loop receiving fuel r s []) as [[[r1 s1] done1]| | |]; try done.
  destruct (negb _ && _); [destruct (Compaction _ _)|]; discriminate.
Qed.

Lemma ProcessLogs_loop_no_reply (receiving : chan -> bool) (fuel : nat) :
  forall (r : Raft) (s : KVStore) (done : list Applied),
    state r <> leader ->
    forall r' s' done',
      ProcessLogs_loop receiving fuel r s done = Returned (r', s', done')
      \/ ProcessLogs_loop receiving fuel r s done = Exited (r', s', done') ->
      exists new, done' = (done ++ new)%list /\ Forall no_reply new.
Proof.
  induction fuel as [|fuel IH]; intros r s done Hrole r' s' done'; cbn [ProcessLogs_loop].
  - destruct (Z.ltb_spec (lastApplied r) (commitIndex r)); [intros [?|?]; discriminate|].
    intros [[= <- <- <-]|?]; [|discriminate]. exists []. by rewrite app_nil_r.
  - destruct (Z.ltb_spec (lastApplied r) (commitIndex r)).
    + cbn [lastApplied state clientsResponse set_lastApplied].
      destruct (getLogEntry _ _) as [[[entry|] ok]|]; try (intros [?|?]; discriminate).
      destruct (Cmd entry) as [cmd|]; try (intros [?|?]; discriminate).
      destruct (Z.eqb_spec (state r) leader) as [?|_]; [done|].
      rewrite HandleCommand_dispatch. cbn [command response select_send].
      destruct (dispatch_op s cmd) as [[[s1 res] []]|]; try (intros [?|?]; discriminate).
      * intros [?|[= <- <- <-]]; [discriminate|].
        eexists [_]. split; [done|]. constructor; [|constructor]. done.
      * intros Hrun. apply IH in Hrun as (new & -> & Hnew); [|done].
        eexists (_ :: new). split; [by rewrite <- app_assoc|].
        constructor; [done|exact Hnew].
    + intros [[= <- <- <-]|?]; [|discriminate]. exists []. by rewrite app_nil_r.
Qed.

(** X21: only the leader replies.  On a server that is not Leader,
    whatever its state, every call that ProcessLogs makes to the state
    machine is given no reply sink and its result is dropped, whether
    ProcessLogs returns or ends the process; the sinks a former leader
    still holds are not used. *)
Theorem ProcessLogs_follower_never_replies
    (receiving : chan -> bool) (fuel : nat) (r r' : Raft) (s s' : KVStore)
    (done : list Applied) :
  state r <> leader ->
  ProcessLogs receiving fuel r s = Returned (r', s', done)
  \/ ProcessLogs receiving fuel r s = Exited (r', s', done) ->
  Forall no_reply done.
Proof.
  intros Hrole [Hrun|Hrun].
  - apply ProcessLogs_Returned in Hrun as (r1 & Hloop & _).
    destruct (ProcessLogs_loop_no_reply receiving fuel r s [] Hrole r1 s' done)
      as (new & -> & Hnew); [by left|done].
  - apply ProcessLogs_Exited in Hrun.
    destruct (ProcessLogs_loop_no_reply receiving fuel r s [] Hrole r' s' done)
      as (new & -> & Hnew); [by right|done].
Qed.

(** X21, a run: a follower applies three Set commands and replies to
    nobody. *)
Lemma ProcessLogs_follower_never_replies_witness :
  exists r' s' done,
    ProcessLogs (fun _ => true) 3 (Samples.server follower Samples.three_sets 3 0 None)
      (mkKVStore ∅)
    = Returned (r', s', done)
    /\ length done = 3%nat
    /\ Forall no_reply done.
Proof.
  eexists _, _, _. split; [vm_compute; reflexivity|]. split; [reflexivity|].
  eapply (ProcessLogs_follower_never_replies (fun _ => true) 3
            (Samples.server follower Samples.three_sets 3 0 None) _ (mkKVStore ∅) _ _).
  - intros H. vm_compute in H. discriminate H.
  - left. vm_compute. reflexivity.
Defined.

Lemma contiguous_index_inj (l : list Entry) (f : Z) (e1 e2 : Entry) :
  contiguous_from f l = true -> e1 ∈ l -> e2 ∈ l -> Index e1 = Index e2 -> e1 = e2.
Proof.
  intros Hc H1 H2 Hi.
  apply list_elem_of_lookup in H1 as [k1 Hk1]. apply list_elem_of_lookup in H2 as [k2 Hk2].
  pose proof (contiguous_lookup _ _ _ _ Hc Hk1). pose proof (contiguous_lookup _ _ _ _ Hc Hk2).
  assert (k1 = k2) as -> by lia. congruence.
Qed.

Lemma ProcessLogs_loop_exits (receiving : chan -> bool) (ej : Entry) (cj : Command) (n : nat) :
  forall (fuel : nat) (r : Raft) (s : KVStore) (done : list Applied) (e0 : Entry),
    wf_log (log r) = true ->
    head (log r) = Some e0 ->
    Index e0 <= lastApplied r + 1 ->
    ej ∈ log r -> Cmd ej = Some cj -> Operation cj = Op_CONFIG_CHG ->
    lastApplied r < Index ej <= commitIndex r ->
    (forall e, e ∈ log r -> lastApplied r < Index e < Index ej ->
               exists c, Cmd e = Some c /\ applicable c = true) ->
    n = Z.to_nat (Index ej - lastApplied r - 1) ->
    (n < fuel)%nat ->
    exists r1 s1 new d,
      ProcessLogs_loop receiving fuel r s done
      = Exited (r1, s1, (done ++ new ++ [mkApplied ej (mkInput cj (sink_for r ej)) d])%list)
      /\ lastApplied r1 = Index ej
      /\ result_of d = Result_blank
      /\ map (fun a => Index (applied_entry a)) new
         = seqZ (lastApplied r + 1) (Index ej - lastApplied r - 1).
Proof.
  induction n as [|n IH];
    intros fuel r s done e0 Hwf Hh Hfirst Hej Hcj Hop Hrange Hcmds Hn Hfuel;
    (destruct fuel as [|fuel]; [lia|]);
    destruct (wf_log_inv _ Hwf) as (e0' & l' & El & Hc & H1 & H2 & H3);
    (assert (e0' = e0) as -> by (rewrite El in Hh; simpl in Hh; congruence));
    pose proof (contiguous_le_last _ _ _ Hc Hej) as Hejl;
    (assert (Hw : wrap64 (lastApplied r + 1) = lastApplied r + 1)
      by (apply wrap64_id; unfold int64, min_int64, max_int64 in *; lia));
    destruct (proj1 (getLogEntry_wf (set_lastApplied r (lastApplied r + 1)) e0
                       (lastApplied r + 1) Hwf Hh)) as (e & He & Hidx & Hget);
    try (cbn [log set_lastApplied]; lia);
    cbn [log set_lastApplied] in He;
    assert (Hin : e ∈ log r) by (by eapply list_elem_of_lookup_2).
  - assert (e = ej) as -> by (apply (contiguous_index_inj _ _ _ _ Hc Hin Hej); lia).
    exists (set_lastApplied r (lastApplied r + 1)), s, [],
           (select_send receiving (sink_for r ej) Result_blank).
    split.
    { cbn [ProcessLogs_loop].
      destruct (Z.ltb_spec (lastApplied r) (commitIndex r)) as [_|?]; [|lia].
      cbn [lastApplied set_lastApplied]. rewrite Hw, Hget, Hcj.
      cbn [state clientsResponse set_lastApplied]. fold (sink_for r ej).
      rewrite HandleCommand_dispatch. cbn [command response].
      destruct cj as [op arg]. simpl in Hop. subst op. reflexivity. }
    split; [cbn [lastApplied set_lastApplied]; lia|].
    split; [unfold select_send; destruct (sink_for r ej) as [c0|];
            [destruct (receiving c0)|]; reflexivity|].
    replace (Index ej - lastApplied r - 1) with 0 by lia. reflexivity.
  - destruct (Hcmds e Hin) as (c & Hcmd & Happ); [lia|].
    destruct (HandleCommand_applicable_returns receiving s c (sink_for r e) Happ)
      as (s1 & d & Hhandle).
    rewrite (ProcessLogs_loop_step receiving fuel r s s1 done e c d) by (rewrite ?Hw; done || lia).
    rewrite Hw, Hidx.
    set (r2 := set_clientsResponse (set_lastApplied r (lastApplied r + 1))
                 (delete (lastApplied r + 1) (clientsResponse r))).
    destruct (IH fuel r2 s1 (done ++ [mkApplied e (mkInput c (sink_for r e)) d])%list e0)
      as (r1 & s2 & new & d2 & Hrun & Hla & Hres & Hidxs).
    all: try (subst r2; cbn [log lastApplied commitIndex set_clientsResponse set_lastApplied];
              first [done | lia]).
    { subst r2. cbn [log lastApplied commitIndex set_clientsResponse set_lastApplied].
      intros x Hx Hr. apply Hcmds; [done|lia]. }
    assert (Hsink : sink_for r2 ej = sink_for r ej).
    { unfold sink_for. subst r2. cbn [state clientsResponse set_clientsResponse set_lastApplied].
      destruct (state r =? leader); [|done]. apply lookup_delete_ne. lia. }
    rewrite Hsink in Hrun.
    exists r1, s2, (mkApplied e (mkInput c (sink_for r e)) d :: new), d2.
    split; [rewrite Hrun; by rewrite <- app_assoc|].
    split; [done|]. split; [done|].
    cbn [map applied_entry]. rewrite Hidxs.
    subst r2. cbn [lastApplied set_clientsResponse set_lastApplied].
    rewrite Hidx, (seqZ_cons (lastApplied r + 1) (Index ej - lastApplied r - 1)) by lia.
    f_equal. f_equal; lia.
Qed.

(** X22: the pump stops at the first ChangeConfiguration entry.  On a
    well-formed state whose entries to apply hold a ChangeConfiguration
    command at index [j], all entries to apply before it holding Get, Set,
    Clear or CompareAndSet commands with their payload, ProcessLogs applies
    the entries before [j] in order, hands the entry at [j] to the state
    machine with the reply sink of that entry, and the process exits there:
    lastApplied is [j], the result offered for it is blank, and no later
    entry is applied. *)
Theorem ProcessLogs_exits_at_first_ChangeConfiguration
    (receiving : chan -> bool) (fuel : nat) (r : Raft) (s : KVStore)
    (e0 ej : Entry) (cj : Command) :
  wf_log (log r) = true ->
  head (log r) = Some e0 ->
  Index e0 <= lastApplied r ->
  ej ∈ log r -> Cmd ej = Some cj -> Operation cj = Op_CONFIG_CHG ->
  lastApplied r < Index ej <= commitIndex r ->
  (forall e, e ∈ log r -> lastApplied r < Index e < Index ej ->
             exists c, Cmd e = Some c /\ applicable c = true) ->
  (Z.to_nat (Index ej - lastApplied r) <= fuel)%nat ->
  exists r1 s1 before d,
    ProcessLogs receiving fuel r s
    = Exited (r1, s1, (before ++ [mkApplied ej (mkInput cj (sink_for r ej)) d])%list)
    /\ lastApplied r1 = Index ej
    /\ result_of d = Result_blank
    /\ map (fun a => Index (applied_entry a)) before
       = seqZ (lastApplied r + 1) (Index ej - lastApplied r - 1).
Proof.
  intros Hwf Hh Hfirst Hej Hcj Hop Hrange Hcmds Hfuel.
  destruct (ProcessLogs_loop_exits receiving ej cj (Z.to_nat (Index ej - lastApplied r - 1))
              fuel r s [] e0) as (r1 & s1 & new & d & Hrun & Hla & Hres & Hidxs);
    try done; try lia.
  exists r1, s1, new, d. split; [|done].
  unfold ProcessLogs. rewrite Hrun. reflexivity.
Qed.

(** X22, a run: the leader whose entry 1 is a ChangeConfiguration command. *)
Lemma ProcessLogs_exits_at_first_ChangeConfiguration_witness :
  exists r1 s1 before d,
    ProcessLogs (fun _ => true) 2 Samples.leader_with_config_change (mkKVStore ∅)
    = Exited (r1, s1,
              (before ++ [mkApplied (mkEntry 1 1 (Some (Samples.cmd_config_chg "n0,n1,n2" "n0,n1")))
                            (mkInput (Samples.cmd_config_chg "n0,n1,n2" "n0,n1")
                               (sink_for Samples.leader_with_config_change
                                  (mkEntry 1 1 (Some (Samples.cmd_config_chg "n0,n1,n2" "n0,n1")))))
                            d])%list)
    /\ lastApplied r1 = 1
    /\ result_of d = Result_blank
    /\ before = [].
Proof.
  destruct (ProcessLogs_exits_at_first_ChangeConfiguration (fun _ => true) 2
              Samples.leader_with_config_change (mkKVStore ∅) (mkEntry 0 0 None)
              (mkEntry 1 1 (Some (Samples.cmd_config_chg "n0,n1,n2" "n0,n1")))
              (Samples.cmd_config_chg "n0,n1,n2" "n0,n1"))
    as (r1 & s1 & before & d & Hrun & Hla & Hres & Hidx).
  - reflexivity.
  - reflexivity.
  - simpl. lia.
  - simpl. right. left.
  - reflexivity.
  - reflexivity.
  - simpl. lia.
  - intros e He Hr. simpl in Hr. lia.
  - simpl. lia.
  - exists r1, s1, before, d. split; [exact Hrun|]. split; [exact Hla|].
    split; [exact Hres|]. simpl in Hidx. by destruct before.
Defined.
